(** * The outline model of a text document

    A shallow embedding of
    [src/vs/workbench/parts/outline/electron-browser/outlineModel.ts]:
    the tree of outline elements, its identifiers, the fetch cycle that
    fills the model from the symbol providers, the fuzzy-match
    propagation and the position lookup.

    Objects are modelled as the program has them.  An [OutlineElement]
    is a value that carries the address of the object ([elem_ref]) and
    the fields that are fixed once the element is built ([id], [symbol],
    [children]); the two fields the program assigns later, [score] and
    [parent], live in a heap indexed by the address, so that the same
    object reached along two paths shows the same score and parent. *)

From Stdlib Require Import ZArith Lia.
From stdpp Require Import gmap strings list pretty.

(** ** JavaScript objects used as dictionaries

    [Object.create(null)] gives an object without a prototype: the only
    keys are the ones the program assigns.  [for (key in obj)] visits the
    keys that are array indices first, in ascending order, and then the
    other keys in the order of their first assignment.  A [JsObj] lists
    the entries in the order of the iteration, and [obj_set] is the
    assignment of a key that is not an array index.  Every key of a
    fetch cycle starts with the model's id [root] (see [findId_prefix]),
    so none is an array index; what is stated of the order of the keys
    of a container of any id assumes that its id has a character that is
    not a digit ([all_digits]), which its keys then have too. *)

Definition JsObj (A : Type) : Type := list (string * A).

(** [obj[key]], [None] for [undefined]. *)
Fixpoint obj_get {A : Type} (key : string) (obj : JsObj A) : option A :=
  match obj with
  | [] => None
  | (k, v) :: obj' => if String.eqb k key then Some v else obj_get key obj'
  end.

(** [obj[key] = value]: a key that exists keeps its place. *)
Fixpoint obj_set {A : Type} (key : string) (value : A) (obj : JsObj A) : JsObj A :=
  match obj with
  | [] => [(key, value)]
  | (k, v) :: obj' =>
      if String.eqb k key then (key, value) :: obj'
      else (k, v) :: obj_set key value obj'
  end.

Definition obj_keys {A : Type} (obj : JsObj A) : list string := obj.*1.
Definition obj_values {A : Type} (obj : JsObj A) : list A := obj.*2.

(** An array index is the decimal writing of a number: a key for which
    [all_digits] is [false] is not one. *)
Definition is_digit (c : Ascii.ascii) : bool :=
  (48 <=? Ascii.nat_of_ascii c) && (Ascii.nat_of_ascii c <=? 57).

Fixpoint all_digits (s : string) : bool :=
  match s with
  | EmptyString => true
  | String c s' => is_digit c && all_digits s'
  end.

(** Modelled from the spec: [size] and [first] of
    [vs/base/common/collections], which are not part of the sources at
    hand: the number of entries ("the group count") and the first value
    in iteration order ("that sole group"). *)
Definition size {A : Type} (obj : JsObj A) : nat := length obj.

Definition first {A : Type} (obj : JsObj A) : option A :=
  match obj with
  | [] => None
  | (_, v) :: _ => Some v
  end.

(** ** TreeElement.findId *)

(** The loop [for (let i = 1; container.children[id] !== void 0; i++)].
    [fuel] bounds the number of iterations; [findId] supplies the number
    of children, which [findId_loop_fresh] shows to be enough. *)
Fixpoint findId_loop {A : Type} (fuel : nat) (prefix : string)
    (children : JsObj A) (i : nat) (id : string) : string :=
  match obj_get id children with
  | None => id
  | Some _ =>
      match fuel with
      | 0 => id
      | S fuel' => findId_loop fuel' prefix children (S i) (prefix +:+ pretty i)
      end
  end.

(** [findId(candidate, container)], with the container given by its [id]
    and its [children]. *)
Definition findId {A : Type} (candidate : string) (container_id : string)
    (children : JsObj A) : string :=
  findId_loop (length children) (container_id +:+ candidate) children 1
    (container_id +:+ candidate).

(** ** The heap: object addresses and the assignable fields *)

Definition loc : Type := nat.

(** [FuzzyScore = [number, number[]]]; the scorer returns integers. *)
Definition FuzzyScore : Type := (Z * list Z)%type.

(** The value of a [parent] field: the model (there is one, [this]) or an
    allocated group or element. *)
Inductive ParentRef : Type :=
  | TheModel
  | Obj (l : loc).

(** [scores] holds the [score] field of every element; no entry stands
    for [undefined], the value the scorer returns when the pattern does
    not match.  [next] is the next free address. *)
Record Heap : Type := mkHeap {
  next : loc;
  scores : gmap loc FuzzyScore;
  parents : gmap loc ParentRef
}.

Definition empty_heap : Heap := mkHeap 0 ∅ ∅.

Definition get_score (l : loc) (h : Heap) : option FuzzyScore := scores h !! l.

Definition set_score (l : loc) (s : option FuzzyScore) (h : Heap) : Heap :=
  mkHeap (next h) (partial_alter (λ _, s) l (scores h)) (parents h).

Definition get_parent (l : loc) (h : Heap) : option ParentRef := parents h !! l.

Definition set_parent (l : loc) (p : ParentRef) (h : Heap) : Heap :=
  mkHeap (next h) (scores h) (<[l := p]> (parents h)).

(** JavaScript truthiness of a score: an array is truthy, [undefined] is
    not. *)
Definition truthy {A : Type} (v : option A) : bool :=
  match v with Some _ => true | None => false end.

(** A call either returns or throws a [TypeError] (reading [score[0]] of
    an element whose score is [undefined]). *)
Inductive result (A : Type) : Type :=
  | Ok (a : A)
  | TypeError.
Arguments Ok {A} a.
Arguments TypeError {A}.

Section Outline.

(** What the model consumes from outside: ranges and positions with
    [Range.containsPosition], and the scorer [fuzzyScore]. *)
Variable Range Position : Type.
Variable containsPosition : Range → Position → bool.
Variable fuzzyScore : string → string → option FuzzyScore.

(** ** The data model *)

(** [SymbolInformation]: the fields the model reads.  The types are
    nested in lists; their induction principles are given below. *)
Local Unset Elimination Schemes.

Inductive SymbolInformation : Type := mkSymbolInformation {
  info_name : string;
  info_definingRange : option Range;
  info_location_range : Range;
  info_children : option (list SymbolInformation)
}.

Inductive OutlineElement : Type := mkOutlineElement {
  elem_ref : loc;
  elem_id : string;
  elem_symbol : SymbolInformation;
  elem_children : JsObj OutlineElement
}.

Local Set Elimination Schemes.

Record OutlineGroup : Type := mkOutlineGroup {
  group_ref : loc;
  group_id : string;
  group_providerIndex : nat;
  group_children : JsObj OutlineElement
}.

(** [OutlineGroup | OutlineElement], the values of the model's
    [children]. *)
Inductive ModelChild : Type :=
  | ChildGroup (g : OutlineGroup)
  | ChildElement (e : OutlineElement).

(** [this.children = this._groups] makes the two fields one object; the
    program assigns to neither afterwards within a fetch cycle, so the
    model keeps the two fields as values. *)
Record OutlineModel : Type := mkOutlineModel {
  _groups : JsObj OutlineGroup;
  model_children : JsObj ModelChild
}.

Definition model_id : string := "root".

(** The abstract class [TreeElement]. *)
Inductive TreeElement : Type :=
  | IsModel (m : OutlineModel)
  | IsGroup (g : OutlineGroup)
  | IsElement (e : OutlineElement).

Definition tree_id (t : TreeElement) : string :=
  match t with
  | IsModel _ => model_id
  | IsGroup g => group_id g
  | IsElement e => elem_id e
  end.

(** ** TreeElement.getElementById *)

Fixpoint getElementById_element (id : string) (element : OutlineElement)
    : option OutlineElement :=
  match element with
  | mkOutlineElement _ eid _ children =>
      if String.eqb eid id then Some element
      else
        (fix loop (cs : JsObj OutlineElement) : option OutlineElement :=
           match cs with
           | [] => None
           | (_, child) :: cs' =>
               match getElementById_element id child with
               | Some candidate => Some candidate
               | None => loop cs'
               end
           end) children
  end.

(** The loop [for (const key in element.children)] of [getElementById]. *)
Fixpoint getElementById_in {A : Type} (get : A → option TreeElement)
    (children : JsObj A) : option TreeElement :=
  match children with
  | [] => None
  | (_, child) :: cs' =>
      match get child with
      | Some candidate => Some candidate
      | None => getElementById_in get cs'
      end
  end.

Definition getElementById_group (id : string) (g : OutlineGroup) : option TreeElement :=
  if String.eqb (group_id g) id then Some (IsGroup g)
  else getElementById_in (λ e, IsElement <$> getElementById_element id e)
         (group_children g).

Definition getElementById_child (id : string) (c : ModelChild) : option TreeElement :=
  match c with
  | ChildGroup g => getElementById_group id g
  | ChildElement e => IsElement <$> getElementById_element id e
  end.

Definition getElementById (id : string) (element : TreeElement) : option TreeElement :=
  match element with
  | IsModel m =>
      if String.eqb model_id id then Some (IsModel m)
      else getElementById_in (getElementById_child id) (model_children m)
  | IsGroup g => getElementById_group id g
  | IsElement e => IsElement <$> getElementById_element id e
  end.

(** [OutlineModel.getItemById]. *)
Definition getItemById (id : string) (m : OutlineModel) : option TreeElement :=
  getElementById id (IsModel m).

(** ** OutlineGroup: match propagation *)

(** The test [item.score && (!topMatch || item.score[0] > topMatch.score[0])]
    followed by [topMatch = item]. *)
Definition pickTopMatch (item : OutlineElement) (topMatch : option OutlineElement)
    (h : Heap) : result (option OutlineElement) :=
  match get_score (elem_ref item) h with
  | None => Ok topMatch
  | Some s =>
      match topMatch with
      | None => Ok (Some item)
      | Some top =>
          match get_score (elem_ref top) h with
          | None => TypeError
          | Some st => Ok (if (s.1 >? st.1)%Z then Some item else topMatch)
          end
      end
  end.

(** [if (!item.score && child.score) item.score = [0, []]]. *)
Definition keepParent (item child : OutlineElement) (h : Heap) : Heap :=
  if negb (truthy (get_score (elem_ref item) h))
     && truthy (get_score (elem_ref child) h)
  then set_score (elem_ref item) (Some (0%Z, [])) h
  else h.

Fixpoint _updateMatches (pattern : string) (item : OutlineElement)
    (topMatch : option OutlineElement) (h : Heap)
    : result (option OutlineElement * Heap) :=
  match item with
  | mkOutlineElement _ _ symbol children =>
      let h := set_score (elem_ref item) (fuzzyScore pattern (info_name symbol)) h in
      match pickTopMatch item topMatch h with
      | TypeError => TypeError
      | Ok topMatch =>
          (fix loop (cs : JsObj OutlineElement) (topMatch : option OutlineElement)
               (h : Heap) : result (option OutlineElement * Heap) :=
             match cs with
             | [] => Ok (topMatch, h)
             | (_, child) :: cs' =>
                 match _updateMatches pattern child topMatch h with
                 | TypeError => TypeError
                 | Ok (topMatch, h) => loop cs' topMatch (keepParent item child h)
                 end
             end) children topMatch h
      end
  end.

(** The loop of [OutlineGroup.updateMatches] over [this.children]. *)
Fixpoint updateMatches_children (pattern : string) (children : JsObj OutlineElement)
    (topMatch : option OutlineElement) (h : Heap)
    : result (option OutlineElement * Heap) :=
  match children with
  | [] => Ok (topMatch, h)
  | (_, child) :: cs' =>
      match _updateMatches pattern child topMatch h with
      | TypeError => TypeError
      | Ok (topMatch, h) => updateMatches_children pattern cs' topMatch h
      end
  end.

Definition group_updateMatches (pattern : string) (g : OutlineGroup)
    (topMatch : option OutlineElement) (h : Heap)
    : result (option OutlineElement * Heap) :=
  updateMatches_children pattern (group_children g) topMatch h.

(** ** OutlineGroup: position lookup *)

(** [item.symbol.definingRange || item.symbol.location.range]. *)
Definition elem_range (item : OutlineElement) : Range :=
  match info_definingRange (elem_symbol item) with
  | Some r => r
  | None => info_location_range (elem_symbol item)
  end.

(** One turn of the loop of [_getItemEnclosingPosition]: [None] when the
    turn ends in [continue], the returned element otherwise. *)
Fixpoint enclosing_visit (position : Position) (item : OutlineElement)
    : option OutlineElement :=
  match item with
  | mkOutlineElement _ _ _ children =>
      if negb (containsPosition (elem_range item) position) then None
      else
        Some (default item
          ((fix loop (cs : JsObj OutlineElement) : option OutlineElement :=
              match cs with
              | [] => None
              | (_, child) :: cs' =>
                  match enclosing_visit position child with
                  | Some r => Some r
                  | None => loop cs'
                  end
              end) children))
  end.

Fixpoint _getItemEnclosingPosition (position : Position)
    (children : JsObj OutlineElement) : option OutlineElement :=
  match children with
  | [] => None
  | (_, item) :: cs' =>
      match enclosing_visit position item with
      | Some r => Some r
      | None => _getItemEnclosingPosition position cs'
      end
  end.

Definition group_getItemEnclosingPosition (position : Position) (g : OutlineGroup)
    : option OutlineElement :=
  _getItemEnclosingPosition position (group_children g).

(** ** OutlineModel: queries *)

Fixpoint updateMatches_groups (pattern : string) (groups : JsObj OutlineGroup)
    (topMatch : option OutlineElement) (h : Heap)
    : result (option OutlineElement * Heap) :=
  match groups with
  | [] => Ok (topMatch, h)
  | (_, g) :: gs' =>
      match group_updateMatches pattern g topMatch h with
      | TypeError => TypeError
      | Ok (topMatch, h) => updateMatches_groups pattern gs' topMatch h
      end
  end.

(** [OutlineModel.updateMatches]: [let topMatch] starts as [undefined]. *)
Definition updateMatches (pattern : string) (m : OutlineModel) (h : Heap)
    : result (option OutlineElement * Heap) :=
  updateMatches_groups pattern (_groups m) None h.

Fixpoint getItemEnclosingPosition_groups (position : Position)
    (groups : JsObj OutlineGroup) : option OutlineElement :=
  match groups with
  | [] => None
  | (_, g) :: gs' =>
      match group_getItemEnclosingPosition position g with
      | Some r => Some r
      | None => getItemEnclosingPosition_groups position gs'
      end
  end.

(** [OutlineModel.getItemEnclosingPosition]. *)
Definition getItemEnclosingPosition (position : Position) (m : OutlineModel)
    : option OutlineElement :=
  getItemEnclosingPosition_groups position (_groups m).

(** ** OutlineModel: building the tree *)

(** [new OutlineElement(id, parent, symbol)]: a fresh object with
    [score = [0, []]] and no children. *)
Definition new_OutlineElement (id : string) (parent : ParentRef)
    (symbol : SymbolInformation) (h : Heap) : OutlineElement * Heap :=
  (mkOutlineElement (next h) id symbol [],
   mkHeap (S (next h)) (<[next h := (0%Z, [])]> (scores h))
          (<[next h := parent]> (parents h))).

(** [new OutlineGroup(id, this, provider, index)]. *)
Definition new_OutlineGroup (id : string) (index : nat) (h : Heap)
    : OutlineGroup * Heap :=
  (mkOutlineGroup (next h) id index [],
   mkHeap (S (next h)) (scores h) (<[next h := TheModel]> (parents h))).

(** [_makeOutlineElement(info, container)]; the container, a group or an
    element, is given by its address, its [id] and its [children], and
    the function returns the [children] after
    [container.children[res.id] = res]. *)
Fixpoint _makeOutlineElement (info : SymbolInformation) (container_ref : loc)
    (container_id : string) (container_children : JsObj OutlineElement)
    (h : Heap) : JsObj OutlineElement * Heap :=
  match info with
  | mkSymbolInformation name _ _ children =>
      let id := findId name container_id container_children in
      let (res, h) := new_OutlineElement id (Obj container_ref) info h in
      let (res_children, h) :=
        match children with
        | None => (elem_children res, h)
        | Some infos =>
            (fix loop (infos : list SymbolInformation)
                 (res_children : JsObj OutlineElement) (h : Heap)
                 : JsObj OutlineElement * Heap :=
               match infos with
               | [] => (res_children, h)
               | childInfo :: infos' =>
                   let (res_children, h) :=
                     _makeOutlineElement childInfo (elem_ref res) id res_children h in
                   loop infos' res_children h
               end) infos (elem_children res) h
        end in
      (obj_set id (mkOutlineElement (elem_ref res) id info res_children)
         container_children, h)
  end.

(** The loop [for (const info of result)] over one provider's symbols. *)
Fixpoint makeOutlineElements (infos : list SymbolInformation) (container_ref : loc)
    (container_id : string) (container_children : JsObj OutlineElement)
    (h : Heap) : JsObj OutlineElement * Heap :=
  match infos with
  | [] => (container_children, h)
  | info :: infos' =>
      let (cs, h) := _makeOutlineElement info container_ref container_id
                       container_children h in
      makeOutlineElements infos' container_ref container_id cs h
  end.

(** ** OutlineModel: the fetch cycle *)

(** How a provider's promise settles: it rejects, or it resolves with a
    list of symbols or with nothing ([undefined] or [null]). *)
Inductive ProviderOutcome : Type :=
  | Rejected
  | Resolved (result : option (list SymbolInformation)).

(** Modelled from the spec: [isFalsyOrEmpty] of [vs/base/common/arrays],
    not part of the sources at hand ("empty/absent result"). *)
Definition isFalsyOrEmpty {A : Type} (result : option (list A)) : bool :=
  match result with
  | None | Some [] => true
  | Some (_ :: _) => false
  end.

(** The synchronous part of [_makeRequest]: a group for every provider,
    in the order of the registry. *)
Fixpoint makeGroups (m : OutlineModel) (index : nat) (providers : nat) (h : Heap)
    : list OutlineGroup * Heap :=
  match providers with
  | 0 => ([], h)
  | S providers' =>
      let id := findId ("provider_" +:+ pretty index) model_id (model_children m) in
      let (group, h) := new_OutlineGroup id index h in
      let (groups, h) := makeGroups m (S index) providers' h in
      (group :: groups, h)
  end.

(** The two callbacks of one provider's promise,
    [result => { ...; return group; }] and [err => { return group; }]:
    the group is filled when the result has symbols. *)
Definition onSettled (outcome : ProviderOutcome) (group : OutlineGroup) (h : Heap)
    : OutlineGroup * Heap :=
  match outcome with
  | Resolved result =>
      if negb (isFalsyOrEmpty result) then
        let (cs, h) := makeOutlineElements (default [] result) (group_ref group)
                         (group_id group) (group_children group) h in
        (mkOutlineGroup (group_ref group) (group_id group)
           (group_providerIndex group) cs, h)
      else (group, h)
  | Rejected => (group, h)
  end.

(** One provider's promise settles: its callback runs, and the [then]
    that follows does [this._groups[id] = group]. *)
Definition settle (outcome : ProviderOutcome) (group : OutlineGroup)
    (m : OutlineModel) (h : Heap) : OutlineModel * Heap :=
  let (group, h) := onSettled outcome group h in
  (mkOutlineModel (obj_set (group_id group) group (_groups m)) (model_children m), h).

(** The promises settle one after the other in some order; [order] lists
    the provider indices in the order of settlement. *)
Fixpoint settleAll (outcomes : list ProviderOutcome) (groups : list OutlineGroup)
    (order : list nat) (m : OutlineModel) (h : Heap) : OutlineModel * Heap :=
  match order with
  | [] => (m, h)
  | index :: order' =>
      match outcomes !! index, groups !! index with
      | Some outcome, Some group =>
          let (m, h) := settle outcome group m h in
          settleAll outcomes groups order' m h
      | _, _ => settleAll outcomes groups order' m h
      end
  end.

(** The loop that adopts the elements of the first group:
    [child.parent = this; this.children[child.id] = child]. *)
Fixpoint adopt (group_children : JsObj OutlineElement)
    (children : JsObj ModelChild) (h : Heap) : JsObj ModelChild * Heap :=
  match group_children with
  | [] => (children, h)
  | (_, child) :: cs' =>
      adopt cs' (obj_set (elem_id child) (ChildElement child) children)
        (set_parent (elem_ref child) TheModel h)
  end.

(** The continuation of [TPromise.join(promises)]. *)
Definition joined (m : OutlineModel) (h : Heap) : OutlineModel * Heap :=
  if negb (Nat.eqb (size (_groups m)) 1) then
    (mkOutlineModel (_groups m) (prod_map id ChildGroup <$> _groups m), h)
  else
    match first (_groups m) with
    | None => (m, h) (* not reached: an object of size 1 has a first value *)
    | Some group =>
        let (children, h) := adopt (group_children group) (model_children m) h in
        (mkOutlineModel (_groups m) children, h)
    end.

(** The state the constructor and [refresh] set up before they call
    [_makeRequest]: [_groups] and [children] fresh and empty. *)
Definition fresh_model : OutlineModel := mkOutlineModel [] [].

(** A fetch cycle that runs to its end: [_makeRequest] on the fresh
    model, every promise settling, then the continuation of the join. *)
Definition fetchCycle (outcomes : list ProviderOutcome) (order : list nat) (h : Heap)
    : OutlineModel * Heap :=
  let (groups, h) := makeGroups fresh_model 0 (length outcomes) h in
  let (m, h) := settleAll outcomes groups order fresh_model h in
  joined m h.

(** The ids [findId] tries, in order: the prefix itself, then the prefix
    followed by 1, 2, ... *)
Definition candidateId (prefix : string) (j : nat) : string :=
  match j with
  | 0 => prefix
  | S _ => prefix +:+ pretty j
  end.

(** ** Orders of traversal, used to state the properties *)

(** The elements below [e], [e] first, every child's subtree before the
    next child: the order in which the recursive functions of the
    program visit them. *)
Fixpoint elem_preorder (e : OutlineElement) : list OutlineElement :=
  match e with
  | mkOutlineElement _ _ _ children =>
      e :: (fix loop (cs : JsObj OutlineElement) : list OutlineElement :=
              match cs with
              | [] => []
              | (_, child) :: cs' => elem_preorder child ++ loop cs'
              end) children
  end.

Fixpoint children_preorder (children : JsObj OutlineElement) : list OutlineElement :=
  match children with
  | [] => []
  | (_, child) :: cs' => elem_preorder child ++ children_preorder cs'
  end.

Definition group_preorder (g : OutlineGroup) : list TreeElement :=
  IsGroup g :: (IsElement <$> children_preorder (group_children g)).

Definition child_preorder (c : ModelChild) : list TreeElement :=
  match c with
  | ChildGroup g => group_preorder g
  | ChildElement e => IsElement <$> elem_preorder e
  end.

Definition preorder (t : TreeElement) : list TreeElement :=
  match t with
  | IsModel m => IsModel m :: (obj_values (model_children m) ≫= child_preorder)
  | IsGroup g => group_preorder g
  | IsElement e => IsElement <$> elem_preorder e
  end.

(** [container.children[node.id] = node] for an element [node], as
    [_makeOutlineElement] does on a group or an element and the adoption
    loop does on the model. *)
Definition insert_child (node : OutlineElement) (container : TreeElement) : TreeElement :=
  match container with
  | IsModel m =>
      IsModel (mkOutlineModel (_groups m)
                 (obj_set (elem_id node) (ChildElement node) (model_children m)))
  | IsGroup g =>
      IsGroup (mkOutlineGroup (group_ref g) (group_id g) (group_providerIndex g)
                 (obj_set (elem_id node) node (group_children g)))
  | IsElement e =>
      IsElement (mkOutlineElement (elem_ref e) (elem_id e) (elem_symbol e)
                   (obj_set (elem_id node) node (elem_children e)))
  end.

(** [encloses position e]: the range of [e] contains the position. *)
Definition encloses (position : Position) (e : OutlineElement) : bool :=
  containsPosition (elem_range e) position.

(** The elements strictly below [e]. *)
Definition descendants (e : OutlineElement) : list OutlineElement :=
  children_preorder (elem_children e).

(** Ranges are nested at [position] below [children] when an element
    whose range contains the position has a parent whose range contains
    it too. *)
Definition nested_ranges (position : Position) (children : JsObj OutlineElement) : Prop :=
  ∀ parent child, parent ∈ children_preorder children →
    child ∈ obj_values (elem_children parent) →
    encloses position child = true → encloses position parent = true.

(** ** What a search computes, used to state the properties *)

(** The score of the element's own name. *)
Definition own_score (pattern : string) (e : OutlineElement) : option FuzzyScore :=
  fuzzyScore pattern (info_name (elem_symbol e)).

Definition matches (pattern : string) (e : OutlineElement) : bool :=
  truthy (own_score pattern e).

(** The score an element is left with: its own, or the zero score that
    keeps a parent of a match, or none. *)
Definition final_score (pattern : string) (e : OutlineElement) : option FuzzyScore :=
  match own_score pattern e with
  | Some s => Some s
  | None => if existsb (matches pattern) (descendants e) then Some (0%Z, []) else None
  end.

(** The best match so far with its match-value, after [e] is looked at. *)
Definition pick (pattern : string) (acc : option (OutlineElement * Z))
    (e : OutlineElement) : option (OutlineElement * Z) :=
  match own_score pattern e with
  | None => acc
  | Some s =>
      match acc with
      | None => Some (e, s.1)
      | Some (_, v) => if (s.1 >? v)%Z then Some (e, s.1) else acc
      end
  end.

Definition best (pattern : string) (visited : list OutlineElement)
    (acc : option (OutlineElement * Z)) : option (OutlineElement * Z) :=
  fold_left (pick pattern) visited acc.

(** The best match so far is an element whose score in the heap holds
    the recorded match-value, and that the search will not visit. *)
Definition acc_ok (acc : option (OutlineElement * Z)) (h : Heap) (visit : list loc) : Prop :=
  match acc with
  | None => True
  | Some (t, v) =>
      (∃ offsets, get_score (elem_ref t) h = Some (v, offsets)) ∧ elem_ref t ∉ visit
  end.

(** The loop [for (const key in item.children)] of [_updateMatches],
    over the function that visits a child. *)
Definition updateMatches_loop
    (visit : OutlineElement → option OutlineElement → Heap →
             result (option OutlineElement * Heap))
    (item : OutlineElement) :=
  fix loop (cs : JsObj OutlineElement) (topMatch : option OutlineElement) (h : Heap)
      : result (option OutlineElement * Heap) :=
    match cs with
    | [] => Ok (topMatch, h)
    | (_, child) :: cs' =>
        match visit child topMatch h with
        | TypeError => TypeError
        | Ok (topMatch, h) => loop cs' topMatch (keepParent item child h)
        end
    end.

(** What [_updateMatches] on [item] brings about, from any heap and any
    best match so far. *)
Definition updateMatches_post (pattern : string) (visited : list OutlineElement)
    (h h' : Heap) : Prop :=
  (∀ e, e ∈ visited → get_score (elem_ref e) h' = final_score pattern e)
  ∧ (∀ l, l ∉ elem_ref <$> visited → get_score l h' = get_score l h)
  ∧ next h' = next h
  ∧ parents h' = parents h.

Definition updateMatches_spec (pattern : string) (item : OutlineElement) : Prop :=
  ∀ acc h,
    NoDup (elem_ref <$> elem_preorder item) →
    acc_ok acc h (elem_ref <$> elem_preorder item) →
    ∃ h', _updateMatches pattern item (fst <$> acc) h
            = Ok (fst <$> best pattern (elem_preorder item) acc, h')
        ∧ updateMatches_post pattern (elem_preorder item) h h'.

(** ** What building a tree brings about, used to state the properties *)

(** [extends container_ref cs cs' h h']: the children [cs'] are [cs]
    followed by new elements, keyed by their ids, whose objects are the
    addresses allocated between [h] and [h']; they start with the score
    [[0, []]] and the new children have the container as parent; what
    existed in [h] is as it was. *)
Definition extends (container_ref : loc) (cs cs' : JsObj OutlineElement)
    (h h' : Heap) : Prop :=
  ∃ new, cs' = cs ++ new
    ∧ Forall (λ kv, kv.1 = elem_id kv.2) new
    ∧ (NoDup (obj_keys cs) → NoDup (obj_keys cs'))
    ∧ next h ≤ next h'
    ∧ Forall (λ l, next h ≤ l < next h') (elem_ref <$> children_preorder new)
    ∧ NoDup (elem_ref <$> children_preorder new)
    ∧ (∀ l, l < next h → get_score l h' = get_score l h ∧ get_parent l h' = get_parent l h)
    ∧ Forall (λ kv, get_parent (elem_ref kv.2) h' = Some (Obj container_ref)) new
    ∧ Forall (λ e, get_score (elem_ref e) h' = Some (0%Z, [])) (children_preorder new).

(** The elements the model presents: those reached from [children]. *)
Definition child_elements (c : ModelChild) : list OutlineElement :=
  match c with
  | ChildGroup g => children_preorder (group_children g)
  | ChildElement e => elem_preorder e
  end.

Definition presented_elements (m : OutlineModel) : list OutlineElement :=
  obj_values (model_children m) ≫= child_elements.

(** The elements the queries of the model go through: those of
    [_groups]. *)
Definition group_elements (m : OutlineModel) : list OutlineElement :=
  obj_values (_groups m) ≫= (λ g, children_preorder (group_children g)).

(** A provider that contributes no symbol: it fails, or its result is
    absent or empty. *)
Definition no_symbols (outcome : ProviderOutcome) : bool :=
  match outcome with
  | Rejected => true
  | Resolved result => isFalsyOrEmpty result
  end.

(** The id of the group of the provider of the given index in a fetch
    cycle. *)
Definition provider_group_id (index : nat) : string :=
  model_id +:+ ("provider_" +:+ pretty index).

(** ** Refresh while a fetch cycle is in flight

    The promises of a request settle one by one, at any time, also after
    [refresh] has made the next request: the callbacks of the earlier
    request still hold the groups that request created, and they write
    to the [_groups] and [children] the model has when they run.  A
    state of the model with its requests: every call of [_makeRequest]
    so far, the first one first and the current one last, each with the
    groups it created and the indices of the providers whose promise has
    settled; and the next free address at the time the current cycle
    began. *)

Record Request : Type := mkRequest {
  req_groups : list OutlineGroup;
  req_settled : list nat
}.

Record World : Type := mkWorld {
  w_model : OutlineModel;
  w_heap : Heap;
  w_base : loc;
  w_requests : list Request
}.

(** The number of the current cycle; the cycles are numbered from 0. *)
Definition w_cycle (w : World) : nat := pred (length (w_requests w)).

Inductive Event : Type :=
  | Refresh (providers : nat)
  | Settles (cycle index : nat) (outcome : ProviderOutcome).

(** [_makeRequest] on the fresh model, after the requests made before:
    the groups are created; with no provider the join is complete at
    once. *)
Definition startCycle (requests : list Request) (providers : nat) (h : Heap) : World :=
  let (groups, h') := makeGroups fresh_model 0 providers h in
  let (m, h'') := if Nat.eqb providers 0 then joined fresh_model h' else (fresh_model, h') in
  mkWorld m h'' (next h) (requests ++ [mkRequest groups []]).

(** [new OutlineModel(textModel)]. *)
Definition construct (providers : nat) (h : Heap) : World := startCycle [] providers h.

(** Modelled from the spec: the effect of [this.request.cancel()], which
    is in [vs/base/common/winjs.base] and [vs/base/common/async], not
    part of the sources at hand: "a cancelled cycle simply never applies
    its results".  A cycle is cancelled once [refresh] has started a
    later one; from then on the settlement of one of its promises
    applies nothing. *)
Definition cancelled (cycle : nat) (w : World) : bool := cycle <? w_cycle w.

(** The promise of the provider [index] of the request [cycle] settles
    and its callbacks run as [_makeRequest] has them: the group that
    request created for the provider is filled and registered in the
    [_groups] the model has now, and when this was the last promise of
    the request the continuation of its join runs, on the model as it
    is now.  A promise settles once. *)
Definition deliver (cycle index : nat) (outcome : ProviderOutcome) (w : World) : World :=
  match w_requests w !! cycle with
  | Some request =>
      match req_groups request !! index with
      | Some group =>
          if bool_decide (index ∈ req_settled request) then w
          else
            let (m, h) := settle outcome group (w_model w) (w_heap w) in
            let settled := index :: req_settled request in
            let (m', h') :=
              if Nat.eqb (length settled) (length (req_groups request))
              then joined m h else (m, h) in
            mkWorld m' h' (w_base w)
              (<[cycle := mkRequest (req_groups request) settled]> (w_requests w))
      | None => w
      end
  | None => w
  end.

Definition step (w : World) (ev : Event) : World :=
  match ev with
  | Refresh providers =>
      (* this.request.cancel(); this._groups = Object.create(null);
         this.children = Object.create(null); this._makeRequest() *)
      startCycle (w_requests w) providers (w_heap w)
  | Settles cycle index outcome =>
      if cancelled cycle w then w else deliver cycle index outcome w
  end.

Definition run (w : World) (events : list Event) : World := foldl step w events.

(** The settlements of the promises of the requests before the request
    [cycle]. *)
Definition late (cycle : nat) (ev : Event) : bool :=
  match ev with
  | Refresh _ => false
  | Settles c _ _ => c <? cycle
  end.

(** The addresses of the objects recorded in the model: the groups of
    [_groups] and their elements, and what [children] presents. *)
Definition child_refs (c : ModelChild) : list loc :=
  match c with
  | ChildGroup g => group_ref g :: (elem_ref <$> children_preorder (group_children g))
  | ChildElement e => elem_ref <$> elem_preorder e
  end.

Definition recorded (m : OutlineModel) : list loc :=
  (group_ref <$> obj_values (_groups m))
  ++ (elem_ref <$> group_elements m)
  ++ (obj_values (model_children m) ≫= child_refs).

(** What holds in every state: the objects recorded in the model and the
    groups of the current cycle were allocated after the cycle began. *)
Definition current_only (w : World) : Prop :=
  w_base w ≤ next (w_heap w)
  ∧ (∃ request, w_requests w !! w_cycle w = Some request
       ∧ Forall (λ g, w_base w ≤ group_ref g ∧ group_children g = [])
           (req_groups request))
  ∧ Forall (λ l, w_base w ≤ l) (recorded (w_model w)).

(** The events of a cycle that is not interrupted: the promises of the
    first cycle settle in the given order. *)
Definition settlements (outcomes : list ProviderOutcome) (order : list nat) : list Event :=
  omap (λ index, Settles 0 index <$> outcomes !! index) order.

(** ** The symbols of a provider, used to state the properties *)

(** The symbols below [info], [info] first, every child's symbols before
    the next child: the order in which [_makeOutlineElement] visits
    them. *)
Fixpoint info_preorder (info : SymbolInformation) : list SymbolInformation :=
  match info with
  | mkSymbolInformation _ _ _ children =>
      info :: match children with
              | None => []
              | Some infos =>
                  (fix loop (infos : list SymbolInformation) : list SymbolInformation :=
                     match infos with
                     | [] => []
                     | childInfo :: infos' => info_preorder childInfo ++ loop infos'
                     end) infos
              end
  end.

Fixpoint infos_preorder (infos : list SymbolInformation) : list SymbolInformation :=
  match infos with
  | [] => []
  | info :: infos' => info_preorder info ++ infos_preorder infos'
  end.

(** ** The shape of a built tree, used to state the properties *)

(** The children [cs] of a container of id [pid] are keyed by their ids,
    the keys are distinct, and every id continues the id of the
    container. *)
Definition keyed (pid : string) (cs : JsObj OutlineElement) : Prop :=
  NoDup (obj_keys cs)
  ∧ Forall (λ kv, kv.1 = elem_id kv.2 ∧ ∃ suffix, elem_id kv.2 = pid +:+ suffix) cs.

(** The [parent] field of every child in [cs] is the object at [pref]. *)
Definition linked (h : Heap) (pref : loc) (cs : JsObj OutlineElement) : Prop :=
  Forall (λ kv, get_parent (elem_ref kv.2) h = Some (Obj pref)) cs.

Definition nested_ok (h : Heap) (elems : list OutlineElement) : Prop :=
  Forall (λ e, keyed (elem_id e) (elem_children e)
               ∧ linked h (elem_ref e) (elem_children e)) elems.

(** A group as the callbacks of [_makeRequest] leave it. *)
Definition built_group (g : OutlineGroup) (h : Heap) : Prop :=
  group_ref g < next h
  ∧ get_parent (group_ref g) h = Some TheModel
  ∧ Forall (λ e, group_ref g < elem_ref e < next h) (children_preorder (group_children g))
  ∧ NoDup (elem_ref <$> children_preorder (group_children g))
  ∧ keyed (group_id g) (group_children g)
  ∧ linked h (group_ref g) (group_children g)
  ∧ nested_ok h (children_preorder (group_children g))
  ∧ Forall (λ e, get_score (elem_ref e) h = Some (0%Z, []))
      (children_preorder (group_children g)).

(** A model whose groups are built and whose elements are distinct
    objects. *)
Definition built_model (m : OutlineModel) (h : Heap) : Prop :=
  Forall (λ g, built_group g h) (obj_values (_groups m))
  ∧ NoDup (elem_ref <$> group_elements m).

(** ** The way down to an enclosing element, used to state the properties *)

(** [path] leads down from the children [cs]: its first element is the
    first child in [cs] whose range contains the position, every next
    element is the first such child of the element before it, and the
    last element has no such child. *)
Fixpoint descent (position : Position) (cs : JsObj OutlineElement)
    (path : list OutlineElement) : Prop :=
  match path with
  | [] => Forall (λ c, encloses position c = false) (obj_values cs)
  | e :: path' =>
      (∃ before key after, cs = before ++ (key, e) :: after
         ∧ Forall (λ c, encloses position c = false) (obj_values before))
      ∧ encloses position e = true
      ∧ descent position (elem_children e) path'
  end.

(** * Properties *)

(** ** Dictionaries *)

Section JsObj.
Context {A : Type}.
Implicit Types (obj : JsObj A) (key : string) (value : A).

Lemma obj_get_None key obj : obj_get key obj = None ↔ key ∉ obj_keys obj.
Proof.
  unfold obj_keys. induction obj as [|[k v] obj IH]; simpl.
  - split; [intros _; apply not_elem_of_nil | done].
  - destruct (String.eqb_spec k key) as [->|Hne].
    + split; [done | intros Hn; destruct Hn; left].
    + rewrite IH, not_elem_of_cons. split; [by split | by intros [_ ?]].
Qed.

Lemma obj_get_Some_elem key value obj :
  obj_get key obj = Some value → (key, value) ∈ obj.
Proof.
  induction obj as [|[k v] obj IH]; simpl; [done|].
  destruct (String.eqb_spec k key) as [->|Hne].
  - intros [= ->]. left.
  - intros ?. right. auto.
Qed.

Lemma obj_get_is_Some key obj : is_Some (obj_get key obj) ↔ key ∈ obj_keys obj.
Proof.
  rewrite <-not_eq_None_Some, obj_get_None.
  split; [apply dec_stable | auto].
Qed.

Lemma obj_set_fresh key value obj :
  obj_get key obj = None → obj_set key value obj = obj ++ [(key, value)].
Proof.
  induction obj as [|[k v] obj IH]; simpl; [done|].
  destruct (String.eqb k key); [done|]. intros ?. f_equal. auto.
Qed.

Lemma obj_get_set_eq key value obj : obj_get key (obj_set key value obj) = Some value.
Proof.
  induction obj as [|[k v] obj IH]; simpl.
  - by rewrite String.eqb_refl.
  - destruct (String.eqb k key) eqn:E; simpl.
    + by rewrite String.eqb_refl.
    + by rewrite E.
Qed.

Lemma obj_get_set_ne key key' value obj :
  key ≠ key' → obj_get key' (obj_set key value obj) = obj_get key' obj.
Proof.
  intros Hne. induction obj as [|[k v] obj IH]; simpl.
  - by apply String.eqb_neq in Hne as ->.
  - destruct (String.eqb_spec k key) as [->|Hk]; simpl.
    + by apply String.eqb_neq in Hne as ->.
    + by rewrite IH.
Qed.

Lemma obj_set_values key value (v : A) obj :
  v ∈ obj_values (obj_set key value obj) → v = value ∨ v ∈ obj_values obj.
Proof.
  unfold obj_values. induction obj as [|[k x] obj IH]; simpl.
  - intros ->%list_elem_of_singleton. by left.
  - destruct (String.eqb k key); simpl.
    + intros [->|?]%elem_of_cons; [by left | right; by right].
    + intros [->|Hv]%elem_of_cons; [right; left|].
      destruct (IH Hv) as [?|?]; [by left | right; by right].
Qed.

Lemma obj_keys_app obj1 obj2 : obj_keys (obj1 ++ obj2) = obj_keys obj1 ++ obj_keys obj2.
Proof. unfold obj_keys. apply fmap_app. Qed.

Lemma obj_keys_length obj : length (obj_keys obj) = length obj.
Proof. unfold obj_keys. apply length_fmap. Qed.

End JsObj.

(** ** Identifiers *)

Lemma string_app_assoc (s1 s2 s3 : string) : (s1 +:+ s2) +:+ s3 = s1 +:+ (s2 +:+ s3).
Proof.
  induction s1 as [|a s1 IH]; [done|].
  change (String a ((s1 +:+ s2) +:+ s3) = String a (s1 +:+ (s2 +:+ s3))).
  by rewrite IH.
Qed.

Lemma string_app_nil_r (s : string) : s +:+ "" = s.
Proof.
  induction s as [|a s IH]; [done|].
  change (String a (s +:+ "") = String a s). by rewrite IH.
Qed.

Lemma pretty_N_go_nonempty (x : N) (s : string) : s ≠ "" → pretty_N_go x s ≠ "".
Proof.
  revert s. induction (N.lt_wf_0 x) as [x _ IH]; intros s Hs.
  destruct (decide (x = 0)%N) as [->|Hx].
  - by rewrite pretty_N_go_0.
  - rewrite pretty_N_go_step by lia. apply IH; [|done].
    apply N.div_lt; lia.
Qed.

Lemma pretty_nat_nonempty (i : nat) : pretty i ≠ "".
Proof.
  unfold pretty, pretty_nat, pretty, pretty_N.
  case_decide; [done|].
  rewrite pretty_N_go_step by lia. by apply pretty_N_go_nonempty.
Qed.

Global Instance candidateId_inj prefix : Inj (=) (=) (candidateId prefix).
Proof.
  intros [|j] [|j'] H; simpl in H.
  - done.
  - rewrite <-(string_app_nil_r prefix) in H at 1.
    apply (inj _) in H. by destruct (pretty_nat_nonempty (S j')).
  - rewrite <-(string_app_nil_r prefix) in H at 2.
    apply (inj _) in H. by destruct (pretty_nat_nonempty (S j)).
  - by apply (inj _), (inj pretty) in H.
Qed.

(** At most [length children] of the candidates can be taken. *)
Lemma candidates_taken_bound {A : Type} (prefix : string) (children : JsObj A) (j : nat) :
  (∀ j', j' < j → obj_get (candidateId prefix j') children ≠ None) →
  j ≤ length children.
Proof.
  intros Htaken.
  rewrite <-(obj_keys_length children).
  replace j with (length (candidateId prefix <$> seq 0 j)) at 1
    by (by rewrite length_fmap, length_seq).
  apply submseteq_length, NoDup_submseteq.
  - apply NoDup_fmap_2; [apply _ | apply NoDup_seq].
  - intros x (j' & -> & Hj')%list_elem_of_fmap.
    apply elem_of_seq in Hj'.
    apply obj_get_is_Some, not_eq_None_Some, Htaken. lia.
Qed.

(** The loop stops at the first candidate that is not taken, and the
    fuel [findId] gives it is never used up. *)
Lemma findId_loop_fresh {A : Type} (prefix : string) (children : JsObj A) (fuel j : nat) :
  (∀ j', j' < j → obj_get (candidateId prefix j') children ≠ None) →
  length children ≤ j + fuel →
  ∃ k, j ≤ k
    ∧ findId_loop fuel prefix children (S j) (candidateId prefix j) = candidateId prefix k
    ∧ obj_get (candidateId prefix k) children = None
    ∧ ∀ j', j' < k → obj_get (candidateId prefix j') children ≠ None.
Proof.
  revert j. induction fuel as [|fuel IH]; intros j Htaken Hfuel; simpl.
  - destruct (obj_get (candidateId prefix j) children) eqn:Hj; [|by exists j].
    assert (S j ≤ length children); [|lia].
    apply (candidates_taken_bound prefix). intros j' Hj'.
    destruct (decide (j' = j)) as [->|]; [congruence | apply Htaken; lia].
  - destruct (obj_get (candidateId prefix j) children) eqn:Hj; [|by exists j].
    destruct (IH (S j)) as (k & ? & ? & ? & ?); [| lia |].
    + intros j' Hj'.
      destruct (decide (j' = j)) as [->|]; [congruence | apply Htaken; lia].
    + exists k. split_and!; [lia | done..].
Qed.

Lemma findId_candidate {A : Type} (candidate container_id : string) (children : JsObj A) :
  ∃ k, findId candidate container_id children = candidateId (container_id +:+ candidate) k
    ∧ obj_get (candidateId (container_id +:+ candidate) k) children = None
    ∧ ∀ j, j < k → obj_get (candidateId (container_id +:+ candidate) j) children ≠ None.
Proof.
  destruct (findId_loop_fresh (container_id +:+ candidate) children (length children) 0)
    as (k & _ & ? & ? & ?); [lia | lia | by exists k].
Qed.

Lemma findId_fresh {A : Type} (candidate container_id : string) (children : JsObj A) :
  obj_get (findId candidate container_id children) children = None.
Proof. destruct (findId_candidate candidate container_id children) as (k & -> & ? & _); done. Qed.

(** Every id starts with the id of its container, hence with [root]. *)
Lemma findId_prefix {A : Type} (candidate container_id : string) (children : JsObj A) :
  ∃ suffix, findId candidate container_id children = container_id +:+ suffix.
Proof.
  destruct (findId_candidate candidate container_id children) as ([|k] & -> & _); simpl.
  - by eexists.
  - rewrite string_app_assoc. by eexists.
Qed.

(** C5. [findId(s, C)] returns an id that is not a key of [C.children]:
    it is [C.id + s] when that key is free, and otherwise [C.id + s + i]
    for the least [i >= 1] whose key is free.  Once the returned id has
    been inserted into [C.children], a second call returns another id. *)
Theorem findId_unique {A : Type} (s : string) (C_id : string) (C_children : JsObj A) :
  let id := findId s C_id C_children in
  obj_get id C_children = None
  ∧ (obj_get (C_id +:+ s) C_children = None → id = C_id +:+ s)
  ∧ (obj_get (C_id +:+ s) C_children ≠ None →
       ∃ i, 1 ≤ i ∧ id = (C_id +:+ s) +:+ pretty i
         ∧ ∀ j, 1 ≤ j < i → obj_get ((C_id +:+ s) +:+ pretty j) C_children ≠ None)
  ∧ (∀ node : A, findId s C_id (obj_set id node C_children) ≠ id).
Proof.
  intros id. subst id.
  destruct (findId_candidate s C_id C_children) as (k & Hid & Hfree & Htaken).
  split_and!.
  - apply findId_fresh.
  - intros H0. destruct k as [|k]; [by rewrite Hid|].
    by destruct (Htaken 0); [lia|].
  - intros H0. destruct k as [|k]; [done|].
    exists (S k). split_and!; [lia | by rewrite Hid |].
    intros [|j] ?; [lia|]. apply (Htaken (S j)). lia.
  - intros node Heq.
    pose proof (findId_fresh s C_id (obj_set (findId s C_id C_children) node C_children)) as Hnew.
    rewrite Heq, obj_get_set_eq in Hnew. done.
Qed.

(** ** Induction on elements *)

Lemma OutlineElement_ind (P : OutlineElement → Prop) :
  (∀ l id symbol children,
      Forall (λ kv, P kv.2) children → P (mkOutlineElement l id symbol children)) →
  ∀ e, P e.
Proof.
  intros Hstep. fix IH 1. intros [l id symbol children]. apply Hstep.
  induction children as [|[k c] cs IHcs]; constructor; [apply IH | apply IHcs].
Qed.

Lemma elem_preorder_unfold (e : OutlineElement) :
  elem_preorder e = e :: children_preorder (elem_children e).
Proof.
  by destruct e.
Qed.

Lemma children_preorder_app (cs1 cs2 : JsObj OutlineElement) :
  children_preorder (cs1 ++ cs2) = children_preorder cs1 ++ children_preorder cs2.
Proof.
  induction cs1 as [|[k c] cs1 IH]; simpl; [done|]. by rewrite IH, (assoc (++)).
Qed.

Lemma children_preorder_singleton (key : string) (e : OutlineElement) :
  children_preorder [(key, e)] = e :: children_preorder (elem_children e).
Proof. simpl. rewrite app_nil_r. apply elem_preorder_unfold. Qed.

Lemma elem_of_preorder_self (e : OutlineElement) : e ∈ elem_preorder e.
Proof. rewrite elem_preorder_unfold. left. Qed.

Lemma elem_of_children_preorder (x : OutlineElement) (children : JsObj OutlineElement) :
  x ∈ children_preorder children ↔
  ∃ key child, (key, child) ∈ children ∧ x ∈ elem_preorder child.
Proof.
  induction children as [|[k c] cs IH]; simpl.
  - split; [by intros ?%elem_of_nil | by intros (? & ? & ?%elem_of_nil & _)].
  - rewrite elem_of_app, IH. split.
    + intros [?|(k' & c' & ? & ?)]; [exists k, c | exists k', c'];
        (split; [|done]); [left | by right].
    + intros (k' & c' & [[= -> ->]|?]%elem_of_cons & ?); [by left|].
      right. by exists k', c'.
Qed.

(** ** Lookup by id *)

Lemma find_app {A : Type} (f : A → bool) (l1 l2 : list A) :
  List.find f (l1 ++ l2) =
  match List.find f l1 with Some x => Some x | None => List.find f l2 end.
Proof. induction l1 as [|x l1 IH]; simpl; [done|]. by destruct (f x). Qed.

Lemma find_fmap {A B : Type} (f : B → bool) (g : A → B) (l : list A) :
  List.find f (g <$> l) = g <$> List.find (f ∘ g) l.
Proof. induction l as [|x l IH]; simpl; [done|]. by destruct (f (g x)). Qed.

Lemma find_Some_first {A : Type} (f : A → bool) (l : list A) (x : A) :
  List.find f l = Some x ↔
  ∃ l1 l2, l = l1 ++ x :: l2 ∧ f x = true ∧ Forall (λ y, f y = false) l1.
Proof.
  induction l as [|y l IH]; simpl.
  - split; [done | intros ([|??] & ? & ? & _); done].
  - destruct (f y) eqn:Hy.
    + split.
      * intros [= ->]. by exists [], l.
      * intros ([|z l1] & l2 & [= ? ?] & ? & Hall); simplify_eq/=; [done|].
        apply Forall_cons in Hall as [? _]. congruence.
    + rewrite IH. split.
      * intros (l1 & l2 & -> & ? & ?). exists (y :: l1), l2. by repeat constructor.
      * intros ([|z l1] & l2 & [= ? ?] & ? & Hall); simplify_eq/=; [congruence|].
        apply Forall_cons in Hall as [_ ?]. by exists l1, l2.
Qed.

Lemma find_None_all {A : Type} (f : A → bool) (l : list A) :
  List.find f l = None ↔ Forall (λ y, f y = false) l.
Proof.
  induction l as [|y l IH]; simpl; [by split; [constructor|]|].
  rewrite Forall_cons. destruct (f y); [|rewrite IH].
  - split; [done | by intros [? _]].
  - split; [done | by intros [_ ?]].
Qed.

Lemma getElementById_element_preorder (id : string) (e : OutlineElement) :
  getElementById_element id e =
  List.find (λ x, String.eqb (elem_id x) id) (elem_preorder e).
Proof.
  induction e as [l eid symbol children IH] using OutlineElement_ind.
  rewrite elem_preorder_unfold. simpl.
  destruct (String.eqb eid id); [done|].
  induction children as [|[k c] cs IHcs]; simpl; [done|].
  apply Forall_cons in IH as [Hc Hcs]. simpl in Hc.
  rewrite find_app, <-Hc. destruct (getElementById_element id c); [done|].
  by apply IHcs.
Qed.

Lemma getElementById_in_elements (id : string) (children : JsObj OutlineElement) :
  getElementById_in (λ e, IsElement <$> getElementById_element id e) children =
  List.find (λ n, String.eqb (tree_id n) id) (IsElement <$> children_preorder children).
Proof.
  induction children as [|[k c] cs IH]; simpl; [done|].
  rewrite fmap_app, find_app, find_fmap, <-IH.
  rewrite getElementById_element_preorder.
  by destruct (List.find _ (elem_preorder c)).
Qed.

Lemma getElementById_group_preorder (id : string) (g : OutlineGroup) :
  getElementById_group id g =
  List.find (λ n, String.eqb (tree_id n) id) (group_preorder g).
Proof.
  unfold getElementById_group, group_preorder. simpl.
  destruct (String.eqb (group_id g) id); [done|].
  apply getElementById_in_elements.
Qed.

Lemma getElementById_child_preorder (id : string) (c : ModelChild) :
  getElementById_child id c =
  List.find (λ n, String.eqb (tree_id n) id) (child_preorder c).
Proof.
  destruct c as [g|e]; simpl.
  - apply getElementById_group_preorder.
  - by rewrite find_fmap, getElementById_element_preorder.
Qed.

Lemma getElementById_preorder (id : string) (t : TreeElement) :
  getElementById id t = List.find (λ n, String.eqb (tree_id n) id) (preorder t).
Proof.
  destruct t as [m|g|e]; unfold getElementById, preorder.
  - cbn [List.find tree_id]. destruct (String.eqb model_id id); [done|].
    unfold obj_values.
    induction (model_children m) as [|[k c] cs IH]; cbn -[String.eqb]; [done|].
    rewrite find_app, <-getElementById_child_preorder.
    by destruct (getElementById_child id c).
  - apply getElementById_group_preorder.
  - by rewrite find_fmap, getElementById_element_preorder.
Qed.

Lemma preorder_head (t : TreeElement) : head (preorder t) = Some t.
Proof.
  destruct t as [m|g|e]; simpl; [done..|].
  by rewrite elem_preorder_unfold.
Qed.

Lemma insert_child_preorder (node : OutlineElement) (container : TreeElement) :
  IsElement node ∈ preorder (insert_child node container).
Proof.
  assert (∀ cs, node ∈ children_preorder (obj_set (elem_id node) node cs)) as Hcs.
  { intros cs. apply elem_of_children_preorder. exists (elem_id node), node.
    split; [|apply elem_of_preorder_self].
    apply obj_get_Some_elem, obj_get_set_eq. }
  destruct container as [m|g|e]; unfold insert_child, preorder.
  - right. apply list_elem_of_bind. exists (ChildElement node). split.
    + simpl. apply list_elem_of_fmap_2, elem_of_preorder_self.
    + unfold obj_values. apply list_elem_of_fmap. exists (elem_id node, ChildElement node).
      split; [done|]. apply obj_get_Some_elem, obj_get_set_eq.
  - unfold group_preorder. right. apply list_elem_of_fmap_2, Hcs.
  - rewrite elem_preorder_unfold. apply list_elem_of_fmap_2. right. apply Hcs.
Qed.

(** C9 (amended). [getElementById(id, e)] is a depth-first search in
    pre-order with [e] itself first: it returns the first node in that
    order whose [id] equals the one asked for, and nothing when no node
    has it.  After a node has been inserted under its id, the search for
    that id returns a node with that id; it returns the inserted node
    when no other node of the tree has the same id. *)
Theorem getElementById_first_in_preorder (id : string) (e : TreeElement) :
  head (preorder e) = Some e
  ∧ getElementById id e = List.find (λ n, String.eqb (tree_id n) id) (preorder e)
  ∧ (∀ r, getElementById id e = Some r ↔
       ∃ before after, preorder e = before ++ r :: after ∧ tree_id r = id
         ∧ Forall (λ n, tree_id n ≠ id) before)
  ∧ (getElementById id e = None ↔ Forall (λ n, tree_id n ≠ id) (preorder e))
  ∧ (∀ node : OutlineElement,
       (∃ r, getElementById (elem_id node) (insert_child node e) = Some r
          ∧ tree_id r = elem_id node)
       ∧ ((∀ n, n ∈ preorder (insert_child node e) →
             tree_id n = elem_id node → n = IsElement node) →
          getElementById (elem_id node) (insert_child node e) = Some (IsElement node))).
Proof.
  assert (∀ l : list TreeElement,
    Forall (λ n, String.eqb (tree_id n) id = false) l ↔ Forall (λ n, tree_id n ≠ id) l) as Hne.
  { intros l. apply Forall_iff. intros n. apply String.eqb_neq. }
  split_and!.
  - apply preorder_head.
  - apply getElementById_preorder.
  - intros r. rewrite getElementById_preorder, find_Some_first.
    setoid_rewrite String.eqb_eq. by setoid_rewrite Hne.
  - by rewrite getElementById_preorder, find_None_all, Hne.
  - intros node. rewrite getElementById_preorder.
    destruct (List.find _ _) as [r|] eqn:Hfind.
    + apply find_Some_first in Hfind as (l1 & l2 & Hsplit & Hr%String.eqb_eq & _).
      split; [by exists r|]. intros Honly. f_equal. apply Honly; [|done].
      rewrite Hsplit. apply elem_of_app. right. left.
    + rewrite find_None_all, Forall_forall in Hfind.
      specialize (Hfind _ (insert_child_preorder node e)). simpl in Hfind.
      by rewrite String.eqb_refl in Hfind.
Qed.

Lemma elem_preorder_trans (x y z : OutlineElement) :
  x ∈ elem_preorder y → y ∈ elem_preorder z → x ∈ elem_preorder z.
Proof.
  intros Hx. induction z as [l id symbol children IH] using OutlineElement_ind.
  rewrite !(elem_preorder_unfold (mkOutlineElement _ _ _ _)); simpl.
  intros [->|Hy]%elem_of_cons.
  { by rewrite elem_preorder_unfold in Hx. }
  right. apply elem_of_children_preorder in Hy as (k & c & Hc & Hy).
  apply elem_of_children_preorder. exists k, c. split; [done|].
  rewrite Forall_forall in IH. by apply (IH _ Hc).
Qed.

Lemma elem_of_descendants (x e : OutlineElement) :
  x ∈ descendants e ↔ ∃ child, child ∈ obj_values (elem_children e) ∧ x ∈ elem_preorder child.
Proof.
  unfold descendants. rewrite elem_of_children_preorder. unfold obj_values. split.
  - intros (k & c & ? & ?). exists c. split; [|done].
    apply list_elem_of_fmap. by exists (k, c).
  - intros (c & ([k c'] & -> & ?)%list_elem_of_fmap & ?). by exists k, c'.
Qed.

Lemma descendants_preorder (x e : OutlineElement) : x ∈ descendants e → x ∈ elem_preorder e.
Proof. rewrite elem_preorder_unfold. by right. Qed.

(** ** Position lookup *)

Lemma enclosing_visit_unfold (position : Position) (item : OutlineElement) :
  enclosing_visit position item =
  if negb (encloses position item) then None
  else Some (default item (_getItemEnclosingPosition position (elem_children item))).
Proof.
  destruct item as [l id symbol children]. unfold encloses. simpl.
  destruct (containsPosition _ position); simpl; [|done]. do 2 f_equal.
  induction children as [|[k c] cs IH]; simpl; [done|]. by rewrite IH.
Qed.

(** The loop of [_getItemEnclosingPosition], turn by turn: an item whose
    range does not contain the position is skipped; the first one whose
    range contains it ends the loop with
    [this._getItemEnclosingPosition(position, item.children) || item]. *)
Lemma _getItemEnclosingPosition_cons (position : Position) (key : string)
    (item : OutlineElement) (children : JsObj OutlineElement) :
  _getItemEnclosingPosition position ((key, item) :: children) =
  if negb (encloses position item)
  then _getItemEnclosingPosition position children
  else Some (default item (_getItemEnclosingPosition position (elem_children item))).
Proof.
  simpl. rewrite enclosing_visit_unfold. by destruct (encloses position item).
Qed.

Lemma _getItemEnclosingPosition_None (position : Position) (children : JsObj OutlineElement) :
  _getItemEnclosingPosition position children = None ↔
  Forall (λ c, encloses position c = false) (obj_values children).
Proof.
  unfold obj_values. induction children as [|[k c] cs IH].
  - split; [constructor | done].
  - rewrite _getItemEnclosingPosition_cons, fmap_cons, Forall_cons. simpl.
    destruct (encloses position c); simpl.
    + split; [done | by intros [? _]].
    + rewrite IH. split; [done | by intros [_ ?]].
Qed.

Lemma _getItemEnclosingPosition_first (position : Position)
    (before after : JsObj OutlineElement) (key : string) (item : OutlineElement) :
  Forall (λ c, encloses position c = false) (obj_values before) →
  encloses position item = true →
  _getItemEnclosingPosition position (before ++ (key, item) :: after) =
  Some (default item (_getItemEnclosingPosition position (elem_children item))).
Proof.
  intros Hbefore Hitem. induction before as [|[k c] before IH].
  - by rewrite app_nil_l, _getItemEnclosingPosition_cons, Hitem.
  - unfold obj_values in Hbefore. rewrite fmap_cons, Forall_cons in Hbefore.
    destruct Hbefore as [Hc ?]. simpl in Hc.
    rewrite <-app_comm_cons, _getItemEnclosingPosition_cons, Hc. by apply IH.
Qed.

(** What is returned encloses the position, has no child that encloses
    it, and is an element of the tree. *)
Lemma enclosing_visit_Some (position : Position) (item r : OutlineElement) :
  enclosing_visit position item = Some r →
  r ∈ elem_preorder item
  ∧ encloses position r = true
  ∧ Forall (λ c, encloses position c = false) (obj_values (elem_children r)).
Proof.
  revert r. induction item as [l id symbol children IH] using OutlineElement_ind.
  intros r. rewrite enclosing_visit_unfold, elem_preorder_unfold.
  destruct (encloses position _) eqn:Henc; [|done]. simpl.
  destruct (_getItemEnclosingPosition position children) as [r'|] eqn:Hin; simpl.
  - intros [= <-]. rewrite elem_of_cons.
    cut (r' ∈ children_preorder children
      ∧ encloses position r' = true
      ∧ Forall (λ c, encloses position c = false) (obj_values (elem_children r'))).
    { intros (? & ? & ?). by split_and!; [right|..]. }
    clear Henc. revert Hin. induction children as [|[k c] cs IHcs]; simpl; [done|].
    apply Forall_cons in IH as [Hc Hcs]. simpl in Hc.
    destruct (enclosing_visit position c) as [rc|] eqn:Hvisit.
    + intros [= ->]. destruct (Hc _ eq_refl) as (? & ? & ?).
      split_and!; [|done..]. apply elem_of_app. by left.
    + intros (? & ? & ?)%(IHcs Hcs). split_and!; [|done..]. apply elem_of_app. by right.
  - intros [= <-]. split_and!; [left | done |].
    by apply _getItemEnclosingPosition_None.
Qed.

Lemma _getItemEnclosingPosition_Some (position : Position)
    (children : JsObj OutlineElement) (r : OutlineElement) :
  _getItemEnclosingPosition position children = Some r →
  r ∈ children_preorder children
  ∧ encloses position r = true
  ∧ Forall (λ c, encloses position c = false) (obj_values (elem_children r)).
Proof.
  induction children as [|[k c] cs IH]; simpl; [done|].
  destruct (enclosing_visit position c) as [rc|] eqn:Hvisit.
  - intros [= ->]. apply enclosing_visit_Some in Hvisit as (? & ? & ?).
    split_and!; [|done..]. apply elem_of_app. by left.
  - intros (? & ? & ?)%IH. split_and!; [|done..]. apply elem_of_app. by right.
Qed.

(** Where ranges are nested, an element that does not enclose the
    position has nothing below it that does. *)
Lemma nested_nothing_below (position : Position) (children : JsObj OutlineElement)
    (e : OutlineElement) :
  nested_ranges position children →
  e ∈ children_preorder children →
  Forall (λ c, encloses position c = false) (obj_values (elem_children e)) →
  Forall (λ d, encloses position d = false) (descendants e).
Proof.
  intros Hnested He Hchildren.
  assert (∀ x, x ∈ elem_preorder e → x ∈ children_preorder children) as Hsub.
  { intros x Hx. apply elem_of_children_preorder in He as (k & c & ? & ?).
    apply elem_of_children_preorder. exists k, c. split; [done|].
    by apply (elem_preorder_trans x e). }
  assert (∀ c, c ∈ elem_preorder e → encloses position c = false →
          Forall (λ d, encloses position d = false) (elem_preorder c)) as Hdown.
  { intros c. induction c as [l id symbol cs IH] using OutlineElement_ind.
    intros Hc Henc. rewrite elem_preorder_unfold. constructor; [done|]. simpl.
    apply Forall_forall. intros d (k' & c' & Hc' & Hd)%elem_of_children_preorder.
    rewrite Forall_forall in IH. specialize (IH _ Hc'). simpl in IH.
    assert (c' ∈ elem_preorder e) as Hc'e.
    { apply (elem_preorder_trans _ (mkOutlineElement l id symbol cs)); [|done].
      apply descendants_preorder, elem_of_descendants. exists c'.
      split; [|apply elem_of_preorder_self].
      unfold obj_values. apply list_elem_of_fmap. by exists (k', c'). }
    assert (encloses position c' = false) as Hc'enc.
    { destruct (encloses position c') eqn:E; [|done].
      rewrite <-Henc. symmetry.
      apply (Hnested _ c'); [by apply Hsub | | done].
      unfold obj_values. apply list_elem_of_fmap. by exists (k', c'). }
    specialize (IH Hc'e Hc'enc). rewrite Forall_forall in IH. by apply IH. }
  apply Forall_forall. intros d (c & Hc & Hd)%elem_of_descendants.
  rewrite Forall_forall in Hchildren.
  assert (c ∈ elem_preorder e) as Hce.
  { apply descendants_preorder, elem_of_descendants. exists c.
    split; [done | apply elem_of_preorder_self]. }
  specialize (Hdown c Hce (Hchildren _ Hc)). rewrite Forall_forall in Hdown. by apply Hdown.
Qed.

(** C4 (amended). A group's [getItemEnclosingPosition(p)] scans the
    children in map order, skips the children whose range (the defining
    range, or the location range when there is none) does not contain
    [p], and at the first child that contains [p] returns what the same
    scan of that child's children returns, or the child itself when that
    scan returns nothing; no other branch is explored.  What is returned
    contains [p] and has no child that contains [p]; nothing is returned
    exactly when no top-level child contains [p].  Where ranges are
    nested, no descendant of what is returned contains [p].  For an
    outer element that is the first top-level child of the group
    containing [p] and an inner element that is the first child of the
    outer one containing [p], the inner one is returned when none of its
    children contains [p]. *)
Theorem group_getItemEnclosingPosition_chain (p : Position) (g : OutlineGroup) :
  (∀ before key item after,
      group_children g = before ++ (key, item) :: after →
      Forall (λ c, encloses p c = false) (obj_values before) →
      encloses p item = true →
      group_getItemEnclosingPosition p g =
      Some (default item (_getItemEnclosingPosition p (elem_children item))))
  ∧ (∀ r, group_getItemEnclosingPosition p g = Some r →
      r ∈ children_preorder (group_children g)
      ∧ encloses p r = true
      ∧ Forall (λ c, encloses p c = false) (obj_values (elem_children r)))
  ∧ (group_getItemEnclosingPosition p g = None ↔
      Forall (λ c, encloses p c = false) (obj_values (group_children g)))
  ∧ (nested_ranges p (group_children g) →
      ∀ r, group_getItemEnclosingPosition p g = Some r →
      Forall (λ d, encloses p d = false) (descendants r))
  ∧ (∀ before key outer after before' key' inner after',
      group_children g = before ++ (key, outer) :: after →
      Forall (λ c, encloses p c = false) (obj_values before) →
      encloses p outer = true →
      elem_children outer = before' ++ (key', inner) :: after' →
      Forall (λ c, encloses p c = false) (obj_values before') →
      encloses p inner = true →
      Forall (λ c, encloses p c = false) (obj_values (elem_children inner)) →
      group_getItemEnclosingPosition p g = Some inner).
Proof.
  unfold group_getItemEnclosingPosition. split_and!.
  - intros before key item after -> ??. by apply _getItemEnclosingPosition_first.
  - apply _getItemEnclosingPosition_Some.
  - apply _getItemEnclosingPosition_None.
  - intros Hnested r Hr. apply _getItemEnclosingPosition_Some in Hr as (? & ? & ?).
    by apply (nested_nothing_below p (group_children g)).
  - intros before key outer after before' key' inner after' -> ?? Houter ?? Hinner.
    rewrite _getItemEnclosingPosition_first, Houter by done.
    rewrite _getItemEnclosingPosition_first by done.
    apply _getItemEnclosingPosition_None in Hinner. by rewrite Hinner.
Qed.

(** C8. The model's [getItemEnclosingPosition(p)] asks the groups in
    iteration order and returns the first result that is not none,
    whatever the later groups would return; it returns none only when
    every group does. *)
Theorem getItemEnclosingPosition_first_group (p : Position) (m : OutlineModel) :
  getItemEnclosingPosition p m =
    head (omap (group_getItemEnclosingPosition p) (obj_values (_groups m)))
  ∧ (∀ before key g after r,
      _groups m = before ++ (key, g) :: after →
      Forall (λ g', group_getItemEnclosingPosition p g' = None) (obj_values before) →
      group_getItemEnclosingPosition p g = Some r →
      getItemEnclosingPosition p m = Some r)
  ∧ (getItemEnclosingPosition p m = None ↔
      Forall (λ g, group_getItemEnclosingPosition p g = None) (obj_values (_groups m))).
Proof.
  unfold getItemEnclosingPosition, obj_values.
  assert (∀ gs, getItemEnclosingPosition_groups p gs =
    head (omap (group_getItemEnclosingPosition p) gs.*2)) as Hhead.
  { induction gs as [|[k g] gs IH]; simpl; [done|].
    by destruct (group_getItemEnclosingPosition p g). }
  split_and!.
  - apply Hhead.
  - intros before key g after r -> Hbefore Hg.
    induction before as [|[k g'] before IH]; simpl.
    + by rewrite Hg.
    + rewrite fmap_cons, Forall_cons in Hbefore. destruct Hbefore as [Hg' ?].
      simpl in Hg'. rewrite Hg'. by apply IH.
  - induction (_groups m) as [|[k g] gs IH]; simpl.
    + split; [constructor | done].
    + rewrite Forall_cons. destruct (group_getItemEnclosingPosition p g); simpl.
      * split; [done | by intros [? _]].
      * rewrite IH. split; [done | by intros [_ ?]].
Qed.

(** ** The heap *)

Lemma get_score_set_eq (l : loc) (s : option FuzzyScore) (h : Heap) :
  get_score l (set_score l s h) = s.
Proof. unfold get_score, set_score; simpl. by rewrite lookup_partial_alter_eq. Qed.

Lemma get_score_set_ne (l l' : loc) (s : option FuzzyScore) (h : Heap) :
  l ≠ l' → get_score l' (set_score l s h) = get_score l' h.
Proof. intros. unfold get_score, set_score; simpl. by rewrite lookup_partial_alter_ne. Qed.

(** ** The best match of a list of elements *)

Lemma best_app (pattern : string) (l1 l2 : list OutlineElement) acc :
  best pattern (l1 ++ l2) acc = best pattern l2 (best pattern l1 acc).
Proof. apply fold_left_app. Qed.

Lemma existsb_matches (pattern : string) (l : list OutlineElement) :
  existsb (matches pattern) l = true ↔ ∃ e, e ∈ l ∧ own_score pattern e ≠ None.
Proof.
  rewrite existsb_exists. unfold matches. split.
  - intros (e & ?%list_elem_of_In & He). exists e. split; [done|].
    by destruct (own_score pattern e).
  - intros (e & ?%list_elem_of_In & He). exists e. split; [done|].
    by destruct (own_score pattern e).
Qed.

Lemma final_score_truthy (pattern : string) (e : OutlineElement) :
  truthy (final_score pattern e) = existsb (matches pattern) (elem_preorder e).
Proof.
  rewrite elem_preorder_unfold. unfold final_score, descendants. simpl.
  change (matches pattern e) with (truthy (own_score pattern e)).
  destruct (own_score pattern e); simpl; [done|].
  by destruct (existsb _ _).
Qed.

(** The best match is the first element of the greatest match-value:
    what comes before it scores strictly less, what comes after it scores
    no more. *)
Lemma best_spec (pattern : string) (l : list OutlineElement) acc :
  match best pattern l acc with
  | None => acc = None ∧ Forall (λ e, own_score pattern e = None) l
  | Some (t, v) =>
      (acc = Some (t, v)
       ∧ Forall (λ e, ∀ s, own_score pattern e = Some s → (s.1 ≤ v)%Z) l)
      ∨ (∃ l1 l2 s, l = l1 ++ t :: l2 ∧ own_score pattern t = Some s ∧ v = s.1
           ∧ (∀ t0 v0, acc = Some (t0, v0) → (v0 < v)%Z)
           ∧ Forall (λ e, ∀ s', own_score pattern e = Some s' → (s'.1 < v)%Z) l1
           ∧ Forall (λ e, ∀ s', own_score pattern e = Some s' → (s'.1 ≤ v)%Z) l2)
  end.
Proof.
  revert acc. induction l as [|e l IH]; intros acc.
  { simpl. destruct acc as [[t v]|]; [left|]; by split. }
  change (best pattern (e :: l) acc) with (best pattern l (pick pattern acc e)).
  specialize (IH (pick pattern acc e)).
  destruct (best pattern l (pick pattern acc e)) as [[t v]|].
  - destruct IH as [[Hacc Hall]|(l1 & l2 & s & -> & Hs & -> & Hacc & Hl1 & Hl2)].
    + unfold pick in Hacc. destruct (own_score pattern e) as [se|] eqn:He.
      * destruct acc as [[t0 v0]|].
        -- destruct (Z.gtb_spec se.1 v0); simplify_eq.
           ++ right. exists [], l, se. split_and!; [done..| | constructor | done].
              intros ?? [= <- <-]. lia.
           ++ left. split; [done|]. constructor; [|done].
              intros s Hs. rewrite He in Hs. simplify_eq. lia.
        -- simplify_eq. right. exists [], l, se. by split_and!.
      * subst acc. left. split; [done|].
        constructor; [intros s Hs; congruence | done].
    + right. exists (e :: l1), l2, s. split_and!; [done..| | |done].
      * intros t0 v0 ->. unfold pick in Hacc.
        destruct (own_score pattern e) as [se|]; [|by eapply Hacc].
        destruct (Z.gtb_spec se.1 v0); [|by eapply Hacc].
        specialize (Hacc _ _ eq_refl). lia.
      * constructor; [|done]. intros se Hse. unfold pick in Hacc. rewrite Hse in Hacc.
        destruct acc as [[t0 v0]|]; [|by eapply Hacc].
        destruct (Z.gtb_spec se.1 v0); [by eapply Hacc|].
        specialize (Hacc _ _ eq_refl). lia.
  - destruct IH as [Hacc Hall]. unfold pick in Hacc.
    destruct (own_score pattern e) as [se|] eqn:He.
    + destruct acc as [[t0 v0]|]; [|done]. by destruct (se.1 >? v0)%Z.
    + split; [done|]. by constructor.
Qed.

(** The best match is the one before the search, or an element of the
    list with its own match-value. *)
Lemma best_origin (pattern : string) (l : list OutlineElement) acc t v :
  best pattern l acc = Some (t, v) →
  acc = Some (t, v) ∨ (t ∈ l ∧ ∃ s, own_score pattern t = Some s ∧ v = s.1).
Proof.
  intros Hbest. pose proof (best_spec pattern l acc) as Hspec. rewrite Hbest in Hspec.
  destruct Hspec as [[? _]|(l1 & l2 & s & -> & ? & ? & _)]; [by left|].
  right. split; [|by exists s]. apply elem_of_app. right. left.
Qed.

Lemma NoDup_split_unique {A : Type} (x : A) (l1 l2 l1' l2' : list A) :
  NoDup (l1 ++ x :: l2) → l1 ++ x :: l2 = l1' ++ x :: l2' → l1 = l1' ∧ l2 = l2'.
Proof.
  revert l1'. induction l1 as [|y l1 IH]; intros [|y' l1'] Hnd Heq; simplify_eq/=.
  - done.
  - apply NoDup_cons in Hnd as [Hx _]. destruct Hx.
    apply elem_of_app. right. left.
  - apply NoDup_cons in Hnd as [Hx _]. destruct Hx.
    apply elem_of_app. right. left.
  - apply NoDup_cons in Hnd as [_ Hnd]. by destruct (IH _ Hnd H0) as [-> ->].
Qed.

(** ** Match propagation *)

Lemma _updateMatches_unfold (pattern : string) (item : OutlineElement)
    (topMatch : option OutlineElement) (h : Heap) :
  _updateMatches pattern item topMatch h =
  match pickTopMatch item topMatch
          (set_score (elem_ref item) (own_score pattern item) h) with
  | TypeError => TypeError
  | Ok topMatch' =>
      updateMatches_loop (_updateMatches pattern) item (elem_children item) topMatch'
        (set_score (elem_ref item) (own_score pattern item) h)
  end.
Proof. by destruct item. Qed.

Lemma keepParent_score (item child : OutlineElement) (h : Heap) (l : loc) :
  get_score l (keepParent item child h) =
  if decide (l = elem_ref item) then
    match get_score (elem_ref item) h with
    | Some s => Some s
    | None => if truthy (get_score (elem_ref child) h) then Some (0%Z, []) else None
    end
  else get_score l h.
Proof.
  unfold keepParent. case_decide as Hl.
  - subst l. destruct (get_score (elem_ref item) h) eqn:Hitem; simpl; [done|].
    destruct (truthy _); simpl; [|done]. apply get_score_set_eq.
  - destruct (_ && _); [|done]. by apply get_score_set_ne.
Qed.

Lemma keepParent_frame (item child : OutlineElement) (h : Heap) :
  next (keepParent item child h) = next h ∧ parents (keepParent item child h) = parents h.
Proof. unfold keepParent. by destruct (_ && _). Qed.

(** The test that updates [topMatch], on a best match whose score is in
    the heap: it does not throw, and it picks as [pick] does. *)
Lemma pickTopMatch_pick (pattern : string) (item : OutlineElement) acc (h : Heap) :
  acc_ok acc h [elem_ref item] →
  pickTopMatch item (fst <$> acc) (set_score (elem_ref item) (own_score pattern item) h)
  = Ok (fst <$> pick pattern acc item).
Proof.
  intros Hacc. unfold pickTopMatch, pick. rewrite get_score_set_eq.
  destruct (own_score pattern item) as [s|]; [|done].
  destruct acc as [[t v]|]; simpl; [|done].
  destruct Hacc as [[offsets Ht] Hne]. rewrite get_score_set_ne, Ht; simpl.
  - by destruct (s.1 >? v)%Z.
  - intros Heq. apply Hne. rewrite Heq. left.
Qed.

Lemma acc_ok_weaken acc (h : Heap) (visit visit' : list loc) :
  (∀ l, l ∈ visit' → l ∈ visit) → acc_ok acc h visit → acc_ok acc h visit'.
Proof.
  intros Hsub. destruct acc as [[t v]|]; [|done]. intros [? Hnot]. split; [done|].
  intros ?. by apply Hnot, Hsub.
Qed.

(** The best match after a visit has its score in the heap after the
    visit, and stays away from what is visited next. *)
Lemma acc_ok_best (pattern : string) (visited : list OutlineElement) acc
    (h h' : Heap) (visit : list loc) :
  acc_ok acc h ((elem_ref <$> visited) ++ visit) →
  (∀ e s, e ∈ visited → own_score pattern e = Some s →
     get_score (elem_ref e) h' = Some s) →
  (∀ l s, l ∉ elem_ref <$> visited → l ∉ visit →
     get_score l h = Some s → get_score l h' = Some s) →
  (∀ e, e ∈ visited → elem_ref e ∉ visit) →
  acc_ok (best pattern visited acc) h' visit.
Proof.
  intros Hacc Hscores Hframe Hdisj.
  destruct (best pattern visited acc) as [[t v]|] eqn:Hbest; [|done].
  apply best_origin in Hbest as [->|(Ht & s & Hs & ->)].
  - destruct Hacc as [[offsets Hget] Hnot]. rewrite not_elem_of_app in Hnot.
    destruct Hnot as [??]. split; [|done]. exists offsets. by apply Hframe.
  - split; [|by apply Hdisj]. exists s.2. rewrite (Hscores _ _ Ht Hs). by destruct s.
Qed.

Lemma final_score_own (pattern : string) (e : OutlineElement) (s : FuzzyScore) :
  own_score pattern e = Some s → final_score pattern e = Some s.
Proof. unfold final_score. by intros ->. Qed.

Lemma updateMatches_loop_spec (pattern : string) (item : OutlineElement)
    (cs : JsObj OutlineElement) :
  Forall (λ kv, updateMatches_spec pattern kv.2) cs →
  ∀ acc h,
    NoDup (elem_ref item :: (elem_ref <$> children_preorder cs)) →
    acc_ok acc h (elem_ref <$> children_preorder cs) →
    ∃ h', updateMatches_loop (_updateMatches pattern) item cs (fst <$> acc) h
            = Ok (fst <$> best pattern (children_preorder cs) acc, h')
        ∧ (∀ e, e ∈ children_preorder cs → get_score (elem_ref e) h' = final_score pattern e)
        ∧ get_score (elem_ref item) h' =
            match get_score (elem_ref item) h with
            | Some s => Some s
            | None =>
                if existsb (matches pattern) (children_preorder cs)
                then Some (0%Z, []) else None
            end
        ∧ (∀ l, l ≠ elem_ref item → l ∉ elem_ref <$> children_preorder cs →
             get_score l h' = get_score l h)
        ∧ next h' = next h
        ∧ parents h' = parents h.
Proof.
  induction cs as [|[k c] cs IH]; intros Hcs acc h Hnd Hacc.
  { exists h. simpl. split_and!; try done.
    - by intros e ?%elem_of_nil.
    - by destruct (get_score (elem_ref item) h). }
  apply Forall_cons in Hcs as [Hc Hcs]. simpl in Hc.
  simpl in Hnd, Hacc. rewrite fmap_app in Hnd, Hacc.
  apply NoDup_cons in Hnd as [Hitem Hnd]. rewrite not_elem_of_app in Hitem.
  destruct Hitem as [Hitem_c Hitem_cs].
  apply NoDup_app in Hnd as (Hnd_c & Hdisj & Hnd_cs).
  destruct (Hc acc h Hnd_c) as (h1 & Hrun & Hscores1 & Hframe1 & Hnext1 & Hparents1).
  { eapply acc_ok_weaken; [|done]. intros l ?. apply elem_of_app. by left. }
  set (h2 := keepParent item c h1).
  destruct (IH Hcs (best pattern (elem_preorder c) acc) h2)
    as (h' & Hloop & Hscores' & Hitem' & Hframe' & Hnext' & Hparents').
  { by apply NoDup_cons. }
  { apply (acc_ok_best pattern (elem_preorder c) acc h); [done| | |].
    - intros e s He Hs. unfold h2. rewrite keepParent_score.
      case_decide as Heq.
      + destruct Hitem_c. rewrite <-Heq. by apply list_elem_of_fmap_2.
      + rewrite (Hscores1 _ He). by apply final_score_own.
    - intros l s Hl Hl' Hs. unfold h2. rewrite keepParent_score.
      rewrite <-(Hframe1 l) in Hs by done.
      case_decide as Heq; [|done]. subst l. by rewrite Hs.
    - intros e He. apply Hdisj. by apply list_elem_of_fmap_2. }
  exists h'. split_and!.
  - simpl. rewrite Hrun. fold h2. by rewrite Hloop, best_app.
  - intros e [He|He]%elem_of_app; [|by apply Hscores'].
    rewrite Hframe'.
    + unfold h2. rewrite keepParent_score. case_decide as Heq; [|by apply Hscores1].
      destruct Hitem_c. rewrite <-Heq. by apply list_elem_of_fmap_2.
    + intros Heq. destruct Hitem_c. rewrite <-Heq. by apply list_elem_of_fmap_2.
    + apply Hdisj. by apply list_elem_of_fmap_2.
  - rewrite Hitem'. unfold h2. rewrite keepParent_score, decide_True by done.
    rewrite (Hframe1 (elem_ref item)) by done.
    rewrite (Hscores1 c) by apply elem_of_preorder_self.
    change (children_preorder ((k, c) :: cs))
      with (elem_preorder c ++ children_preorder cs).
    rewrite final_score_truthy, existsb_app.
    destruct (get_score (elem_ref item) h); [done|].
    by destruct (existsb (matches pattern) (elem_preorder c)).
  - intros l Hl Hnot. simpl in Hnot. rewrite fmap_app, not_elem_of_app in Hnot.
    destruct Hnot as [??].
    rewrite Hframe' by done. unfold h2.
    rewrite keepParent_score, decide_False by done. by apply Hframe1.
  - rewrite Hnext'. unfold h2. by rewrite (proj1 (keepParent_frame _ _ _)).
  - rewrite Hparents'. unfold h2. by rewrite (proj2 (keepParent_frame _ _ _)).
Qed.

Lemma _updateMatches_correct (pattern : string) (item : OutlineElement) :
  updateMatches_spec pattern item.
Proof.
  induction item as [l id symbol cs IH] using OutlineElement_ind.
  set (item := mkOutlineElement l id symbol cs) in *.
  intros acc h Hnd Hacc. rewrite _updateMatches_unfold.
  rewrite elem_preorder_unfold in Hnd, Hacc |- *.
  change (elem_children item) with cs in *. rewrite fmap_cons in Hnd, Hacc.
  pose proof Hnd as [Hitem Hnd_cs]%NoDup_cons.
  rewrite pickTopMatch_pick; cycle 1.
  { eapply acc_ok_weaken; [|done]. intros l' ->%list_elem_of_singleton. left. }
  set (h0 := set_score (elem_ref item) (own_score pattern item) h).
  destruct (updateMatches_loop_spec pattern item cs IH (pick pattern acc item) h0 Hnd)
    as (h' & Hloop & Hscores & Hscore_item & Hframe & Hnext & Hparents).
  { apply (acc_ok_best pattern [item] acc h); [done| | |].
    - intros e s ->%list_elem_of_singleton Hs. unfold h0. by rewrite get_score_set_eq.
    - intros l' s Hl' _ Hs. unfold h0. rewrite get_score_set_ne; [done|].
      intros <-. apply Hl'. left.
    - by intros e ->%list_elem_of_singleton. }
  exists h'. split; [done|]. split_and!.
  - intros e [->|He]%elem_of_cons; [|by apply Hscores].
    rewrite Hscore_item. unfold h0. rewrite get_score_set_eq.
    unfold final_score, descendants. by destruct (own_score pattern item).
  - intros l' Hl'. rewrite fmap_cons, not_elem_of_cons in Hl'. destruct Hl' as [??].
    rewrite Hframe by done. unfold h0. by apply get_score_set_ne.
  - by rewrite Hnext.
  - by rewrite Hparents.
Qed.

(** The loop of a group's [updateMatches]: it returns, with the best
    match of the best so far and the elements of the group, and leaves
    every element of the group with its final score. *)
Lemma updateMatches_children_spec (pattern : string) (cs : JsObj OutlineElement) acc h :
  NoDup (elem_ref <$> children_preorder cs) →
  acc_ok acc h (elem_ref <$> children_preorder cs) →
  ∃ h', updateMatches_children pattern cs (fst <$> acc) h
          = Ok (fst <$> best pattern (children_preorder cs) acc, h')
      ∧ updateMatches_post pattern (children_preorder cs) h h'.
Proof.
  revert acc h. induction cs as [|[k c] cs IH]; intros acc h Hnd Hacc.
  { exists h. simpl. split; [done|]. split_and!; try done. by intros e ?%elem_of_nil. }
  simpl in Hnd, Hacc. rewrite fmap_app in Hnd, Hacc.
  apply NoDup_app in Hnd as (Hnd_c & Hdisj & Hnd_cs).
  destruct (_updateMatches_correct pattern c acc h Hnd_c)
    as (h1 & Hrun & Hscores1 & Hframe1 & Hnext1 & Hparents1).
  { eapply acc_ok_weaken; [|done]. intros l ?. apply elem_of_app. by left. }
  destruct (IH (best pattern (elem_preorder c) acc) h1 Hnd_cs)
    as (h' & Hloop & Hscores' & Hframe' & Hnext' & Hparents').
  { apply (acc_ok_best pattern (elem_preorder c) acc h); [done| | |].
    - intros e s He Hs. rewrite (Hscores1 _ He). by apply final_score_own.
    - intros l s Hl _ Hs. by rewrite Hframe1.
    - intros e He. apply Hdisj. by apply list_elem_of_fmap_2. }
  exists h'. split; [|split_and!].
  - simpl. by rewrite Hrun, Hloop, best_app.
  - intros e [He|He]%elem_of_app; [|by apply Hscores'].
    rewrite Hframe'; [by apply Hscores1|]. apply Hdisj. by apply list_elem_of_fmap_2.
  - intros l Hl. simpl in Hl. rewrite fmap_app, not_elem_of_app in Hl.
    destruct Hl as [??]. rewrite Hframe' by done. by apply Hframe1.
  - by rewrite Hnext'.
  - by rewrite Hparents'.
Qed.

Lemma best_keeps (pattern : string) (l : list OutlineElement) (t : OutlineElement) (v : Z) :
  Forall (λ e, ∀ s, own_score pattern e = Some s → (s.1 ≤ v)%Z) l →
  best pattern l (Some (t, v)) = Some (t, v).
Proof.
  induction 1 as [|e l He _ IH]; [done|].
  change (best pattern (e :: l) (Some (t, v)))
    with (best pattern l (pick pattern (Some (t, v)) e)).
  unfold pick. destruct (own_score pattern e) as [s|]; [|done].
  specialize (He s eq_refl). destruct (Z.gtb_spec s.1 v); [lia | done].
Qed.

Lemma best_None (pattern : string) (l : list OutlineElement) :
  best pattern l None = None ↔ Forall (λ e, own_score pattern e = None) l.
Proof.
  split.
  - intros Hbest. pose proof (best_spec pattern l None) as Hspec.
    rewrite Hbest in Hspec. by destruct Hspec.
  - induction 1 as [|e l He _ IH]; [done|].
    change (best pattern (e :: l) None) with (best pattern l (pick pattern None e)).
    unfold pick. by rewrite He.
Qed.

(** The first element of the greatest match-value is the best match. *)
Lemma best_first_max (pattern : string) (l1 l2 : list OutlineElement)
    (t : OutlineElement) (s : FuzzyScore) :
  own_score pattern t = Some s →
  Forall (λ e, ∀ s', own_score pattern e = Some s' → (s'.1 < s.1)%Z) l1 →
  Forall (λ e, ∀ s', own_score pattern e = Some s' → (s'.1 ≤ s.1)%Z) l2 →
  best pattern (l1 ++ t :: l2) None = Some (t, s.1).
Proof.
  intros Hs Hl1 Hl2. rewrite best_app.
  change (best pattern (t :: l2) (best pattern l1 None))
    with (best pattern l2 (pick pattern (best pattern l1 None) t)).
  assert (pick pattern (best pattern l1 None) t = Some (t, s.1)) as ->;
    [|by apply best_keeps].
  unfold pick. rewrite Hs.
  destruct (best pattern l1 None) as [[t1 v1]|] eqn:Hbest; [|done].
  apply best_origin in Hbest as [?|(Ht1 & s1 & Hs1 & ->)]; [done|].
  rewrite Forall_forall in Hl1. specialize (Hl1 _ Ht1 _ Hs1).
  destruct (Z.gtb_spec s.1 s1.1); [done | lia].
Qed.

(** In a list without repetition, the best match splits the list in one
    way only: strictly smaller match-values before, none greater after. *)
Lemma best_split (pattern : string) (before after : list OutlineElement)
    (t : OutlineElement) (v : Z) :
  NoDup (before ++ t :: after) →
  best pattern (before ++ t :: after) None = Some (t, v) →
  ∃ s, own_score pattern t = Some s ∧ v = s.1
    ∧ Forall (λ e, ∀ s', own_score pattern e = Some s' → (s'.1 < s.1)%Z) before
    ∧ Forall (λ e, ∀ s', own_score pattern e = Some s' → (s'.1 ≤ s.1)%Z) after.
Proof.
  intros Hnd Hbest. pose proof (best_spec pattern (before ++ t :: after) None) as Hspec.
  rewrite Hbest in Hspec.
  destruct Hspec as [[? _]|(l1 & l2 & s & Heq & ? & -> & _ & ? & ?)]; [done|].
  apply NoDup_split_unique in Heq as [-> ->]; [|done]. by exists s.
Qed.

Lemma children_preorder_NoDup_child (cs : JsObj OutlineElement) (k : string)
    (c : OutlineElement) :
  (k, c) ∈ cs →
  NoDup (elem_ref <$> children_preorder cs) → NoDup (elem_ref <$> elem_preorder c).
Proof.
  induction cs as [|[k' c'] cs IH]; [by intros ?%elem_of_nil|].
  simpl. rewrite fmap_app, NoDup_app.
  intros [[= -> ->]|?]%elem_of_cons (? & _ & ?); [done | by apply IH].
Qed.

Lemma elem_preorder_NoDup_sub (x z : OutlineElement) :
  x ∈ elem_preorder z →
  NoDup (elem_ref <$> elem_preorder z) → NoDup (elem_ref <$> elem_preorder x).
Proof.
  induction z as [l id symbol cs IH] using OutlineElement_ind.
  rewrite (elem_preorder_unfold (mkOutlineElement _ _ _ _)). simpl.
  intros [->|Hx]%elem_of_cons Hnd.
  { by rewrite elem_preorder_unfold. }
  apply NoDup_cons in Hnd as [_ Hnd].
  apply elem_of_children_preorder in Hx as (k & c & Hc & Hx).
  rewrite Forall_forall in IH. apply (IH _ Hc Hx).
  by apply (children_preorder_NoDup_child cs k).
Qed.

Lemma children_preorder_NoDup_sub (x : OutlineElement) (cs : JsObj OutlineElement) :
  x ∈ children_preorder cs →
  NoDup (elem_ref <$> children_preorder cs) → NoDup (elem_ref <$> elem_preorder x).
Proof.
  intros (k & c & Hc & Hx)%elem_of_children_preorder Hnd.
  apply (elem_preorder_NoDup_sub x c Hx).
  by apply (children_preorder_NoDup_child cs k).
Qed.

(** No element is below itself. *)
Lemma not_own_descendant (x : OutlineElement) :
  NoDup (elem_ref <$> elem_preorder x) → x ∉ descendants x.
Proof.
  rewrite elem_preorder_unfold, fmap_cons, NoDup_cons. intros [Hx _] Hin.
  apply Hx. by apply list_elem_of_fmap_2.
Qed.

(** A group's [updateMatches] that starts without a best match returns,
    and returns the best match of the group's elements. *)
Lemma group_updateMatches_best (pattern : string) (g : OutlineGroup) (h : Heap) :
  NoDup (elem_ref <$> children_preorder (group_children g)) →
  ∃ h', group_updateMatches pattern g None h
          = Ok (fst <$> best pattern (children_preorder (group_children g)) None, h')
      ∧ updateMatches_post pattern (children_preorder (group_children g)) h h'.
Proof.
  intros Hnd. by apply (updateMatches_children_spec pattern (group_children g) None h).
Qed.

(** The model's [updateMatches] threads the best match through the
    groups: over distinct objects it returns, with the best match of all
    the elements of the groups in the order of the visit. *)
Lemma updateMatches_groups_spec (pattern : string) (gs : JsObj OutlineGroup) acc h :
  NoDup (elem_ref <$> (obj_values gs ≫= λ g, children_preorder (group_children g))) →
  acc_ok acc h (elem_ref <$> (obj_values gs ≫= λ g, children_preorder (group_children g))) →
  ∃ h', updateMatches_groups pattern gs (fst <$> acc) h
          = Ok (fst <$> best pattern
                  (obj_values gs ≫= λ g, children_preorder (group_children g)) acc, h')
      ∧ updateMatches_post pattern
          (obj_values gs ≫= λ g, children_preorder (group_children g)) h h'.
Proof.
  unfold obj_values. revert acc h. induction gs as [|[k g] gs IH]; intros acc h Hnd Hacc.
  { exists h. simpl. split; [done|]. split_and!; try done. by intros e ?%elem_of_nil. }
  rewrite fmap_cons, bind_cons, fmap_app in Hnd, Hacc. cbn [snd] in Hnd, Hacc.
  apply NoDup_app in Hnd as (Hnd_g & Hdisj & Hnd_gs).
  destruct (updateMatches_children_spec pattern (group_children g) acc h Hnd_g)
    as (h1 & Hrun & Hscores1 & Hframe1 & Hnext1 & Hparents1).
  { eapply acc_ok_weaken; [|done]. intros l ?. apply elem_of_app. by left. }
  destruct (IH (best pattern (children_preorder (group_children g)) acc) h1 Hnd_gs)
    as (h' & Hloop & Hscores' & Hframe' & Hnext' & Hparents').
  { apply (acc_ok_best pattern (children_preorder (group_children g)) acc h); [done| | |].
    - intros e s He Hs. rewrite (Hscores1 _ He). by apply final_score_own.
    - intros l s Hl _ Hs. by rewrite Hframe1.
    - intros e He. apply Hdisj. by apply list_elem_of_fmap_2. }
  exists h'. rewrite fmap_cons, bind_cons. cbn [snd]. split; [|split_and!].
  - cbn [updateMatches_groups]. unfold group_updateMatches. by rewrite Hrun, Hloop, best_app.
  - intros e [He|He]%elem_of_app; [|by apply Hscores'].
    rewrite Hframe'; [by apply Hscores1|]. apply Hdisj. by apply list_elem_of_fmap_2.
  - intros l Hl. rewrite fmap_app, not_elem_of_app in Hl.
    destruct Hl as [??]. rewrite Hframe' by done. by apply Hframe1.
  - by rewrite Hnext'.
  - by rewrite Hparents'.
Qed.

Lemma updateMatches_best (pattern : string) (m : OutlineModel) (h : Heap) :
  NoDup (elem_ref <$> group_elements m) →
  ∃ h', updateMatches pattern m h
          = Ok (fst <$> best pattern (group_elements m) None, h')
      ∧ updateMatches_post pattern (group_elements m) h h'.
Proof.
  intros Hnd. by apply (updateMatches_groups_spec pattern (_groups m) None h).
Qed.

(** C2. After [updateMatches(p)] on a group, an element whose own score
    against [p] is empty and that has a descendant with a score that is
    not empty has the score [(0, [])]; an element without a match of its
    own or below it has an empty score; an element that matches has its
    own score.  The call returns a match of the greatest match-value,
    and nothing when no element matches.  When one element only matches,
    it is returned, the elements above it have the score [(0, [])] and
    the other elements have an empty score. *)
Theorem group_updateMatches_propagates (p : string) (g : OutlineGroup) (h : Heap) :
  NoDup (elem_ref <$> children_preorder (group_children g)) →
  ∃ top h',
    group_updateMatches p g None h = Ok (top, h')
    ∧ (∀ e, e ∈ children_preorder (group_children g) →
         own_score p e = None →
         (∃ d, d ∈ descendants e ∧ own_score p d ≠ None) →
         get_score (elem_ref e) h' = Some (0%Z, []))
    ∧ (∀ e, e ∈ children_preorder (group_children g) →
         own_score p e = None →
         (∀ d, d ∈ descendants e → own_score p d = None) →
         get_score (elem_ref e) h' = None)
    ∧ (∀ e s, e ∈ children_preorder (group_children g) →
         own_score p e = Some s → get_score (elem_ref e) h' = Some s)
    ∧ (top = None ↔
         ∀ e, e ∈ children_preorder (group_children g) → own_score p e = None)
    ∧ (∀ t, top = Some t →
         t ∈ children_preorder (group_children g)
         ∧ ∃ s, own_score p t = Some s
             ∧ ∀ e s', e ∈ children_preorder (group_children g) →
                 own_score p e = Some s' → (s'.1 ≤ s.1)%Z)
    ∧ (∀ leaf, leaf ∈ children_preorder (group_children g) →
         own_score p leaf ≠ None →
         (∀ e, e ∈ children_preorder (group_children g) →
            own_score p e ≠ None → e = leaf) →
         top = Some leaf
         ∧ (∀ e, e ∈ children_preorder (group_children g) →
              leaf ∈ descendants e → get_score (elem_ref e) h' = Some (0%Z, []))
         ∧ (∀ e, e ∈ children_preorder (group_children g) →
              e ≠ leaf → leaf ∉ descendants e → get_score (elem_ref e) h' = None)).
Proof.
  intros Hnd. set (elems := children_preorder (group_children g)) in *.
  destruct (group_updateMatches_best p g h Hnd) as (h' & Hrun & Hscores & _).
  fold elems in Hrun, Hscores.
  assert (∀ e, e ∈ elems → own_score p e = None →
            (∃ d, d ∈ descendants e ∧ own_score p d ≠ None) →
            get_score (elem_ref e) h' = Some (0%Z, [])) as Hzero.
  { intros e He Hown Hbelow. rewrite (Hscores _ He). unfold final_score. rewrite Hown.
    apply existsb_matches in Hbelow. by rewrite Hbelow. }
  assert (∀ e, e ∈ elems → own_score p e = None →
            (∀ d, d ∈ descendants e → own_score p d = None) →
            get_score (elem_ref e) h' = None) as Hnone.
  { intros e He Hown Hbelow. rewrite (Hscores _ He). unfold final_score. rewrite Hown.
    destruct (existsb _ _) eqn:Hex; [|done].
    apply existsb_matches in Hex as (d & Hd & Hne). by destruct Hne; apply Hbelow. }
  pose proof (best_spec p elems None) as Hspec.
  exists (fst <$> best p elems None), h'. split_and!; [done..| | | |].
  - intros e s He Hs. rewrite (Hscores _ He). by apply final_score_own.
  - rewrite <-Forall_forall, <-best_None. by destruct (best p elems None).
  - intros t Ht. destruct (best p elems None) as [[t' v]|]; [|done].
    simpl in Ht. simplify_eq.
    destruct Hspec as [[? _]|(l1 & l2 & s & Heq & Hs & -> & _ & Hl1 & Hl2)]; [done|].
    split; [rewrite Heq; apply elem_of_app; right; left|].
    exists s. split; [done|]. intros e s' He Hs'. rewrite Heq in He.
    rewrite Forall_forall in Hl1, Hl2.
    apply elem_of_app in He as [He|[->|He]%elem_of_cons].
    + specialize (Hl1 _ He _ Hs'). lia.
    + replace s' with s by congruence. lia.
    + by apply (Hl2 _ He).
  - intros leaf Hleaf Hmatch Honly. split_and!.
    + destruct (best p elems None) as [[t v]|] eqn:Hbest.
      * apply best_origin in Hbest as [?|(Ht & s & Hs & _)]; [done|].
        simpl. f_equal. apply Honly; [done | congruence].
      * destruct Hspec as [_ Hall]. rewrite Forall_forall in Hall.
        destruct Hmatch. by apply Hall.
    + intros e He Hbelow. apply Hzero; [done| |by exists leaf].
      destruct (own_score p e) eqn:Hown; [|done].
      assert (e = leaf) as -> by (apply Honly; [done | congruence]).
      destruct (not_own_descendant leaf); [|done].
      by apply (children_preorder_NoDup_sub leaf (group_children g)).
    + intros e He Hne Hnot.
      assert (own_score p e = None) as Hown.
      { destruct (own_score p e) eqn:Hown; [|done]. destruct Hne.
        apply Honly; [done | congruence]. }
      apply Hnone; [done..|]. intros d Hd.
      destruct (own_score p d) eqn:Hd_own; [|done].
      assert (d = leaf) as ->; [|done].
      apply Honly; [|congruence].
      apply elem_of_children_preorder in He as (k & c & Hc & He).
      apply elem_of_children_preorder. exists k, c. split; [done|].
      apply (elem_preorder_trans _ e); [|done]. by apply descendants_preorder.
Qed.

(** C3. [topMatch] is replaced by an element only when the element has
    a score that is not empty and either there is no best match yet or
    the match-value of the element is strictly greater than the one of
    the best match; an empty score never replaces it.  So the best match
    that [updateMatches] returns comes after strictly smaller
    match-values only: of two elements with the same match-value the
    later one is never returned, and the first element of the greatest
    match-value is the one returned. *)
Theorem updateMatches_first_wins (p : string) (g : OutlineGroup) (h : Heap) :
  NoDup (elem_ref <$> children_preorder (group_children g)) →
  (∀ item h0, pickTopMatch item None h0
     = Ok (if truthy (get_score (elem_ref item) h0) then Some item else None))
  ∧ (∀ item top h0 s st,
       get_score (elem_ref item) h0 = Some s →
       get_score (elem_ref top) h0 = Some st →
       pickTopMatch item (Some top) h0
       = Ok (if (s.1 >? st.1)%Z then Some item else Some top))
  ∧ (∀ item top h0,
       get_score (elem_ref item) h0 = None → pickTopMatch item top h0 = Ok top)
  ∧ ∃ top h',
      group_updateMatches p g None h = Ok (top, h')
      ∧ (∀ before t after,
           children_preorder (group_children g) = before ++ t :: after →
           top = Some t →
           ∃ s, own_score p t = Some s
             ∧ Forall (λ e, ∀ s', own_score p e = Some s' → (s'.1 < s.1)%Z) before
             ∧ Forall (λ e, ∀ s', own_score p e = Some s' → (s'.1 ≤ s.1)%Z) after)
      ∧ (∀ l1 e1 l2 e2 l3 s1 s2,
           children_preorder (group_children g) = l1 ++ e1 :: l2 ++ e2 :: l3 →
           own_score p e1 = Some s1 → own_score p e2 = Some s2 → s1.1 = s2.1 →
           top ≠ Some e2)
      ∧ (∀ before t after s,
           children_preorder (group_children g) = before ++ t :: after →
           own_score p t = Some s →
           Forall (λ e, ∀ s', own_score p e = Some s' → (s'.1 < s.1)%Z) before →
           Forall (λ e, ∀ s', own_score p e = Some s' → (s'.1 ≤ s.1)%Z) after →
           top = Some t).
Proof.
  intros Hnd. split_and!.
  - intros item h0. unfold pickTopMatch. by destruct (get_score _ h0).
  - intros item top h0 s st Hs Hst. unfold pickTopMatch. by rewrite Hs, Hst.
  - intros item top h0 Hs. unfold pickTopMatch. by rewrite Hs.
  - destruct (group_updateMatches_best p g h Hnd) as (h' & Hrun & _).
    set (elems := children_preorder (group_children g)) in *.
    assert (NoDup elems) as Hnd' by (by apply NoDup_fmap_1 in Hnd).
    assert (∀ before t after, elems = before ++ t :: after →
              fst <$> best p elems None = Some t →
              ∃ s, own_score p t = Some s
                ∧ Forall (λ e, ∀ s', own_score p e = Some s' → (s'.1 < s.1)%Z) before
                ∧ Forall (λ e, ∀ s', own_score p e = Some s' → (s'.1 ≤ s.1)%Z) after)
      as Hsplit.
    { intros before t after Heq Htop. rewrite Heq in Htop, Hnd'.
      destruct (best p (before ++ t :: after) None) as [[t' v]|] eqn:Hbest; [|done].
      simpl in Htop. simplify_eq.
      apply best_split in Hbest as (s & ? & _ & ? & ?); [|done]. by exists s. }
    exists (fst <$> best p elems None), h'. split_and!; [done..| |].
    + intros l1 e1 l2 e2 l3 s1 s2 Heq Hs1 Hs2 Hsame Htop.
      rewrite (assoc (++) l1 [e1] (l2 ++ e2 :: l3)) in Heq.
      rewrite (assoc (++) _ l2 (e2 :: l3)) in Heq.
      destruct (Hsplit _ _ _ Heq Htop) as (s & Hs & Hbefore & _).
      replace s with s2 in * by congruence.
      rewrite !Forall_app, Forall_singleton in Hbefore.
      destruct Hbefore as [[_ He1] _]. specialize (He1 _ Hs1). lia.
    + intros before t after s -> Hs Hbefore Hafter.
      by rewrite (best_first_max p before after t s).
Qed.

(** ** Building the tree *)

Lemma SymbolInformation_ind (P : SymbolInformation → Prop) :
  (∀ name definingRange location_range children,
      match children with Some infos => Forall P infos | None => True end →
      P (mkSymbolInformation name definingRange location_range children)) →
  ∀ info, P info.
Proof.
  intros Hstep. fix IH 1. intros [name dr lr [infos|]]; apply Hstep; [|done].
  induction infos as [|info infos IHinfos]; constructor; [apply IH | apply IHinfos].
Qed.

Lemma _makeOutlineElement_unfold (info : SymbolInformation) (container_ref : loc)
    (container_id : string) (container_children : JsObj OutlineElement) (h : Heap) :
  _makeOutlineElement info container_ref container_id container_children h =
  let id := findId (info_name info) container_id container_children in
  let (res, h1) := new_OutlineElement id (Obj container_ref) info h in
  let (res_children, h2) :=
    match info_children info with
    | None => (elem_children res, h1)
    | Some infos => makeOutlineElements infos (elem_ref res) id (elem_children res) h1
    end in
  (obj_set id (mkOutlineElement (elem_ref res) id info res_children) container_children,
   h2).
Proof.
  destruct info as [name dr lr [infos|]]; [|done]. simpl.
  set (id := findId name container_id container_children).
  generalize (mkSymbolInformation name dr lr (Some infos)). intros symbol.
  generalize (mkHeap (S (next h)) (<[next h:=(0%Z, [])]> (scores h))
                (<[next h:=Obj container_ref]> (parents h))).
  generalize (@nil (string * OutlineElement)).
  induction infos as [|info infos IH]; intros rc h1; [done|]. simpl.
  destruct (_makeOutlineElement info (next h) id rc h1) as [rc' h1']. apply IH.
Qed.

Lemma extends_refl (container_ref : loc) (cs : JsObj OutlineElement) (h : Heap) :
  extends container_ref cs cs h h.
Proof.
  exists []. rewrite app_nil_r. split_and!; try done; by constructor.
Qed.

Lemma extends_trans (container_ref : loc) (cs cs1 cs2 : JsObj OutlineElement)
    (h h1 h2 : Heap) :
  extends container_ref cs cs1 h h1 → extends container_ref cs1 cs2 h1 h2 →
  extends container_ref cs cs2 h h2.
Proof.
  intros (new1 & -> & Hkeys1 & Hnd1 & Hle1 & Hrefs1 & Hndr1 & Hframe1 & Hpar1 & Hsc1)
         (new2 & -> & Hkeys2 & Hnd2 & Hle2 & Hrefs2 & Hndr2 & Hframe2 & Hpar2 & Hsc2).
  exists (new1 ++ new2). rewrite children_preorder_app, fmap_app.
  rewrite Forall_forall in Hrefs1. rewrite Forall_forall in Hrefs2.
  split_and!.
  - by rewrite (assoc (++)).
  - by apply Forall_app.
  - auto.
  - lia.
  - apply Forall_app. split; apply Forall_forall; intros l Hl.
    + specialize (Hrefs1 _ Hl). lia.
    + specialize (Hrefs2 _ Hl). lia.
  - apply NoDup_app. split_and!; [done| |done].
    intros l Hl1 Hl2. specialize (Hrefs1 _ Hl1). specialize (Hrefs2 _ Hl2). lia.
  - intros l Hl. destruct (Hframe2 l) as [-> ->]; [lia|]. by apply Hframe1.
  - apply Forall_app. split; [|done]. apply Forall_forall. intros [k c] Hkc.
    rewrite Forall_forall in Hpar1. specialize (Hpar1 _ Hkc). simpl in *.
    destruct (Hframe2 (elem_ref c)) as [_ ->]; [|done].
    assert (next h ≤ elem_ref c < next h1); [|lia]. apply Hrefs1.
    apply list_elem_of_fmap_2, elem_of_children_preorder. exists k, c.
    split; [done | apply elem_of_preorder_self].
  - apply Forall_app. split; [|done]. apply Forall_forall. intros e He.
    rewrite Forall_forall in Hsc1. specialize (Hsc1 _ He).
    destruct (Hframe2 (elem_ref e)) as [-> _]; [|done].
    assert (next h ≤ elem_ref e < next h1); [|lia]. apply Hrefs1.
    by apply list_elem_of_fmap_2.
Qed.

Lemma makeOutlineElements_extends (infos : list SymbolInformation) :
  Forall (λ info, ∀ container_ref container_id cs h,
            extends container_ref cs
              (_makeOutlineElement info container_ref container_id cs h).1 h
              (_makeOutlineElement info container_ref container_id cs h).2) infos →
  ∀ container_ref container_id cs h,
    extends container_ref cs
      (makeOutlineElements infos container_ref container_id cs h).1 h
      (makeOutlineElements infos container_ref container_id cs h).2.
Proof.
  induction 1 as [|info infos Hinfo _ IH]; intros container_ref container_id cs h; simpl.
  { apply extends_refl. }
  specialize (Hinfo container_ref container_id cs h).
  destruct (_makeOutlineElement info container_ref container_id cs h) as [cs1 h1].
  by eapply extends_trans.
Qed.

Lemma _makeOutlineElement_extends (info : SymbolInformation) (container_ref : loc)
    (container_id : string) (cs : JsObj OutlineElement) (h : Heap) :
  extends container_ref cs
    (_makeOutlineElement info container_ref container_id cs h).1 h
    (_makeOutlineElement info container_ref container_id cs h).2.
Proof.
  revert container_ref container_id cs h.
  induction info as [name dr lr children IH] using SymbolInformation_ind.
  intros container_ref container_id cs h. rewrite _makeOutlineElement_unfold.
  set (info := mkSymbolInformation name dr lr children).
  set (id := findId (info_name info) container_id cs).
  unfold new_OutlineElement. cbn [elem_ref elem_children].
  set (h1 := mkHeap (S (next h)) _ _).
  lazymatch goal with
  | |- context [let (_, _) := ?t in _] => destruct t as [rc h2] eqn:Hbuild
  end.
  assert (extends (next h) [] rc h1 h2) as Hext.
  { simpl in Hbuild. destruct children as [infos|].
    - pose proof (makeOutlineElements_extends infos IH (next h) id [] h1) as Hext.
      by rewrite Hbuild in Hext.
    - injection Hbuild as <- <-. apply extends_refl. }
  clear Hbuild.
  destruct Hext as (new & -> & _ & _ & Hle & Hrefs & Hnd & Hframe & _ & Hsc).
  rewrite app_nil_l in *. simpl.
  assert (next h1 = S (next h)) as Hnext1 by done.
  exists [(id, mkOutlineElement (next h) id info new)].
  rewrite Forall_forall in Hrefs.
  split_and!.
  - apply obj_set_fresh, findId_fresh.
  - by constructor.
  - intros Hkeys. rewrite obj_set_fresh by apply findId_fresh.
    rewrite obj_keys_app. apply NoDup_app. split_and!; [done| |apply NoDup_singleton].
    intros k Hk ->%list_elem_of_singleton.
    by apply (proj1 (obj_get_None id cs) (findId_fresh _ _ _)).
  - lia.
  - rewrite children_preorder_singleton, fmap_cons. cbn [elem_ref elem_children].
    constructor; [lia|]. apply Forall_forall. intros l Hl. specialize (Hrefs _ Hl). lia.
  - rewrite children_preorder_singleton, fmap_cons. cbn [elem_ref elem_children].
    apply NoDup_cons. split; [|done]. intros Hl. specialize (Hrefs _ Hl). lia.
  - intros l Hl. destruct (Hframe l) as [-> ->]; [lia|].
    unfold get_score, get_parent, h1; simpl. rewrite !lookup_insert_ne by lia. done.
  - constructor; [|done]. simpl. destruct (Hframe (next h)) as [_ ->]; [lia|].
    unfold get_parent, h1; simpl. by rewrite lookup_insert_eq.
  - rewrite children_preorder_singleton. cbn [elem_ref elem_children].
    constructor; [|done]. cbn [elem_ref].
    destruct (Hframe (next h)) as [-> _]; [lia|].
    unfold get_score, h1; simpl. by rewrite lookup_insert_eq.
Qed.

(** ** The fetch cycle *)

Lemma findId_no_children {A : Type} (candidate container_id : string) :
  findId candidate container_id (@nil (string * A)) = container_id +:+ candidate.
Proof. done. Qed.

Global Instance provider_group_id_inj : Inj (=) (=) provider_group_id.
Proof.
  intros i j Heq. unfold provider_group_id in Heq.
  by apply (inj _), (inj _), (inj pretty) in Heq.
Qed.

Lemma makeGroups_length (m : OutlineModel) (n index : nat) (h : Heap) :
  length (makeGroups m index n h).1 = n.
Proof.
  revert index h. induction n as [|n IH]; intros index h; simpl; [done|].
  specialize (IH (S index) (new_OutlineGroup
    (findId ("provider_" +:+ pretty index) model_id (model_children m)) index h).2).
  unfold new_OutlineGroup in *. simpl in *.
  destruct (makeGroups m (S index) n _) as [groups h']. simpl in *. by rewrite IH.
Qed.

Lemma makeGroups_lookup (m : OutlineModel) (n index : nat) (h : Heap) (j : nat) :
  model_children m = [] → j < n →
  ∃ g, (makeGroups m index n h).1 !! j = Some g
    ∧ group_ref g = next h + j
    ∧ group_id g = provider_group_id (index + j)
    ∧ group_providerIndex g = index + j
    ∧ group_children g = [].
Proof.
  intros Hm. revert index h j. induction n as [|n IH]; intros index h j Hj; [lia|].
  simpl. rewrite Hm, findId_no_children. unfold new_OutlineGroup.
  set (h1 := mkHeap (S (next h)) _ _).
  specialize (IH (S index) h1).
  destruct (makeGroups m (S index) n h1) as [groups h'] eqn:Hgroups. simpl in *.
  destruct j as [|j]; simpl.
  - eexists. split; [done|]. simpl. by rewrite !Nat.add_0_r.
  - destruct (IH j) as (g & ? & ? & ? & ? & ?); [lia|].
    exists g. split_and!; [done| | | |done].
    + replace (next h + S j) with (next h1 + j) by (unfold h1; simpl; lia). done.
    + by replace (index + S j) with (S index + j) by lia.
    + by replace (index + S j) with (S index + j) by lia.
Qed.

Lemma makeGroups_heap (m : OutlineModel) (n index : nat) (h : Heap) :
  next (makeGroups m index n h).2 = next h + n
  ∧ scores (makeGroups m index n h).2 = scores h.
Proof.
  revert index h. induction n as [|n IH]; intros index h; simpl; [by rewrite Nat.add_0_r|].
  unfold new_OutlineGroup. set (h1 := mkHeap (S (next h)) _ _).
  destruct (IH (S index) h1) as [Hnext Hscores].
  destruct (makeGroups m (S index) n h1) as [groups h']. simpl in *.
  rewrite Hnext, Hscores. unfold h1; simpl. split; [lia | done].
Qed.

Lemma onSettled_group (outcome : ProviderOutcome) (group : OutlineGroup) (h : Heap) :
  group_ref (onSettled outcome group h).1 = group_ref group
  ∧ group_id (onSettled outcome group h).1 = group_id group
  ∧ group_providerIndex (onSettled outcome group h).1 = group_providerIndex group
  ∧ (no_symbols outcome = true → onSettled outcome group h = (group, h))
  ∧ extends (group_ref group) (group_children group)
      (group_children (onSettled outcome group h).1) h (onSettled outcome group h).2.
Proof.
  unfold onSettled, no_symbols. destruct outcome as [|result]; simpl.
  { split_and!; try done. apply extends_refl. }
  destruct (isFalsyOrEmpty result); simpl.
  { split_and!; try done. apply extends_refl. }
  pose proof (makeOutlineElements_extends (default [] result)) as Hext.
  specialize (Hext (proj2 (Forall_forall _ _)
    (λ info _, _makeOutlineElement_extends info)) (group_ref group) (group_id group)
    (group_children group) h).
  destruct (makeOutlineElements _ _ _ _ h) as [cs h']. by split_and!.
Qed.

(** The groups are registered in the order of settlement, each under
    its id. *)
Lemma settleAll_groups (outcomes : list ProviderOutcome) (groups : list OutlineGroup)
    (order : list nat) (m : OutlineModel) (h : Heap) :
  (∀ i j gi gj, groups !! i = Some gi → groups !! j = Some gj →
     group_id gi = group_id gj → i = j) →
  NoDup order →
  (∀ i, i ∈ order → i < length outcomes ∧ i < length groups) →
  (∀ i g, i ∈ order → groups !! i = Some g → group_id g ∉ obj_keys (_groups m)) →
  ∃ gs, _groups (settleAll outcomes groups order m h).1 = _groups m ++ gs
    ∧ model_children (settleAll outcomes groups order m h).1 = model_children m
    ∧ Forall2 (λ i kv, ∃ g o, groups !! i = Some g ∧ outcomes !! i = Some o
          ∧ kv.1 = group_id g ∧ group_id kv.2 = group_id g
          ∧ group_ref kv.2 = group_ref g
          ∧ group_providerIndex kv.2 = group_providerIndex g
          ∧ (no_symbols o = true → kv.2 = g)) order gs.
Proof.
  intros Hinj. revert m h.
  induction order as [|i order IH]; intros m h Hnd Hbound Hfresh; simpl.
  { exists []. by rewrite app_nil_r. }
  apply NoDup_cons in Hnd as [Hi Hnd].
  destruct (Hbound i) as [Ho Hg]; [left|].
  apply lookup_lt_is_Some in Ho as [o Ho]. apply lookup_lt_is_Some in Hg as [g Hg].
  rewrite Ho, Hg. unfold settle.
  destruct (onSettled_group o g h) as (Href & Hid & Hindex & Hempty & _).
  destruct (onSettled o g h) as [g' h1]. simpl in *.
  set (m1 := mkOutlineModel _ _).
  assert (_groups m1 = _groups m ++ [(group_id g, g')]) as Hm1.
  { unfold m1; simpl. rewrite Hid. apply obj_set_fresh, obj_get_None.
    apply (Hfresh i); [left | done]. }
  destruct (IH m1 h1 Hnd) as (gs & Hgs & Hchildren & Hall).
  { intros j Hj. apply Hbound. by right. }
  { intros j gj Hj Hgj. rewrite Hm1, obj_keys_app, not_elem_of_app. split.
    - apply (Hfresh j); [by right | done].
    - unfold obj_keys; simpl. intros Heq%list_elem_of_singleton.
      by rewrite (Hinj _ _ _ _ Hgj Hg Heq) in Hj. }
  exists ((group_id g, g') :: gs). split_and!.
  - by rewrite Hgs, Hm1, <-(assoc (++)).
  - by rewrite Hchildren.
  - constructor; [|done]. exists g, o. split_and!; try done.
    intros Hno. specialize (Hempty Hno). by simplify_eq.
Qed.

Lemma adopt_spec (group_children : JsObj OutlineElement) (children : JsObj ModelChild)
    (h : Heap) :
  Forall (λ kv, kv.1 = elem_id kv.2) group_children →
  NoDup (obj_keys children ++ obj_keys group_children) →
  (adopt group_children children h).1
    = children ++ (prod_map id ChildElement <$> group_children)
  ∧ next (adopt group_children children h).2 = next h
  ∧ scores (adopt group_children children h).2 = scores h
  ∧ (∀ l, l ∈ elem_ref <$> obj_values group_children →
       get_parent l (adopt group_children children h).2 = Some TheModel)
  ∧ (∀ l, l ∉ elem_ref <$> obj_values group_children →
       get_parent l (adopt group_children children h).2 = get_parent l h).
Proof.
  revert children h. induction group_children as [|[k c] gcs IH]; intros cs h Hkeys Hnd.
  { simpl. rewrite app_nil_r. split_and!; try done. by intros l ?%elem_of_nil. }
  apply Forall_cons in Hkeys as [Hk Hkeys]. simpl in Hk. subst k.
  unfold obj_keys in Hnd. rewrite fmap_cons in Hnd. simpl in Hnd.
  assert (obj_set (elem_id c) (ChildElement c) cs = cs ++ [(elem_id c, ChildElement c)])
    as Hset.
  { apply obj_set_fresh, obj_get_None. apply NoDup_app in Hnd as (_ & Hdisj & _).
    intros Hin. apply (Hdisj _ Hin). left. }
  simpl. rewrite Hset.
  destruct (IH (cs ++ [(elem_id c, ChildElement c)])
              (set_parent (elem_ref c) TheModel h) Hkeys)
    as (Hcs & Hnext & Hscores & Hin & Hout).
  { unfold obj_keys. rewrite fmap_app, <-(assoc (++)). done. }
  split_and!.
  - by rewrite Hcs, <-(assoc (++)).
  - by rewrite Hnext.
  - by rewrite Hscores.
  - intros l Hl. change (l ∈ elem_ref c :: (elem_ref <$> obj_values gcs)) in Hl.
    destruct (decide (l ∈ elem_ref <$> obj_values gcs)) as [?|Hnot]; [by apply Hin|].
    rewrite Hout by done. apply elem_of_cons in Hl as [->|?]; [|done].
    unfold get_parent, set_parent; simpl. by rewrite lookup_insert_eq.
  - intros l Hl. change (l ∉ elem_ref c :: (elem_ref <$> obj_values gcs)) in Hl.
    rewrite not_elem_of_cons in Hl. destruct Hl as [Hne Hl]. rewrite Hout by done.
    unfold get_parent, set_parent; simpl. by rewrite lookup_insert_ne.
Qed.

Lemma joined_groups (m : OutlineModel) (h : Heap) : _groups (joined m h).1 = _groups m.
Proof.
  unfold joined. destruct (negb _); [done|].
  destruct (first (_groups m)); [|done]. by destruct (adopt _ _ _).
Qed.

(** The groups of a fetch cycle that runs to its end: one for each
    provider, registered in the order of settlement under its id, with
    the ids and indices [_makeRequest] gave them; the group of a provider
    without symbols is as it was created, without children. *)
Lemma fetchCycle_groups (outcomes : list ProviderOutcome) (order : list nat) (h : Heap) :
  order ≡ₚ seq 0 (length outcomes) →
  Forall2 (λ i kv, ∃ o, outcomes !! i = Some o
        ∧ kv.1 = provider_group_id i ∧ group_id kv.2 = provider_group_id i
        ∧ group_ref kv.2 = next h + i ∧ group_providerIndex kv.2 = i
        ∧ (no_symbols o = true → group_children kv.2 = []))
    order (_groups (fetchCycle outcomes order h).1).
Proof.
  intros Hperm. unfold fetchCycle.
  pose proof (makeGroups_length fresh_model (length outcomes) 0 h) as Hlen.
  pose proof (λ j, makeGroups_lookup fresh_model (length outcomes) 0 h j eq_refl) as Hlookup.
  destruct (makeGroups fresh_model 0 (length outcomes) h) as [groups h1]. simpl in *.
  destruct (settleAll_groups outcomes groups order fresh_model h1)
    as (gs & Hgs & _ & Hall).
  - intros i j gi gj Hgi Hgj Heq.
    destruct (Hlookup i) as (gi' & ? & _ & Hidi & _); [by apply lookup_lt_Some in Hgi; lia|].
    destruct (Hlookup j) as (gj' & ? & _ & Hidj & _); [by apply lookup_lt_Some in Hgj; lia|].
    simplify_eq. rewrite Hidi, Hidj in Heq. by apply (inj _) in Heq.
  - rewrite Hperm. apply NoDup_seq.
  - intros i Hi. rewrite Hperm in Hi. apply elem_of_seq in Hi. lia.
  - intros i g _ _. simpl. apply not_elem_of_nil.
  - destruct (settleAll outcomes groups order fresh_model h1) as [m1 h2]. simpl in *.
    rewrite joined_groups, Hgs. simpl.
    eapply Forall2_impl; [done|]. intros i kv (g & o & Hg & Ho & ? & ? & ? & ? & Hno).
    destruct (Hlookup i) as (g' & ? & Href & Hid & Hindex & Hchildren);
      [by apply lookup_lt_Some in Hg; lia|].
    simplify_eq. exists o. split_and!; try congruence.
    intros Hempty. by rewrite (Hno Hempty).
Qed.

(** The elements of every group a fetch cycle registers are distinct
    objects. *)
Lemma settleAll_distinct (outcomes : list ProviderOutcome) (groups : list OutlineGroup)
    (order : list nat) (m : OutlineModel) (h : Heap) :
  Forall (λ g, group_children g = []) groups →
  Forall (λ g, NoDup (elem_ref <$> children_preorder (group_children g)))
    (obj_values (_groups m)) →
  Forall (λ g, NoDup (elem_ref <$> children_preorder (group_children g)))
    (obj_values (_groups (settleAll outcomes groups order m h).1)).
Proof.
  intros Hgroups. revert m h.
  induction order as [|i order IH]; intros m h Hm; simpl; [done|].
  destruct (outcomes !! i) as [o|]; [|by apply IH].
  destruct (groups !! i) as [g|] eqn:Hg; [|by apply IH].
  unfold settle. destruct (onSettled_group o g h) as (_ & _ & _ & _ & Hext).
  destruct (onSettled o g h) as [g' h']. apply IH. simpl in *.
  rewrite Forall_forall in Hm. apply Forall_forall. intros x [->|?]%obj_set_values; [|auto].
  destruct Hext as (new & Hnew & _ & _ & _ & _ & Hnd & _).
  rewrite Forall_lookup in Hgroups. rewrite (Hgroups _ _ Hg), app_nil_l in Hnew.
  by rewrite Hnew.
Qed.

Lemma fetchCycle_groups_distinct (outcomes : list ProviderOutcome) (order : list nat)
    (h : Heap) :
  Forall (λ g, NoDup (elem_ref <$> children_preorder (group_children g)))
    (obj_values (_groups (fetchCycle outcomes order h).1)).
Proof.
  unfold fetchCycle.
  pose proof (λ j, makeGroups_lookup fresh_model (length outcomes) 0 h j eq_refl) as Hlookup.
  pose proof (makeGroups_length fresh_model (length outcomes) 0 h) as Hlen.
  destruct (makeGroups fresh_model 0 (length outcomes) h) as [groups h1]. simpl in *.
  pose proof (settleAll_distinct outcomes groups order fresh_model h1) as Hall.
  destruct (settleAll outcomes groups order fresh_model h1) as [m1 h2]. simpl in *.
  rewrite joined_groups. apply Hall; [|by constructor].
  apply Forall_lookup. intros j g Hg.
  destruct (Hlookup j) as (g' & ? & _ & _ & _ & ?); [by apply lookup_lt_Some in Hg; lia|].
  by simplify_eq.
Qed.

Lemma presented_adopted (cs : JsObj OutlineElement) :
  obj_values (prod_map id ChildElement <$> cs) ≫= child_elements = children_preorder cs.
Proof.
  unfold obj_values. induction cs as [|[k c] cs IH]; [done|].
  rewrite !fmap_cons, bind_cons, IH. done.
Qed.

(** The fetch cycle of a single provider, step by step: its group is
    created, filled when the promise settles, and registered; the
    continuation of the join adopts the children of the group. *)
Lemma fetchCycle_single (o : ProviderOutcome) (h : Heap) :
  ∃ g h1 h2,
    onSettled o (mkOutlineGroup (next h) (provider_group_id 0) 0 [])
      (new_OutlineGroup (provider_group_id 0) 0 h).2 = (g, h1)
    ∧ adopt (group_children g) [] h1
        = (prod_map id ChildElement <$> group_children g, h2)
    ∧ fetchCycle [o] [0] h
        = (mkOutlineModel [(provider_group_id 0, g)]
             (prod_map id ChildElement <$> group_children g), h2)
    ∧ group_id g = provider_group_id 0
    ∧ Forall (λ kv, kv.1 = elem_id kv.2) (group_children g)
    ∧ NoDup (obj_keys (group_children g))
    ∧ NoDup (elem_ref <$> children_preorder (group_children g))
    ∧ scores h2 = scores h1
    ∧ (∀ l, l ∈ elem_ref <$> obj_values (group_children g) →
         get_parent l h2 = Some TheModel).
Proof.
  set (g0 := mkOutlineGroup (next h) (provider_group_id 0) 0 []).
  set (h0 := (new_OutlineGroup (provider_group_id 0) 0 h).2).
  destruct (onSettled_group o g0 h0) as (_ & Hid & _ & _ & Hext).
  destruct (onSettled o g0 h0) as [g h1] eqn:Hsettled. simpl in Hid, Hext.
  destruct Hext as (new & Hnew & Hkeys & Hnd & _ & _ & Hrefs & _).
  rewrite app_nil_l in Hnew. rewrite <-Hnew in *.
  specialize (Hnd (NoDup_nil_2)).
  destruct (adopt_spec (group_children g) [] h1 Hkeys Hnd)
    as (Hadopt & _ & Hscores & Hparents & _).
  destruct (adopt (group_children g) [] h1) as [cs h2] eqn:Hadopted.
  simpl in Hadopt. subst cs.
  exists g, h1, h2. split_and!; try done.
  unfold fetchCycle. cbn [length makeGroups fresh_model model_children].
  rewrite findId_no_children. fold (provider_group_id 0).
  cbn [new_OutlineGroup settleAll lookup list_lookup].
  unfold settle. change (onSettled o _ _) with (onSettled o g0 h0). rewrite Hsettled.
  cbn [_groups]. rewrite Hid.
  unfold joined. cbn [_groups model_children fresh_model obj_set size length first
                      negb Nat.eqb].
  by rewrite Hadopted.
Qed.

(** C1. After a fetch cycle of N providers has completed, whatever the
    order in which the promises settled, [_groups] has N entries, each
    keyed by the id of its group.  When N is not 1 (N = 0 included), the
    model's [children] are these N entries.  When N = 1, [children] are
    the children of the sole group, each keyed by its id and with the
    model as [parent], and no group is among them. *)
Theorem fetchCycle_children (outcomes : list ProviderOutcome) (order : list nat) (h : Heap) :
  order ≡ₚ seq 0 (length outcomes) →
  length (_groups (fetchCycle outcomes order h).1) = length outcomes
  ∧ Forall (λ kv, kv.1 = group_id kv.2) (_groups (fetchCycle outcomes order h).1)
  ∧ group_providerIndex <$> obj_values (_groups (fetchCycle outcomes order h).1) = order
  ∧ (length outcomes ≠ 1 →
       model_children (fetchCycle outcomes order h).1
       = prod_map id ChildGroup <$> _groups (fetchCycle outcomes order h).1)
  ∧ (length outcomes = 1 →
       ∃ g, obj_values (_groups (fetchCycle outcomes order h).1) = [g]
         ∧ model_children (fetchCycle outcomes order h).1
           = prod_map id ChildElement <$> group_children g
         ∧ Forall (λ kv, kv.1 = elem_id kv.2
                         ∧ get_parent (elem_ref kv.2) (fetchCycle outcomes order h).2
                           = Some TheModel) (group_children g)
         ∧ Forall (λ kv, ∀ g', kv.2 ≠ ChildGroup g')
             (model_children (fetchCycle outcomes order h).1)).
Proof.
  intros Hperm. pose proof (fetchCycle_groups outcomes order h Hperm) as Hgroups.
  assert (length (_groups (fetchCycle outcomes order h).1) = length outcomes) as Hlen.
  { rewrite <-(Forall2_length _ _ _ Hgroups), Hperm. apply length_seq. }
  split_and!.
  - done.
  - clear Hlen Hperm. revert Hgroups. generalize (_groups (fetchCycle outcomes order h).1).
    induction 1 as [|i kv order' gs (o & _ & Hkey & Hid & _) _ IH]; [by constructor|].
    constructor; [|done]. by rewrite Hkey, Hid.
  - clear Hlen Hperm. unfold obj_values. revert Hgroups.
    generalize (_groups (fetchCycle outcomes order h).1).
    induction 1 as [|i kv order' gs (o & _ & _ & _ & _ & Hi & _) _ IH]; [done|].
    rewrite !fmap_cons. by rewrite IH, Hi.
  - intros Hne. revert Hlen. unfold fetchCycle.
    destruct (makeGroups _ _ _ _) as [groups h1].
    destruct (settleAll _ _ _ _ _) as [m1 h2].
    rewrite joined_groups. intros Hlen. unfold joined, size. rewrite Hlen.
    by apply Nat.eqb_neq in Hne as ->.
  - intros Hone. destruct outcomes as [|o [|??]]; simplify_eq/=.
    apply Permutation_singleton_r in Hperm as ->.
    destruct (fetchCycle_single o h)
      as (g & h1 & h2 & _ & _ & -> & _ & Hkeys & _ & _ & _ & Hparents).
    exists g. simpl. split_and!; [done..| |].
    + apply Forall_forall. intros [k c] Hkc. rewrite Forall_forall in Hkeys.
      split; [by apply (Hkeys (k, c))|]. apply Hparents. simpl.
      apply list_elem_of_fmap_2. unfold obj_values. apply list_elem_of_fmap.
      by exists (k, c).
    + apply Forall_fmap, Forall_forall. by intros [k c] _ g'.
Qed.

(** ** Providers without symbols *)

Lemma settle_no_symbols (o : ProviderOutcome) (group : OutlineGroup)
    (m : OutlineModel) (h : Heap) :
  no_symbols o = true →
  settle o group m h
  = (mkOutlineModel (obj_set (group_id group) group (_groups m)) (model_children m), h).
Proof.
  intros Hno. unfold settle.
  destruct (onSettled_group o group h) as (_ & _ & _ & Hsame & _).
  by rewrite (Hsame Hno).
Qed.

Lemma settleAll_no_symbols (outcomes outcomes' : list ProviderOutcome)
    (groups : list OutlineGroup) (order : list nat) (m : OutlineModel) (h : Heap) :
  Forall2 (λ o o', o = o' ∨ (no_symbols o = true ∧ no_symbols o' = true))
    outcomes outcomes' →
  settleAll outcomes groups order m h = settleAll outcomes' groups order m h.
Proof.
  intros Hsame. revert m h. induction order as [|i order IH]; intros m h; simpl; [done|].
  pose proof (proj1 (Forall2_lookup _ _ _) Hsame i) as Hi.
  destruct Hi as [o o' [->|[Ho Ho']]|]; [| |done].
  - destruct (groups !! i) as [g|]; [|done]. by destruct (settle o' g m h).
  - destruct (groups !! i) as [g|]; [|done].
    by rewrite (settle_no_symbols o), (settle_no_symbols o').
Qed.

(** C7. A provider whose fetch fails and a provider whose result is
    absent or empty are handled alike: the promise settles normally, the
    group is registered in [_groups] as it was created, without children,
    and the heap is untouched.  The fetch cycle has no failing outcome:
    it ends with a model, and the same model and heap whether a provider
    without symbols failed or returned nothing. *)
Theorem failed_provider_is_empty_group :
  (∀ group m h,
     settle Rejected group m h
     = (mkOutlineModel (obj_set (group_id group) group (_groups m)) (model_children m), h))
  ∧ (∀ group m h, settle (Resolved None) group m h = settle Rejected group m h)
  ∧ (∀ group m h, settle (Resolved (Some [])) group m h = settle Rejected group m h)
  ∧ (∀ outcomes outcomes' order h,
       Forall2 (λ o o', o = o' ∨ (no_symbols o = true ∧ no_symbols o' = true))
         outcomes outcomes' →
       fetchCycle outcomes order h = fetchCycle outcomes' order h)
  ∧ (∀ outcomes order h i o,
       order ≡ₚ seq 0 (length outcomes) →
       outcomes !! i = Some o → no_symbols o = true →
       ∃ g, (provider_group_id i, g) ∈ _groups (fetchCycle outcomes order h).1
         ∧ group_id g = provider_group_id i
         ∧ group_providerIndex g = i
         ∧ group_children g = []).
Proof.
  split_and!.
  - intros. by apply settle_no_symbols.
  - intros. by rewrite !settle_no_symbols.
  - intros. by rewrite !settle_no_symbols.
  - intros outcomes outcomes' order h Hsame. unfold fetchCycle.
    rewrite <-(Forall2_length _ _ _ Hsame).
    destruct (makeGroups _ _ _ _) as [groups h1].
    by rewrite (settleAll_no_symbols outcomes outcomes').
  - intros outcomes order h i o Hperm Hi Hno.
    pose proof (fetchCycle_groups outcomes order h Hperm) as Hgroups.
    assert (i ∈ order) as Hin.
    { rewrite Hperm. apply elem_of_seq. apply lookup_lt_Some in Hi. lia. }
    apply list_elem_of_lookup in Hin as [j Hj].
    destruct (Forall2_lookup_l _ _ _ _ _ Hgroups Hj)
      as ([k g] & Hkg & o' & Ho' & Hkey & Hid & _ & Hindex & Hchildren).
    simpl in *. subst k. simplify_eq. exists g. split_and!; [|done..|by apply Hchildren].
    by apply list_elem_of_lookup_2 in Hkg.
Qed.

(** ** The adopted elements are the elements of the group *)

Lemma updateMatches_single_group (pattern : string) (key : string) (g : OutlineGroup)
    (children : JsObj ModelChild) (h : Heap) :
  updateMatches pattern (mkOutlineModel [(key, g)] children) h
  = group_updateMatches pattern g None h.
Proof.
  unfold updateMatches. simpl.
  destruct (group_updateMatches pattern g None h) as [[top h']|]; done.
Qed.

(** C10. After a fetch cycle with a single provider, the sole group is
    still in [_groups] with its children, and the model's [children] are
    these same elements: the elements the queries go through are the
    elements presented.  [updateMatches] scores the presented elements,
    in the heap where the presented tree reads its scores, scores nothing
    else and returns a presented element; what
    [getItemEnclosingPosition] returns is a presented element. *)
Theorem adopted_elements_shared (o : ProviderOutcome) (h : Heap) :
  ∃ key g,
    _groups (fetchCycle [o] [0] h).1 = [(key, g)]
    ∧ model_children (fetchCycle [o] [0] h).1
      = prod_map id ChildElement <$> group_children g
    ∧ group_elements (fetchCycle [o] [0] h).1 = presented_elements (fetchCycle [o] [0] h).1
    ∧ (∀ pattern, ∃ top h2,
         updateMatches pattern (fetchCycle [o] [0] h).1 (fetchCycle [o] [0] h).2
         = Ok (top, h2)
         ∧ (∀ t, top = Some t → t ∈ presented_elements (fetchCycle [o] [0] h).1)
         ∧ (∀ e, e ∈ presented_elements (fetchCycle [o] [0] h).1 →
              get_score (elem_ref e) h2 = final_score pattern e)
         ∧ (∀ l, l ∉ elem_ref <$> presented_elements (fetchCycle [o] [0] h).1 →
              get_score l h2 = get_score l (fetchCycle [o] [0] h).2))
    ∧ (∀ p r, getItemEnclosingPosition p (fetchCycle [o] [0] h).1 = Some r →
         r ∈ presented_elements (fetchCycle [o] [0] h).1).
Proof.
  destruct (fetchCycle_single o h)
    as (g & h1 & h2 & _ & _ & -> & _ & _ & _ & Hnd & _ & _).
  exists (provider_group_id 0), g. cbn [fst snd _groups model_children].
  assert (presented_elements
            (mkOutlineModel [(provider_group_id 0, g)]
               (prod_map id ChildElement <$> group_children g))
          = children_preorder (group_children g)) as Hpresented.
  { unfold presented_elements. cbn [model_children]. apply presented_adopted. }
  rewrite Hpresented. split_and!; [done..| | |].
  - unfold group_elements, obj_values. cbn -[provider_group_id]. by rewrite app_nil_r.
  - intros pattern. rewrite updateMatches_single_group.
    destruct (group_updateMatches_best pattern g h2 Hnd)
      as (h3 & Hrun & Hscores & Hframe & _).
    exists (fst <$> best pattern (children_preorder (group_children g)) None), h3.
    split_and!; [done| |done..].
    intros t Ht. destruct (best _ _ _) as [[t' v]|] eqn:Hbest; [|done].
    simpl in Ht. simplify_eq.
    by apply best_origin in Hbest as [?|[? _]].
  - intros p r Hr. unfold getItemEnclosingPosition in Hr. simpl in Hr.
    destruct (group_getItemEnclosingPosition p g) as [r'|] eqn:Hg; [|done].
    simplify_eq. unfold group_getItemEnclosingPosition in Hg.
    by apply _getItemEnclosingPosition_Some in Hg as [? _].
Qed.

(** ** Refresh while a fetch cycle is in flight *)

Lemma elem_of_recorded (l : loc) (m : OutlineModel) :
  l ∈ recorded m ↔
  (∃ g, g ∈ obj_values (_groups m)
      ∧ (l = group_ref g ∨ l ∈ elem_ref <$> children_preorder (group_children g)))
  ∨ (∃ c, c ∈ obj_values (model_children m) ∧ l ∈ child_refs c).
Proof.
  unfold recorded, group_elements.
  rewrite !elem_of_app, !list_elem_of_fmap, list_elem_of_bind.
  setoid_rewrite list_elem_of_bind. split.
  - intros [(g & -> & ?)|[(e & -> & g & ? & ?)|(c & ? & ?)]].
    + left. exists g. split; [done | by left].
    + left. exists g. split; [done|]. right. by apply list_elem_of_fmap_2.
    + right. by exists c.
  - intros [(g & ? & [->|(e & -> & ?)%list_elem_of_fmap])|(c & ? & ?)].
    + left. by exists g.
    + right. left. exists e. split; [done|]. by exists g.
    + right. right. by exists c.
Qed.

Lemma settle_next (o : ProviderOutcome) (group : OutlineGroup) (m : OutlineModel) (h : Heap) :
  next h ≤ next (settle o group m h).2.
Proof.
  unfold settle. destruct (onSettled_group o group h) as (_ & _ & _ & _ & Hext).
  destruct (onSettled o group h) as [g' h']. simpl in *.
  by destruct Hext as (new & _ & _ & _ & ? & _).
Qed.

Lemma settle_recorded (base : loc) (o : ProviderOutcome) (group : OutlineGroup)
    (m : OutlineModel) (h : Heap) :
  base ≤ next h → base ≤ group_ref group → group_children group = [] →
  Forall (λ l, base ≤ l) (recorded m) →
  Forall (λ l, base ≤ l) (recorded (settle o group m h).1).
Proof.
  intros Hnext Href Hempty Hm. unfold settle.
  destruct (onSettled_group o group h) as (Href' & _ & _ & _ & Hext).
  destruct (onSettled o group h) as [g' h']. simpl in *.
  destruct Hext as (new & Hnew & _ & _ & _ & Hrefs & _).
  rewrite Hempty, app_nil_l in Hnew. rewrite <-Hnew in Hrefs.
  rewrite Forall_forall in Hm, Hrefs. apply Forall_forall. intros l Hl.
  apply elem_of_recorded in Hl as [(g & Hg & Hl)|(c & Hc & Hl)]; simpl in *.
  - apply obj_set_values in Hg as [->|Hg].
    + destruct Hl as [->|Hl]; [lia|]. specialize (Hrefs _ Hl). lia.
    + apply Hm, elem_of_recorded. left. by exists g.
  - apply Hm, elem_of_recorded. right. by exists c.
Qed.

Lemma adopt_values (group_children : JsObj OutlineElement)
    (children : JsObj ModelChild) (h : Heap) (c : ModelChild) :
  c ∈ obj_values (adopt group_children children h).1 →
  c ∈ obj_values children
  ∨ ∃ e, c = ChildElement e ∧ e ∈ obj_values group_children.
Proof.
  revert children h. induction group_children as [|[k e] gcs IH]; intros cs h; simpl.
  { by left. }
  intros [Hc|(e' & -> & He')]%IH.
  - apply obj_set_values in Hc as [->|?]; [|by left].
    right. exists e. split; [done | left].
  - right. exists e'. split; [done | by right].
Qed.

Lemma adopt_next (group_children : JsObj OutlineElement)
    (children : JsObj ModelChild) (h : Heap) :
  next (adopt group_children children h).2 = next h.
Proof.
  revert children h. induction group_children as [|[k e] gcs IH]; intros cs h; simpl; [done|].
  by rewrite IH.
Qed.

Lemma first_values {A : Type} (obj : JsObj A) (v : A) :
  first obj = Some v → v ∈ obj_values obj.
Proof. destruct obj as [|[k x] obj]; [done|]. intros [= ->]. left. Qed.

Lemma joined_next (m : OutlineModel) (h : Heap) : next (joined m h).2 = next h.
Proof.
  unfold joined. destruct (negb _); [done|].
  destruct (first (_groups m)) as [g|]; [|done].
  pose proof (adopt_next (group_children g) (model_children m) h).
  by destruct (adopt _ _ _).
Qed.

Lemma joined_recorded (base : loc) (m : OutlineModel) (h : Heap) :
  Forall (λ l, base ≤ l) (recorded m) →
  Forall (λ l, base ≤ l) (recorded (joined m h).1).
Proof.
  intros Hm. rewrite Forall_forall in Hm. apply Forall_forall. intros l Hl.
  apply Hm, elem_of_recorded. unfold joined in Hl.
  destruct (negb _).
  - apply elem_of_recorded in Hl as [?|(c & Hc & Hl)]; simpl in *; [by left|].
    left. unfold obj_values in Hc. rewrite <-list_fmap_compose in Hc.
    apply list_elem_of_fmap in Hc as ([k g] & -> & Hg). simpl in *.
    exists g. split; [apply list_elem_of_fmap; by exists (k, g)|].
    by apply elem_of_cons in Hl.
  - destruct (first (_groups m)) as [g|] eqn:Hfirst; [|by apply elem_of_recorded].
    pose proof (adopt_values (group_children g) (model_children m) h) as Hvalues.
    destruct (adopt _ _ _) as [cs h']. simpl in *.
    apply elem_of_recorded in Hl as [?|(c & Hc & Hl)]; simpl in *; [by left|].
    destruct (Hvalues _ Hc) as [?|(e & -> & He)]; [right; by exists c|].
    left. exists g. split; [by apply first_values|]. right. simpl in Hl.
    apply list_elem_of_fmap in Hl as (x & -> & Hx). apply list_elem_of_fmap_2.
    unfold obj_values in He. apply list_elem_of_fmap in He as ([k e'] & -> & He).
    apply elem_of_children_preorder. by exists k, e'.
Qed.

Lemma startCycle_current_only (requests : list Request) (providers : nat) (h : Heap) :
  current_only (startCycle requests providers h)
  ∧ w_base (startCycle requests providers h) = next h
  ∧ w_cycle (startCycle requests providers h) = length requests.
Proof.
  unfold startCycle.
  pose proof (makeGroups_heap fresh_model providers 0 h) as [Hnext _].
  pose proof (λ j, makeGroups_lookup fresh_model providers 0 h j eq_refl) as Hlookup.
  pose proof (makeGroups_length fresh_model providers 0 h) as Hlen.
  destruct (makeGroups fresh_model 0 providers h) as [groups h']. simpl in *.
  assert (Forall (λ g, next h ≤ group_ref g ∧ group_children g = []) groups) as Hgroups.
  { apply Forall_lookup. intros j g Hg.
    destruct (Hlookup j) as (g' & ? & ? & _ & _ & ?); [by apply lookup_lt_Some in Hg; lia|].
    simplify_eq. split; [lia | done]. }
  assert (pred (length (requests ++ [mkRequest groups []])) = length requests) as Hcycle.
  { rewrite length_app. simpl. lia. }
  assert (∃ request,
            (requests ++ [mkRequest groups []]) !! pred (length (requests ++ [mkRequest groups []]))
              = Some request
            ∧ Forall (λ g, next h ≤ group_ref g ∧ group_children g = [])
                (req_groups request)) as Hcurrent.
  { exists (mkRequest groups []). split; [|done].
    rewrite Hcycle. by apply list_lookup_middle. }
  destruct (Nat.eqb providers 0).
  - pose proof (joined_next fresh_model h') as Hjnext.
    pose proof (joined_recorded (next h) fresh_model h' (Forall_nil_2 _)) as Hjrec.
    destruct (joined fresh_model h') as [m h'']. cbn [fst snd] in *.
    split; [|by split]. unfold current_only, w_cycle. simpl.
    split_and!; [lia | done | done].
  - split; [|by split]. unfold current_only, w_cycle. simpl.
    split_and!; [lia | done | by constructor].
Qed.

Lemma step_current_only (w : World) (ev : Event) :
  current_only w →
  current_only (step w ev)
  ∧ w_base w ≤ w_base (step w ev)
  ∧ w_cycle w ≤ w_cycle (step w ev).
Proof.
  intros Hw. pose proof Hw as (Hnext & (request & Hrequest & Hgroups) & Hrec).
  assert (current_only w ∧ w_base w ≤ w_base w ∧ w_cycle w ≤ w_cycle w) as Hstay.
  { split; [exact Hw | by split]. }
  destruct ev as [providers|cycle index o]; simpl.
  { destruct (startCycle_current_only (w_requests w) providers (w_heap w))
      as (? & -> & ->).
    split; [done|]. split; [done | unfold w_cycle; lia]. }
  unfold cancelled. destruct (Nat.ltb_spec cycle (w_cycle w)) as [|Hcycle]; [done|].
  unfold deliver. destruct (w_requests w !! cycle) as [request'|] eqn:Hrequest'; [|done].
  assert (cycle = w_cycle w) as ->.
  { apply lookup_lt_Some in Hrequest'. unfold w_cycle in *. lia. }
  rewrite Hrequest in Hrequest'. injection Hrequest' as <-.
  destruct (req_groups request !! index) as [group|] eqn:Hgroup; [|done].
  case_bool_decide; [done|]. clear Hstay.
  rewrite Forall_lookup in Hgroups. destruct (Hgroups _ _ Hgroup) as [Href Hempty].
  pose proof (settle_next o group (w_model w) (w_heap w)) as Hsnext.
  pose proof (settle_recorded (w_base w) o group (w_model w) (w_heap w)
                Hnext Href Hempty Hrec) as Hsrec.
  destruct (settle o group (w_model w) (w_heap w)) as [m h]. cbn [fst snd] in *.
  assert (∀ m' h', w_cycle (mkWorld m' h' (w_base w)
            (<[w_cycle w := mkRequest (req_groups request) (index :: req_settled request)]>
               (w_requests w))) = w_cycle w) as Hsame.
  { intros m' h'. unfold w_cycle. simpl. by rewrite length_insert. }
  assert (∀ m' h', ∃ request',
            w_requests (mkWorld m' h' (w_base w)
              (<[w_cycle w := mkRequest (req_groups request) (index :: req_settled request)]>
                 (w_requests w)))
            !! w_cycle (mkWorld m' h' (w_base w)
              (<[w_cycle w := mkRequest (req_groups request) (index :: req_settled request)]>
                 (w_requests w))) = Some request'
            ∧ Forall (λ g, w_base w ≤ group_ref g ∧ group_children g = [])
                (req_groups request')) as Hcurrent.
  { intros m' h'. rewrite Hsame. eexists. simpl. split.
    - apply list_lookup_insert_eq. by apply lookup_lt_Some in Hrequest.
    - simpl. by apply Forall_lookup. }
  lazymatch goal with |- context [if ?b then joined _ _ else _] => destruct b end.
  - pose proof (joined_next m h) as Hjnext.
    pose proof (joined_recorded (w_base w) m h Hsrec) as Hjrec.
    destruct (joined m h) as [m' h']. cbn [fst snd] in *.
    split; [|split; [done | by rewrite Hsame]].
    split; [simpl; lia|]. split; [apply Hcurrent | done].
  - split; [|split; [done | by rewrite Hsame]].
    split; [simpl; lia|]. split; [apply Hcurrent | done].
Qed.

Lemma run_current_only (w : World) (events : list Event) :
  current_only w →
  current_only (run w events) ∧ w_base w ≤ w_base (run w events).
Proof.
  revert w. induction events as [|ev events IH]; intros w Hw; simpl; [by split|].
  destruct (step_current_only w ev Hw) as (Hstep & Hbase & _).
  destruct (IH _ Hstep) as [? ?]. split; [done | lia].
Qed.

Lemma step_cycle_mono (w : World) (ev : Event) : w_cycle w ≤ w_cycle (step w ev).
Proof.
  destruct ev as [providers|cycle index o]; simpl.
  { destruct (startCycle_current_only (w_requests w) providers (w_heap w))
      as (_ & _ & ->). unfold w_cycle. lia. }
  destruct (cancelled cycle w); [done|]. unfold deliver.
  destruct (w_requests w !! cycle) as [request|]; [|done].
  destruct (req_groups request !! index) as [group|]; [|done].
  case_bool_decide; [done|].
  destruct (settle o group (w_model w) (w_heap w)) as [m h].
  lazymatch goal with |- context [if ?b then joined _ _ else _] => destruct b end.
  - destruct (joined m h) as [m' h']. unfold w_cycle. simpl. by rewrite length_insert.
  - unfold w_cycle. simpl. by rewrite length_insert.
Qed.

(** The settlements of the promises of cancelled requests can be left
    out of a run. *)
Lemma run_skips_late (cycle : nat) (events : list Event) (w : World) :
  cycle ≤ w_cycle w →
  run w (filter (λ ev, negb (late cycle ev)) events) = run w events.
Proof.
  revert w. induction events as [|ev events IH]; intros w Hcycle; [done|].
  pose proof (step_cycle_mono w ev) as Hmono.
  rewrite filter_cons. destruct (decide (negb (late cycle ev))) as [Hev|Hev].
  - cbn [run foldl]. apply IH. lia.
  - rewrite IH by done. cbn [run foldl]. f_equal.
    destruct ev as [providers|c index o]; cbn [late negb] in Hev; [done|].
    destruct (Nat.ltb_spec c cycle) as [Hc|]; [|done].
    cbn [step]. unfold cancelled. by rewrite (proj2 (Nat.ltb_lt _ _)) by lia.
Qed.

Lemma run_settlements (outcomes : list ProviderOutcome) (order : list nat)
    (m : OutlineModel) (h : Heap) (base : loc) (groups : list OutlineGroup)
    (settled : list nat) :
  length groups = length outcomes →
  NoDup (order ++ settled) →
  (∀ i, i ∈ order → i < length outcomes) →
  length order + length settled = length outcomes →
  order ≠ [] →
  (w_model (run (mkWorld m h base [mkRequest groups settled]) (settlements outcomes order)),
   w_heap (run (mkWorld m h base [mkRequest groups settled]) (settlements outcomes order)))
  = joined (settleAll outcomes groups order m h).1 (settleAll outcomes groups order m h).2.
Proof.
  revert m h settled.
  induction order as [|i order IH]; intros m h settled Hgroups Hnd Hbound Hlen Hne; [done|].
  destruct (lookup_lt_is_Some_2 outcomes i) as [o Ho]; [apply Hbound; left|].
  destruct (lookup_lt_is_Some_2 groups i) as [g Hg].
  { rewrite Hgroups. apply Hbound. left. }
  unfold settlements. cbn [omap list_omap]. rewrite Ho. cbn [fmap option_fmap option_map].
  fold (settlements outcomes order). cbn [run foldl].
  fold (run (step (mkWorld m h base [mkRequest groups settled]) (Settles 0 i o))).
  cbn [settleAll]. rewrite Ho, Hg.
  assert (step (mkWorld m h base [mkRequest groups settled]) (Settles 0 i o)
          = deliver 0 i o (mkWorld m h base [mkRequest groups settled])) as -> by done.
  unfold deliver. cbn [w_requests lookup list_lookup req_groups req_settled w_model w_heap
                       w_base].
  rewrite Hg.
  apply NoDup_cons in Hnd as [Hi Hnd]. rewrite not_elem_of_app in Hi.
  destruct Hi as [Hi_order Hi_settled].
  rewrite bool_decide_eq_false_2 by done.
  destruct (settle o g m h) as [m1 h1].
  change (<[0 := mkRequest groups (i :: settled)]> [mkRequest groups settled])
    with [mkRequest groups (i :: settled)].
  destruct order as [|j order].
  - cbn [length] in *. rewrite Hgroups. rewrite (proj2 (Nat.eqb_eq _ _)) by lia.
    cbn [settlements omap list_omap foldl settleAll fst snd].
    by destruct (joined m1 h1).
  - rewrite (proj2 (Nat.eqb_neq _ _)) by (cbn [length] in *; lia).
    rewrite IH; try done.
    + change (NoDup ((j :: order) ++ settled)) in Hnd.
      apply NoDup_app in Hnd as (Hnd1 & Hdisj & Hnd2).
      apply NoDup_app. split_and!; [done| |].
      * intros x Hx [->|?]%elem_of_cons; [done | by apply (Hdisj x)].
      * by apply NoDup_cons.
    + intros ??. apply Hbound. by right.
    + cbn [length] in *. lia.
Qed.

(** An uninterrupted run of the first cycle is the fetch cycle. *)
Lemma run_fetchCycle (outcomes : list ProviderOutcome) (order : list nat) (h : Heap) :
  order ≡ₚ seq 0 (length outcomes) →
  (w_model (run (construct (length outcomes) h) (settlements outcomes order)),
   w_heap (run (construct (length outcomes) h) (settlements outcomes order)))
  = fetchCycle outcomes order h.
Proof.
  intros Hperm. unfold construct, startCycle, fetchCycle.
  pose proof (makeGroups_length fresh_model (length outcomes) 0 h) as Hlen.
  destruct (makeGroups fresh_model 0 (length outcomes) h) as [groups h']. simpl in Hlen.
  destruct outcomes as [|o outcomes].
  - apply Permutation_nil_r in Hperm as ->. cbn. by destruct (joined fresh_model h').
  - cbn [length Nat.eqb app].
    rewrite run_settlements; [by destruct (settleAll _ _ _ _ _) | done | | | |].
    + rewrite app_nil_r, Hperm. apply NoDup_seq.
    + intros i Hi. rewrite Hperm in Hi. apply elem_of_seq in Hi. cbn [length] in *. lia.
    + rewrite Hperm, length_seq. cbn [length]. lia.
    + intros ->. by apply Permutation_nil_l in Hperm.
Qed.

(** The callback of a promise, as written, has no test of its own: if
    it runs, it registers its group in the current [_groups]. *)
Lemma settle_registers (o : ProviderOutcome) (group : OutlineGroup)
    (m : OutlineModel) (h : Heap) :
  ∃ g, obj_get (group_id group) (_groups (settle o group m h).1) = Some g
     ∧ group_ref g = group_ref group.
Proof.
  unfold settle. destruct (onSettled_group o group h) as (Href & Hid & _).
  destruct (onSettled o group h) as [g h']. simpl in *.
  exists g. by rewrite Hid, obj_get_set_eq.
Qed.

(** So the cancellation is what keeps a late result out: were the
    callbacks of a promise of an earlier request to run, the group of
    that request would be in the [_groups] of the model. *)
Lemma deliver_registers (cycle index : nat) (o : ProviderOutcome) (w : World)
    (request : Request) (group : OutlineGroup) :
  w_requests w !! cycle = Some request →
  req_groups request !! index = Some group →
  index ∉ req_settled request →
  ∃ g, obj_get (group_id group) (_groups (w_model (deliver cycle index o w))) = Some g
     ∧ group_ref g = group_ref group.
Proof.
  intros Hrequest Hgroup Hnew. unfold deliver. rewrite Hrequest, Hgroup.
  rewrite bool_decide_eq_false_2 by done.
  destruct (settle_registers o group (w_model w) (w_heap w)) as (g & Hg & Href).
  destruct (settle o group (w_model w) (w_heap w)) as [m h]. cbn [fst] in Hg.
  lazymatch goal with |- context [if ?b then joined _ _ else _] => destruct b end.
  - pose proof (joined_groups m h) as Hjoined.
    destruct (joined m h) as [m' h']. cbn [fst w_model] in *. exists g. by rewrite Hjoined.
  - by exists g.
Qed.

(** C6. Whatever happens before [refresh()] is called and whatever
    happens after it, late settlements of the promises of the requests
    made before the call included, the objects recorded in [_groups] and
    in [children] were all allocated after the call: no group and no
    element of a cycle that was in flight when [refresh()] was called is
    recorded, although the callbacks of that cycle hold its groups.
    These late settlements have no effect on the state: the run is the
    run without them. *)
Theorem refresh_discards_cancelled_cycle (providers : nat) (h : Heap)
    (before : list Event) (providers' : nat) (after : list Event) :
  Forall (λ l, next (w_heap (run (construct providers h) before)) ≤ l)
    (recorded (w_model
       (run (construct providers h) (before ++ Refresh providers' :: after))))
  ∧ run (construct providers h) (before ++ Refresh providers' :: after)
    = run (construct providers h)
        (before ++ Refresh providers'
           :: filter (λ ev, negb (late (length (w_requests
                                          (run (construct providers h) before))) ev))
                after).
Proof.
  unfold run. rewrite !foldl_app. simpl. fold (run (construct providers h) before).
  set (w1 := run (construct providers h) before).
  destruct (startCycle_current_only (w_requests w1) providers' (w_heap w1))
    as (Hstart & Hbase & Hcycle).
  split.
  - destruct (run_current_only _ after Hstart) as [(_ & _ & Hrec) Hmono].
    eapply Forall_impl; [exact Hrec|]. intros l Hl. simpl in *.
    unfold run in *. lia.
  - symmetry. apply run_skips_late. by rewrite Hcycle.
Qed.

(** ** What building a tree keeps and adds *)

Lemma info_preorder_unfold (info : SymbolInformation) :
  info_preorder info
  = info :: match info_children info with
            | None => []
            | Some infos => infos_preorder infos
            end.
Proof. by destruct info as [name dr lr [infos|]]. Qed.

Lemma findId_free {A : Type} (s container_id : string) (cs : JsObj A) :
  obj_get (container_id +:+ s) cs = None → findId s container_id cs = container_id +:+ s.
Proof. intros Hfree. unfold findId. destruct (length cs); simpl; by rewrite Hfree. Qed.

(** The element [_makeOutlineElement] makes and where it puts it. *)
Lemma _makeOutlineElement_res (info : SymbolInformation) (container_ref : loc)
    (container_id : string) (cs : JsObj OutlineElement) (h : Heap) :
  ∃ res,
    (_makeOutlineElement info container_ref container_id cs h).1
      = cs ++ [(elem_id res, res)]
    ∧ elem_id res = findId (info_name info) container_id cs
    ∧ elem_symbol res = info
    ∧ elem_ref res = next h
    ∧ next h < next (_makeOutlineElement info container_ref container_id cs h).2
    ∧ elem_children res
      = match info_children info with
        | None => []
        | Some infos =>
            (makeOutlineElements infos (next h) (elem_id res) []
               (new_OutlineElement (elem_id res) (Obj container_ref) info h).2).1
        end.
Proof.
  pose proof (_makeOutlineElement_extends info container_ref container_id cs h) as Hext.
  revert Hext. rewrite _makeOutlineElement_unfold.
  set (id := findId (info_name info) container_id cs).
  set (h1 := (new_OutlineElement id (Obj container_ref) info h).2).
  unfold new_OutlineElement. cbn [elem_ref elem_children].
  lazymatch goal with
  | |- context [let (_, _) := ?t in _] =>
      assert (t.1 = match info_children info with
                    | None => []
                    | Some infos => (makeOutlineElements infos (next h) id [] h1).1
                    end) as Hrc by (by destruct (info_children info));
      destruct t as [rc h2]
  end.
  cbn [fst snd] in *. intros (new & Hnew & _ & _ & _ & Hrefs & _).
  rewrite obj_set_fresh in Hnew |- * by apply findId_fresh.
  apply (inj (app cs)) in Hnew. subst new.
  rewrite children_preorder_singleton, fmap_cons, Forall_cons in Hrefs.
  exists (mkOutlineElement (next h) id info rc). cbn [elem_id elem_symbol elem_ref elem_children] in *.
  split_and!; try done. lia.
Qed.

Lemma all_digits_app (s t : string) :
  all_digits (s +:+ t) = all_digits s && all_digits t.
Proof.
  induction s as [|c s IH]; [done|].
  change (is_digit c && all_digits (s +:+ t) = is_digit c && all_digits s && all_digits t).
  rewrite IH. by destruct (is_digit c).
Qed.

(** The ids made in a container whose id is not made of digits are not
    made of digits: they are not array indices. *)
Lemma findId_not_index {A : Type} (candidate container_id : string) (cs : JsObj A) :
  all_digits container_id = false →
  all_digits (findId candidate container_id cs) = false.
Proof.
  intros Hid. destruct (findId_prefix candidate container_id cs) as [suffix ->].
  by rewrite all_digits_app, Hid.
Qed.

(** X1. [_makeOutlineElement(info, container)], for a container whose
    id is not made of digits, adds one child to the container, after the
    children it has, under an id that was free and is not an array index:
    the new element is found under its id, and every other key gives what
    it gave before. *)
Theorem _makeOutlineElement_appends (info : SymbolInformation) (container_ref : loc)
    (container_id : string) (cs : JsObj OutlineElement) (h : Heap) :
  all_digits container_id = false →
  ∃ res,
    (_makeOutlineElement info container_ref container_id cs h).1
      = cs ++ [(elem_id res, res)]
    ∧ elem_id res = findId (info_name info) container_id cs
    ∧ elem_symbol res = info
    ∧ elem_ref res = next h
    ∧ obj_get (elem_id res) (_makeOutlineElement info container_ref container_id cs h).1
      = Some res
    ∧ (∀ key, key ≠ elem_id res →
         obj_get key (_makeOutlineElement info container_ref container_id cs h).1
         = obj_get key cs)
    ∧ size (_makeOutlineElement info container_ref container_id cs h).1 = S (size cs)
    ∧ all_digits (elem_id res) = false.
Proof.
  intros Hplain.
  destruct (_makeOutlineElement_res info container_ref container_id cs h)
    as (res & Hres & Hid & Hsymbol & Href & _).
  pose proof (findId_fresh (info_name info) container_id cs) as Hfresh.
  rewrite <-Hid in Hfresh.
  exists res. rewrite Hres. split_and!; try done.
  - rewrite <-(obj_set_fresh _ res) by done. apply obj_get_set_eq.
  - intros key Hkey. rewrite <-(obj_set_fresh _ res) by done. by apply obj_get_set_ne.
  - unfold size. rewrite length_app. simpl. lia.
  - rewrite Hid. by apply findId_not_index.
Qed.

Lemma makeOutlineElements_symbols_from (infos : list SymbolInformation) :
  Forall (λ info, ∀ container_ref container_id cs h,
            elem_symbol <$> children_preorder
              (_makeOutlineElement info container_ref container_id cs h).1
            = (elem_symbol <$> children_preorder cs) ++ info_preorder info) infos →
  ∀ container_ref container_id cs h,
    elem_symbol <$> children_preorder
      (makeOutlineElements infos container_ref container_id cs h).1
    = (elem_symbol <$> children_preorder cs) ++ infos_preorder infos.
Proof.
  induction 1 as [|info infos Hinfo _ IH]; intros container_ref container_id cs h; simpl.
  { by rewrite app_nil_r. }
  specialize (Hinfo container_ref container_id cs h).
  destruct (_makeOutlineElement info container_ref container_id cs h) as [cs1 h1].
  simpl in Hinfo. by rewrite IH, Hinfo, (assoc (++)).
Qed.

Lemma _makeOutlineElement_symbols (info : SymbolInformation) (container_ref : loc)
    (container_id : string) (cs : JsObj OutlineElement) (h : Heap) :
  elem_symbol <$> children_preorder
    (_makeOutlineElement info container_ref container_id cs h).1
  = (elem_symbol <$> children_preorder cs) ++ info_preorder info.
Proof.
  revert container_ref container_id cs h.
  induction info as [name dr lr children IH] using SymbolInformation_ind.
  intros container_ref container_id cs h.
  rewrite _makeOutlineElement_unfold, info_preorder_unfold.
  set (info := mkSymbolInformation name dr lr children).
  set (id := findId (info_name info) container_id cs).
  unfold new_OutlineElement. cbn [elem_ref elem_children].
  set (h1 := mkHeap (S (next h)) _ _).
  lazymatch goal with
  | |- context [let (_, _) := ?t in _] =>
      assert (elem_symbol <$> children_preorder t.1
              = match info_children info with
                | None => []
                | Some infos => infos_preorder infos
                end) as Hrc;
      [|destruct t as [rc h2]]
  end.
  { simpl. destruct children as [infos|]; [|done].
    by rewrite (makeOutlineElements_symbols_from infos IH). }
  cbn [fst] in *. rewrite obj_set_fresh by apply findId_fresh.
  rewrite children_preorder_app, children_preorder_singleton, fmap_app, fmap_cons.
  cbn [elem_symbol elem_children]. by rewrite Hrc.
Qed.

(** X2. The one callback that fills a group, for a group whose id is
    not made of digits (as the ids of the groups of the model, which
    start with [root]), visits the symbols of the provider in the order
    of their nesting and makes one element for each of them, after the
    elements the group has: no symbol is dropped or merged, also when
    names repeat. *)
Theorem onSettled_symbols (infos : list SymbolInformation) (group : OutlineGroup)
    (h : Heap) :
  all_digits (group_id group) = false →
  elem_symbol <$> children_preorder
    (group_children (onSettled (Resolved (Some infos)) group h).1)
  = (elem_symbol <$> children_preorder (group_children group)) ++ infos_preorder infos.
Proof.
  intros _. unfold onSettled. destruct infos as [|info infos]; cbn [isFalsyOrEmpty negb default].
  { cbn. by rewrite app_nil_r. }
  pose proof (makeOutlineElements_symbols_from (info :: infos)
    (proj2 (Forall_forall _ _) (λ i _, _makeOutlineElement_symbols i))
    (group_ref group) (group_id group) (group_children group) h) as Hsym.
  by destruct (makeOutlineElements _ _ _ _ h) as [cs h'].
Qed.

Lemma _makeOutlineElement_keys (info : SymbolInformation) (container_ref : loc)
    (container_id : string) (cs : JsObj OutlineElement) (h : Heap) :
  obj_keys (_makeOutlineElement info container_ref container_id cs h).1
  = obj_keys cs ++ [findId (info_name info) container_id cs].
Proof.
  rewrite _makeOutlineElement_unfold. unfold new_OutlineElement.
  lazymatch goal with
  | |- context [let (_, _) := ?t in _] => destruct t as [rc h2]
  end.
  cbn [fst]. rewrite obj_set_fresh by apply findId_fresh. by rewrite obj_keys_app.
Qed.

(** When the first [k] candidates are the keys, the next id is the
    candidate number [k]. *)
Lemma findId_next_candidate {A : Type} (s container_id : string) (cs : JsObj A) (k : nat) :
  obj_keys cs = candidateId (container_id +:+ s) <$> seq 0 k →
  findId s container_id cs = candidateId (container_id +:+ s) k.
Proof.
  intros Hkeys. destruct (findId_candidate s container_id cs) as (j & -> & Hfree & Htaken).
  f_equal. apply obj_get_None in Hfree. rewrite Hkeys in Hfree.
  destruct (decide (j < k)) as [Hlt|Hge].
  { destruct Hfree. apply list_elem_of_fmap_2, elem_of_seq. lia. }
  destruct (decide (k < j)) as [Hgt|?]; [|lia].
  specialize (Htaken k Hgt). apply not_eq_None_Some, obj_get_is_Some in Htaken.
  rewrite Hkeys in Htaken. apply list_elem_of_fmap in Htaken as (i & Hi%(inj _) & Hin).
  apply elem_of_seq in Hin. lia.
Qed.

Lemma makeOutlineElements_same_name (s : string) (infos : list SymbolInformation)
    (container_ref : loc) (container_id : string) (cs : JsObj OutlineElement)
    (h : Heap) (k : nat) :
  Forall (λ info, info_name info = s) infos →
  obj_keys cs = candidateId (container_id +:+ s) <$> seq 0 k →
  obj_keys (makeOutlineElements infos container_ref container_id cs h).1
  = candidateId (container_id +:+ s) <$> seq 0 (k + length infos).
Proof.
  intros Hnames. revert cs h k.
  induction Hnames as [|info infos Hname _ IH]; intros cs h k Hkeys; simpl.
  { by rewrite Nat.add_0_r. }
  pose proof (_makeOutlineElement_keys info container_ref container_id cs h) as Hstep.
  destruct (_makeOutlineElement info container_ref container_id cs h) as [cs1 h1].
  simpl in Hstep. rewrite (IH cs1 h1 (S k)).
  - f_equal. f_equal. lia.
  - rewrite Hstep, Hname, (findId_next_candidate s container_id cs k Hkeys), Hkeys.
    by rewrite seq_S, fmap_app.
Qed.

(** X3. Symbols of one name in a container that is empty and whose id
    is not made of digits: the first keeps the name, the others are
    numbered 1, 2, ... in the order they come in, and none of the keys
    is an array index. *)
Theorem same_name_numbered (s : string) (infos : list SymbolInformation)
    (container_ref : loc) (container_id : string) (h : Heap) :
  all_digits container_id = false →
  Forall (λ info, info_name info = s) infos →
  obj_keys (makeOutlineElements infos container_ref container_id [] h).1
  = candidateId (container_id +:+ s) <$> seq 0 (length infos).
Proof.
  intros _ Hnames.
  by apply (makeOutlineElements_same_name s infos container_ref container_id [] h 0).
Qed.

Lemma string_app_eq_l (s t : string) : s = s +:+ t → t = "".
Proof.
  intros Heq. rewrite <-(string_app_nil_r s) in Heq at 1.
  by apply (inj (String.app s)) in Heq.
Qed.

Lemma string_app_eq_nil (s t : string) : s +:+ t = "" → t = "".
Proof. by destruct s. Qed.

(** X4. Ids are made by concatenation, so an element below a first symbol
    and a later sibling of that symbol can get the same id: in a
    container whose id is not made of digits, for a symbol [a] with the
    one child [b] and a sibling named [a + b], the element of [b] and the
    element of the sibling are two objects with one id, and the lookup by
    that id gives the nested one. *)
Theorem nested_and_sibling_share_id (outer inner sibling : SymbolInformation)
    (index : nat) (container_ref : loc) (container_id : string) (h : Heap) :
  all_digits container_id = false →
  info_children outer = Some [inner] →
  info_name inner ≠ "" →
  info_name sibling = info_name outer +:+ info_name inner →
  ∃ e1 c e2,
    (makeOutlineElements [outer; sibling] container_ref container_id [] h).1
      = [(elem_id e1, e1); (elem_id e2, e2)]
    ∧ elem_children e1 = [(elem_id c, c)]
    ∧ elem_symbol c = inner
    ∧ elem_symbol e2 = sibling
    ∧ elem_ref c ≠ elem_ref e2
    ∧ elem_id c = elem_id e2
    ∧ getElementById (elem_id e2)
        (IsGroup (mkOutlineGroup container_ref container_id index
                    [(elem_id e1, e1); (elem_id e2, e2)]))
      = Some (IsElement c).
Proof.
  intros _ Houter Hinner Hsibling.
  pose proof (makeOutlineElements_extends [outer; sibling]
    (proj2 (Forall_forall _ _) (λ i _, _makeOutlineElement_extends i))
    container_ref container_id [] h) as (new & Hnew & _ & _ & _ & _ & Hnd & _).
  revert Hnew. cbn [makeOutlineElements].
  destruct (_makeOutlineElement_res outer container_ref container_id [] h)
    as (e1 & Hres1 & Hid1 & _ & _ & _ & Hch1).
  rewrite findId_no_children in Hid1. rewrite Houter in Hch1.
  cbn [makeOutlineElements] in Hch1.
  destruct (_makeOutlineElement_res inner (next h) (elem_id e1) []
              (new_OutlineElement (elem_id e1) (Obj container_ref) outer h).2)
    as (c & Hresc & Hidc & Hsymc & _).
  rewrite findId_no_children in Hidc.
  destruct (_makeOutlineElement inner (next h) (elem_id e1) [] _) as [rc hc].
  cbn [fst] in Hresc, Hch1. rewrite Hresc, app_nil_l in Hch1.
  destruct (_makeOutlineElement outer container_ref container_id [] h) as [cs1 h1].
  cbn [fst] in Hres1. rewrite app_nil_l in Hres1. subst cs1.
  destruct (_makeOutlineElement_res sibling container_ref container_id
              [(elem_id e1, e1)] h1) as (e2 & Hres2 & Hid2 & Hsym2 & _).
  assert (elem_id e1 ≠ container_id +:+ info_name sibling) as Hne1.
  { rewrite Hid1, Hsibling. intros Heq. apply (inj _) in Heq.
    by apply string_app_eq_l in Heq. }
  rewrite findId_free in Hid2;
    [|cbn [obj_get]; by apply String.eqb_neq in Hne1 as ->].
  destruct (_makeOutlineElement sibling container_ref container_id _ h1) as [cs2 h2].
  cbn [fst] in Hres2 |- *. intros Hnew. rewrite app_nil_l in Hnew. subst new.
  assert (elem_id c = elem_id e2) as Hsame.
  { by rewrite Hidc, Hid1, Hid2, Hsibling, string_app_assoc. }
  exists e1, c, e2. split_and!; try done.
  - intros Href. rewrite Hres2 in Hnd.
    change (children_preorder ([(elem_id e1, e1)] ++ [(elem_id e2, e2)]))
      with (elem_preorder e1 ++ elem_preorder e2 ++ []) in Hnd.
    rewrite app_nil_r, (elem_preorder_unfold e1), Hch1 in Hnd.
    rewrite children_preorder_singleton, (elem_preorder_unfold e2) in Hnd.
    rewrite fmap_app, !fmap_cons, Href in Hnd.
    apply NoDup_app in Hnd as (_ & Hdisj & _).
    apply (Hdisj (elem_ref e2)); [right|]; left.
  - rewrite getElementById_preorder. unfold preorder, group_preorder.
    cbn [group_children].
    change (children_preorder [(elem_id e1, e1); (elem_id e2, e2)])
      with (elem_preorder e1 ++ elem_preorder e2 ++ []).
    rewrite (elem_preorder_unfold e1), Hch1, children_preorder_singleton.
    cbn [app fmap list_fmap find tree_id group_id].
    assert (container_id ≠ elem_id e2) as Hneg.
    { rewrite Hid2, Hsibling. intros Heq%string_app_eq_l%string_app_eq_nil. done. }
    apply String.eqb_neq in Hneg as ->.
    rewrite Hid2 in *. apply String.eqb_neq in Hne1 as ->.
    by rewrite Hsame, String.eqb_refl.
Qed.

(** ** What a search leaves alone, and when it throws *)

Lemma updateMatches_loop_frame (pattern : string) (item : OutlineElement)
    (cs : JsObj OutlineElement) :
  Forall (λ kv, ∀ top h r h',
            _updateMatches pattern kv.2 top h = Ok (r, h') →
            next h' = next h ∧ parents h' = parents h
            ∧ ∀ l, l ∉ elem_ref <$> elem_preorder kv.2 → get_score l h' = get_score l h) cs →
  ∀ top h r h',
    updateMatches_loop (_updateMatches pattern) item cs top h = Ok (r, h') →
    next h' = next h ∧ parents h' = parents h
    ∧ ∀ l, l ≠ elem_ref item → l ∉ elem_ref <$> children_preorder cs →
        get_score l h' = get_score l h.
Proof.
  induction 1 as [|[k c] cs Hc _ IH]; intros top h r h' Hrun; simpl in *.
  { by simplify_eq. }
  destruct (_updateMatches pattern c top h) as [[top1 h1]|] eqn:Hchild; [|done].
  destruct (Hc _ _ _ _ Hchild) as (Hnext1 & Hparents1 & Hframe1).
  destruct (IH _ _ _ _ Hrun) as (Hnext & Hparents & Hframe).
  destruct (keepParent_frame item c h1) as [Hknext Hkparents].
  split_and!; [congruence | congruence |].
  intros l Hitem Hl. rewrite fmap_app, not_elem_of_app in Hl. destruct Hl as [??].
  rewrite Hframe, keepParent_score, decide_False by done. by apply Hframe1.
Qed.

Lemma _updateMatches_frame (pattern : string) (item : OutlineElement)
    (top : option OutlineElement) (h : Heap) (r : option OutlineElement) (h' : Heap) :
  _updateMatches pattern item top h = Ok (r, h') →
  next h' = next h ∧ parents h' = parents h
  ∧ ∀ l, l ∉ elem_ref <$> elem_preorder item → get_score l h' = get_score l h.
Proof.
  revert top h r h'. induction item as [l0 id symbol cs IH] using OutlineElement_ind.
  intros top h r h'. rewrite _updateMatches_unfold.
  destruct (pickTopMatch _ _ _) as [top'|]; [|done]. intros Hloop.
  apply (updateMatches_loop_frame pattern _ cs IH) in Hloop
    as (Hnext & Hparents & Hframe).
  split_and!; [done..|]. intros l Hl.
  rewrite elem_preorder_unfold, fmap_cons, not_elem_of_cons in Hl. destruct Hl as [??].
  rewrite Hframe by done. by apply get_score_set_ne.
Qed.

Lemma updateMatches_children_frame (pattern : string) (cs : JsObj OutlineElement)
    (top : option OutlineElement) (h : Heap) (r : option OutlineElement) (h' : Heap) :
  updateMatches_children pattern cs top h = Ok (r, h') →
  next h' = next h ∧ parents h' = parents h
  ∧ ∀ l, l ∉ elem_ref <$> children_preorder cs → get_score l h' = get_score l h.
Proof.
  revert top h. induction cs as [|[k c] cs IH]; intros top h Hrun; simpl in *.
  { by simplify_eq. }
  destruct (_updateMatches pattern c top h) as [[top1 h1]|] eqn:Hchild; [|done].
  apply _updateMatches_frame in Hchild as (Hnext1 & Hparents1 & Hframe1).
  destruct (IH _ _ Hrun) as (Hnext & Hparents & Hframe).
  split_and!; [congruence | congruence |].
  intros l Hl. rewrite fmap_app, not_elem_of_app in Hl. destruct Hl as [??].
  rewrite Hframe by done. by apply Hframe1.
Qed.

(** X5. A search of the model that returns has changed nothing but the
    [score] of the elements of the groups: the [parent] fields, the
    scores of other objects and the allocation are as before, whatever
    the scores were. *)
Theorem updateMatches_touches_scores_only (pattern : string) (m : OutlineModel)
    (h : Heap) (top : option OutlineElement) (h' : Heap) :
  updateMatches pattern m h = Ok (top, h') →
  next h' = next h
  ∧ parents h' = parents h
  ∧ ∀ l, l ∉ elem_ref <$> group_elements m → get_score l h' = get_score l h.
Proof.
  unfold updateMatches, group_elements, obj_values.
  generalize (@None OutlineElement). revert h.
  induction (_groups m) as [|[k g] gs IH]; intros h top0 Hrun; simpl in *.
  { by simplify_eq. }
  destruct (group_updateMatches pattern g top0 h) as [[top1 h1]|] eqn:Hgroup; [|done].
  apply updateMatches_children_frame in Hgroup as (Hnext1 & Hparents1 & Hframe1).
  destruct (IH _ _ Hrun) as (Hnext & Hparents & Hframe).
  split_and!; [congruence | congruence |].
  intros l Hl. rewrite fmap_app, not_elem_of_app in Hl. destruct Hl as [??].
  rewrite Hframe by done. by apply Hframe1.
Qed.

Lemma updateMatches_loop_no_match (pattern : string) (item : OutlineElement)
    (cs : JsObj OutlineElement) :
  Forall (λ kv, Forall (λ e, own_score pattern e = None) (elem_preorder kv.2) →
            ∀ top h, ∃ h', _updateMatches pattern kv.2 top h = Ok (top, h')) cs →
  Forall (λ e, own_score pattern e = None) (children_preorder cs) →
  ∀ top h, ∃ h', updateMatches_loop (_updateMatches pattern) item cs top h = Ok (top, h').
Proof.
  induction 1 as [|[k c] cs Hc _ IH]; intros Hnone top h; simpl in *.
  { by exists h. }
  apply Forall_app in Hnone as [Hnone_c Hnone_cs].
  destruct (Hc Hnone_c top h) as (h1 & ->). by apply IH.
Qed.

Lemma _updateMatches_no_match (pattern : string) (item : OutlineElement) :
  Forall (λ e, own_score pattern e = None) (elem_preorder item) →
  ∀ top h, ∃ h', _updateMatches pattern item top h = Ok (top, h').
Proof.
  induction item as [l0 id symbol cs IH] using OutlineElement_ind.
  intros Hnone top h. rewrite _updateMatches_unfold.
  rewrite elem_preorder_unfold in Hnone. apply Forall_cons in Hnone as [Hitem Hnone].
  unfold pickTopMatch. rewrite get_score_set_eq, Hitem.
  by apply updateMatches_loop_no_match.
Qed.

Lemma Forall_own_score_dec (pattern : string) (l : list OutlineElement) :
  Forall (λ e, own_score pattern e = None) l
  ∨ ∃ e, e ∈ l ∧ own_score pattern e ≠ None.
Proof.
  destruct (existsb (matches pattern) l) eqn:Hex.
  - right. by apply existsb_matches.
  - left. apply Forall_forall. intros e He.
    destruct (own_score pattern e) eqn:Hown; [|done].
    assert (existsb (matches pattern) l = true); [|congruence].
    apply existsb_matches. exists e. split; [done | congruence].
Qed.

Lemma updateMatches_loop_throws (pattern : string) (item t : OutlineElement)
    (cs : JsObj OutlineElement) :
  Forall (λ kv, (∃ e, e ∈ elem_preorder kv.2 ∧ own_score pattern e ≠ None) →
            ∀ h, get_score (elem_ref t) h = None →
              elem_ref t ∉ elem_ref <$> elem_preorder kv.2 →
              _updateMatches pattern kv.2 (Some t) h = TypeError) cs →
  (∃ e, e ∈ children_preorder cs ∧ own_score pattern e ≠ None) →
  ∀ h, get_score (elem_ref t) h = None →
    elem_ref t ≠ elem_ref item →
    elem_ref t ∉ elem_ref <$> children_preorder cs →
    updateMatches_loop (_updateMatches pattern) item cs (Some t) h = TypeError.
Proof.
  induction 1 as [|[k c] cs Hc _ IH]; intros (e & He & Hmatch) h Ht Hitem Hnot; simpl in *.
  { by apply elem_of_nil in He. }
  rewrite fmap_app, not_elem_of_app in Hnot. destruct Hnot as [Hnot_c Hnot_cs].
  destruct (Forall_own_score_dec pattern (elem_preorder c)) as [Hnone|Hsome].
  - destruct (_updateMatches_no_match pattern c Hnone (Some t) h) as (h1 & Hrun).
    rewrite Hrun. apply _updateMatches_frame in Hrun as (_ & _ & Hframe).
    apply IH; [| |done..].
    + apply elem_of_app in He as [He|He]; [|by exists e].
      rewrite Forall_forall in Hnone. by destruct Hmatch; apply Hnone.
    + rewrite keepParent_score, decide_False by done. by rewrite Hframe.
  - by rewrite (Hc Hsome h Ht Hnot_c).
Qed.

Lemma _updateMatches_throws (pattern : string) (item t : OutlineElement) :
  (∃ e, e ∈ elem_preorder item ∧ own_score pattern e ≠ None) →
  ∀ h, get_score (elem_ref t) h = None →
    elem_ref t ∉ elem_ref <$> elem_preorder item →
    _updateMatches pattern item (Some t) h = TypeError.
Proof.
  induction item as [l0 id symbol cs IH] using OutlineElement_ind.
  set (item := mkOutlineElement l0 id symbol cs) in *.
  intros (e & He & Hmatch) h Ht Hnot. rewrite _updateMatches_unfold.
  rewrite elem_preorder_unfold in He, Hnot.
  rewrite fmap_cons, not_elem_of_cons in Hnot. destruct Hnot as [Hne Hnot].
  unfold pickTopMatch. rewrite get_score_set_eq, get_score_set_ne, Ht by done.
  destruct (own_score pattern item) as [s|] eqn:Hown; [done|].
  apply elem_of_cons in He as [->|He]; [done|].
  apply updateMatches_loop_throws; [done | by exists e | | done..].
  by rewrite get_score_set_ne.
Qed.

(** X6. A group's [updateMatches] called with a best match whose score is
    empty: when no element of the group matches it returns that same
    best match, and when an element matches it throws, at the first
    match, on reading [topMatch.score[0]]. *)
Theorem group_updateMatches_stale_topMatch (pattern : string) (g : OutlineGroup)
    (t : OutlineElement) (h : Heap) :
  get_score (elem_ref t) h = None →
  elem_ref t ∉ elem_ref <$> children_preorder (group_children g) →
  (Forall (λ e, own_score pattern e = None) (children_preorder (group_children g)) →
     ∃ h', group_updateMatches pattern g (Some t) h = Ok (Some t, h'))
  ∧ ((∃ e, e ∈ children_preorder (group_children g) ∧ own_score pattern e ≠ None) →
     group_updateMatches pattern g (Some t) h = TypeError).
Proof.
  unfold group_updateMatches. revert h.
  induction (group_children g) as [|[k c] cs IH]; intros h Ht Hnot; simpl in *.
  { split; [by exists h | by intros (e & ?%elem_of_nil & _)]. }
  rewrite fmap_app, not_elem_of_app in Hnot. destruct Hnot as [Hnot_c Hnot_cs].
  split.
  - intros [Hnone_c Hnone_cs]%Forall_app.
    destruct (_updateMatches_no_match pattern c Hnone_c (Some t) h) as (h1 & Hrun).
    rewrite Hrun. apply _updateMatches_frame in Hrun as (_ & _ & Hframe).
    apply IH; [|done..]. by rewrite Hframe.
  - intros (e & He & Hmatch).
    destruct (Forall_own_score_dec pattern (elem_preorder c)) as [Hnone|Hsome].
    + destruct (_updateMatches_no_match pattern c Hnone (Some t) h) as (h1 & Hrun).
      rewrite Hrun. apply _updateMatches_frame in Hrun as (_ & _ & Hframe).
      apply IH; [by rewrite Hframe | done |].
      apply elem_of_app in He as [He|He]; [|by exists e].
      rewrite Forall_forall in Hnone. by destruct Hmatch; apply Hnone.
    + by rewrite (_updateMatches_throws pattern c t Hsome h Ht Hnot_c).
Qed.

Lemma heap_eq (h h' : Heap) :
  next h = next h' → parents h = parents h' →
  (∀ l, get_score l h = get_score l h') → h = h'.
Proof.
  destruct h as [n s p], h' as [n' s' p']. unfold get_score. simpl.
  intros -> -> Hscores. f_equal. by apply map_eq.
Qed.

(** X7. A search of the model does not depend on the scores it finds: after
    any earlier search, the search for [p] returns the element and
    leaves the heap that the search for [p] alone gives. *)
Theorem updateMatches_erases_previous (p' p : string) (m : OutlineModel) (h : Heap) :
  NoDup (elem_ref <$> group_elements m) →
  ∃ top' h1 top h2,
    updateMatches p' m h = Ok (top', h1)
    ∧ updateMatches p m h1 = Ok (top, h2)
    ∧ updateMatches p m h = Ok (top, h2).
Proof.
  intros Hnd.
  destruct (updateMatches_best p' m h Hnd) as (h1 & Hrun1 & _ & Hframe1 & Hnext1 & Hparents1).
  destruct (updateMatches_best p m h1 Hnd) as (h2 & Hrun2 & Hscores2 & Hframe2 & Hnext2 & Hparents2).
  destruct (updateMatches_best p m h Hnd) as (h3 & Hrun3 & Hscores3 & Hframe3 & Hnext3 & Hparents3).
  eexists _, h1, _, h2. split_and!; [done..|].
  rewrite Hrun3. do 2 f_equal. apply heap_eq; [congruence | congruence |].
  intros l. destruct (decide (l ∈ elem_ref <$> group_elements m)) as [Hl|Hl].
  - apply list_elem_of_fmap in Hl as (e & -> & He).
    by rewrite Hscores2, Hscores3.
  - by rewrite Hframe3, Hframe2, Hframe1.
Qed.

(** X8. The model's [updateMatches] over groups of distinct objects returns
    the best match of all the groups: the first element, in the order of
    the groups and of the visit inside each, of the greatest match-value;
    of two elements of the same match-value the later one, also when it
    is in a later group, is never returned.  It returns nothing exactly
    when no element matches. *)
Theorem updateMatches_best_of_all_groups (p : string) (m : OutlineModel) (h : Heap) :
  NoDup (elem_ref <$> group_elements m) →
  ∃ top h',
    updateMatches p m h = Ok (top, h')
    ∧ (top = None ↔ Forall (λ e, own_score p e = None) (group_elements m))
    ∧ (∀ before t after s,
         group_elements m = before ++ t :: after →
         own_score p t = Some s →
         Forall (λ e, ∀ s', own_score p e = Some s' → (s'.1 < s.1)%Z) before →
         Forall (λ e, ∀ s', own_score p e = Some s' → (s'.1 ≤ s.1)%Z) after →
         top = Some t)
    ∧ (∀ l1 e1 l2 e2 l3 s1 s2,
         group_elements m = l1 ++ e1 :: l2 ++ e2 :: l3 →
         own_score p e1 = Some s1 → own_score p e2 = Some s2 → s1.1 = s2.1 →
         top ≠ Some e2)
    ∧ (∀ e, e ∈ group_elements m → get_score (elem_ref e) h' = final_score p e).
Proof.
  intros Hnd. destruct (updateMatches_best p m h Hnd) as (h' & Hrun & Hscores & _).
  exists (fst <$> best p (group_elements m) None), h'. split_and!; [done| | | |done].
  - rewrite <-best_None. by destruct (best p (group_elements m) None).
  - intros before t after s -> Hs Hbefore Hafter.
    by rewrite (best_first_max p before after t s).
  - intros l1 e1 l2 e2 l3 s1 s2 Heq Hs1 Hs2 Hsame Htop.
    apply NoDup_fmap_1 in Hnd. rewrite Heq in Htop, Hnd.
    destruct (best p (l1 ++ e1 :: l2 ++ e2 :: l3) None) as [[t v]|] eqn:Hbest;
      simpl in Htop; [|done].
    simplify_eq.
    assert (l1 ++ e1 :: l2 ++ e2 :: l3 = (l1 ++ e1 :: l2) ++ e2 :: l3) as Hre
      by (by rewrite <-(assoc (++))).
    rewrite Hre in Hbest, Hnd.
    apply best_split in Hbest as (s & Hs & _ & Hbefore & _); [|done].
    replace s with s2 in * by congruence.
    rewrite Forall_app, Forall_cons in Hbefore.
    destruct Hbefore as [_ [He1 _]]. specialize (He1 _ Hs1). lia.
Qed.

(** ** The shape of the tree a fetch cycle builds *)

Lemma child_in_children_preorder (cs : JsObj OutlineElement) (e c : OutlineElement)
    (k : string) :
  e ∈ children_preorder cs → (k, c) ∈ elem_children e → c ∈ children_preorder cs.
Proof.
  intros (k0 & top & Htop & He)%elem_of_children_preorder Hc.
  apply elem_of_children_preorder. exists k0, top. split; [done|].
  apply (elem_preorder_trans _ e); [|done].
  apply descendants_preorder, elem_of_descendants. exists c.
  split; [|apply elem_of_preorder_self].
  unfold obj_values. apply list_elem_of_fmap. by exists (k, c).
Qed.

(** The links of elements that exist are not touched by later
    allocations. *)
Lemma nested_ok_mono (h h' : Heap) (cs : JsObj OutlineElement) :
  nested_ok h (children_preorder cs) →
  Forall (λ l, l < next h) (elem_ref <$> children_preorder cs) →
  (∀ l, l < next h → get_score l h' = get_score l h ∧ get_parent l h' = get_parent l h) →
  nested_ok h' (children_preorder cs).
Proof.
  unfold nested_ok, linked. rewrite !Forall_forall. intros Hok Hrefs Hframe e He.
  destruct (Hok e He) as [Hkeyed Hlinked]. split; [done|].
  rewrite Forall_forall in Hlinked |- *. intros [k c] Hc. cbn [snd].
  destruct (Hframe (elem_ref c)) as [_ ->]; [|by apply (Hlinked (k, c))].
  apply Hrefs, list_elem_of_fmap_2. by apply (child_in_children_preorder cs e c k).
Qed.

Lemma makeOutlineElements_nested (infos : list SymbolInformation) :
  Forall (λ info, ∀ container_ref container_id cs h, ∃ new,
            (_makeOutlineElement info container_ref container_id cs h).1 = cs ++ new
            ∧ nested_ok (_makeOutlineElement info container_ref container_id cs h).2
                (children_preorder new)
            ∧ Forall (λ kv, ∃ suffix, elem_id kv.2 = container_id +:+ suffix) new) infos →
  ∀ container_ref container_id cs h, ∃ new,
    (makeOutlineElements infos container_ref container_id cs h).1 = cs ++ new
    ∧ nested_ok (makeOutlineElements infos container_ref container_id cs h).2
        (children_preorder new)
    ∧ Forall (λ kv, ∃ suffix, elem_id kv.2 = container_id +:+ suffix) new.
Proof.
  intros Hall.
  assert (Forall (λ info, ∀ container_ref container_id cs h,
            extends container_ref cs
              (_makeOutlineElement info container_ref container_id cs h).1 h
              (_makeOutlineElement info container_ref container_id cs h).2) infos) as Hexts.
  { apply Forall_forall. intros info _. apply _makeOutlineElement_extends. }
  induction Hall as [|info infos Hinfo Hall IH]; intros container_ref container_id cs h.
  { exists []. simpl. rewrite app_nil_r. split_and!; [done | constructor | constructor]. }
  apply Forall_cons in Hexts as [_ Hexts]. cbn [makeOutlineElements].
  destruct (Hinfo container_ref container_id cs h) as (new1 & Hnew1 & Hok1 & Hpre1).
  pose proof (_makeOutlineElement_extends info container_ref container_id cs h) as Hext1.
  destruct (_makeOutlineElement info container_ref container_id cs h) as [cs1 h1].
  cbn [fst snd] in *.
  destruct (IH Hexts container_ref container_id cs1 h1) as (new2 & Hnew2 & Hok2 & Hpre2).
  pose proof (makeOutlineElements_extends infos Hexts container_ref container_id cs1 h1)
    as Hext2.
  destruct (makeOutlineElements infos container_ref container_id cs1 h1) as [cs2 h2].
  cbn [fst snd] in *.
  destruct Hext1 as (new1' & Hnew1' & _ & _ & _ & Hrefs1 & _).
  rewrite Hnew1 in Hnew1'. apply (inj (app cs)) in Hnew1'. subst new1'.
  destruct Hext2 as (_ & _ & _ & _ & _ & _ & _ & Hframe2 & _).
  exists (new1 ++ new2). split_and!.
  - by rewrite Hnew2, Hnew1, (assoc (++)).
  - rewrite children_preorder_app. apply Forall_app. split; [|done].
    apply (nested_ok_mono h1); [done| |done].
    eapply Forall_impl; [exact Hrefs1|]. simpl. lia.
  - by apply Forall_app.
Qed.

Lemma _makeOutlineElement_nested (info : SymbolInformation) (container_ref : loc)
    (container_id : string) (cs : JsObj OutlineElement) (h : Heap) :
  ∃ new,
    (_makeOutlineElement info container_ref container_id cs h).1 = cs ++ new
    ∧ nested_ok (_makeOutlineElement info container_ref container_id cs h).2
        (children_preorder new)
    ∧ Forall (λ kv, ∃ suffix, elem_id kv.2 = container_id +:+ suffix) new.
Proof.
  revert container_ref container_id cs h.
  induction info as [name dr lr children IH] using SymbolInformation_ind.
  intros container_ref container_id cs h. rewrite _makeOutlineElement_unfold.
  set (info := mkSymbolInformation name dr lr children).
  set (id := findId (info_name info) container_id cs).
  unfold new_OutlineElement. cbn [elem_ref elem_children].
  set (h1 := mkHeap (S (next h)) _ _).
  lazymatch goal with
  | |- context [let (_, _) := ?t in _] => destruct t as [rc h2] eqn:Hbuild
  end.
  assert (extends (next h) [] rc h1 h2
          ∧ nested_ok h2 (children_preorder rc)
          ∧ Forall (λ kv, ∃ suffix, elem_id kv.2 = id +:+ suffix) rc) as (Hext & Hok & Hpre).
  { simpl in Hbuild. destruct children as [infos|].
    - assert (Forall (λ info, ∀ container_ref container_id cs h,
                extends container_ref cs
                  (_makeOutlineElement info container_ref container_id cs h).1 h
                  (_makeOutlineElement info container_ref container_id cs h).2) infos)
        as Hexts.
      { apply Forall_forall. intros i _. apply _makeOutlineElement_extends. }
      pose proof (makeOutlineElements_extends infos Hexts (next h) id [] h1) as Hext.
      destruct (makeOutlineElements_nested infos IH (next h) id [] h1)
        as (new & Hnew & Hok & Hpre).
      rewrite Hbuild in Hext, Hnew, Hok. cbn [fst snd] in *.
      rewrite app_nil_l in Hnew. by subst new.
    - injection Hbuild as <- <-. split_and!; [apply extends_refl | constructor | constructor]. }
  destruct Hext as (new & Hnew & Hkeys & Hnd & _ & _ & _ & _ & Hparents & _).
  rewrite app_nil_l in Hnew. subst new. specialize (Hnd (NoDup_nil_2)).
  exists [(id, mkOutlineElement (next h) id info rc)]. cbn [fst snd]. split_and!.
  - apply obj_set_fresh, findId_fresh.
  - rewrite children_preorder_singleton. cbn [elem_children]. constructor; [|done].
    cbn [elem_id elem_ref elem_children]. split; [|done].
    split; [done|]. rewrite Forall_forall in Hkeys, Hpre. apply Forall_forall.
    intros kv Hkv. split; [by apply Hkeys | by apply Hpre].
  - constructor; [|done]. cbn [snd elem_id]. apply findId_prefix.
Qed.

Lemma keyed_nil (pid : string) : keyed pid [].
Proof. split; [apply NoDup_nil_2 | constructor]. Qed.

(** The callbacks of [_makeRequest] on a group that is as it was
    created leave a built group. *)
Lemma onSettled_built (o : ProviderOutcome) (g : OutlineGroup) (h : Heap) :
  group_children g = [] → group_ref g < next h →
  get_parent (group_ref g) h = Some TheModel →
  built_group (onSettled o g h).1 (onSettled o g h).2.
Proof.
  intros Hempty Href Hparent.
  assert (built_group g h) as Hsame.
  { unfold built_group, linked, nested_ok. rewrite Hempty. simpl.
    split_and!; try done; try apply keyed_nil; constructor. }
  unfold onSettled. destruct o as [|result]; [done|].
  destruct (isFalsyOrEmpty result); [done|]. cbn [negb].
  assert (Forall (λ info, ∀ container_ref container_id cs h,
            extends container_ref cs
              (_makeOutlineElement info container_ref container_id cs h).1 h
              (_makeOutlineElement info container_ref container_id cs h).2)
            (default [] result)) as Hexts.
  { apply Forall_forall. intros i _. apply _makeOutlineElement_extends. }
  pose proof (makeOutlineElements_extends _ Hexts (group_ref g) (group_id g)
                (group_children g) h) as Hext.
  destruct (makeOutlineElements_nested (default [] result)
              (proj2 (Forall_forall _ _) (λ i _, _makeOutlineElement_nested i))
              (group_ref g) (group_id g) (group_children g) h)
    as (new & Hnew & Hok & Hpre).
  destruct (makeOutlineElements _ _ _ _ h) as [cs h']. cbn [fst snd] in *.
  rewrite Hempty, app_nil_l in Hnew. subst new.
  destruct Hext as (new & Hnew & Hkeys & Hnd & Hle & Hrefs & Hndr & Hframe & Hparents & Hsc).
  rewrite Hempty, app_nil_l in Hnew. subst new. rewrite Hempty in Hnd.
  unfold built_group. cbn [group_ref group_id group_children]. split_and!.
  - lia.
  - by destruct (Hframe (group_ref g) Href) as [_ ->].
  - rewrite Forall_fmap in Hrefs. eapply Forall_impl; [exact Hrefs|]. simpl. lia.
  - done.
  - split; [apply Hnd, NoDup_nil_2|]. rewrite Forall_forall in Hkeys, Hpre.
    apply Forall_forall. intros kv Hkv. split; [by apply Hkeys | by apply Hpre].
  - done.
  - done.
  - done.
Qed.

(** A built group stays built when the heap grows. *)
Lemma built_group_mono (g : OutlineGroup) (h h' : Heap) :
  built_group g h → next h ≤ next h' →
  (∀ l, l < next h → get_score l h' = get_score l h ∧ get_parent l h' = get_parent l h) →
  built_group g h'.
Proof.
  intros (Href & Hparent & Hrefs & Hnd & Hkeyed & Hlinked & Hok & Hsc) Hle Hframe.
  assert (Forall (λ l, l < next h) (elem_ref <$> children_preorder (group_children g)))
    as Hbelow.
  { rewrite Forall_fmap. eapply Forall_impl; [exact Hrefs|]. simpl. lia. }
  unfold built_group. split_and!; try done.
  - lia.
  - by destruct (Hframe (group_ref g) Href) as [_ ->].
  - eapply Forall_impl; [exact Hrefs|]. simpl. lia.
  - unfold linked in *. rewrite Forall_forall in Hlinked |- *. intros [k c] Hc. cbn [snd].
    destruct (Hframe (elem_ref c)) as [_ ->]; [|by apply (Hlinked (k, c))].
    rewrite Forall_forall in Hbelow. apply Hbelow, list_elem_of_fmap_2.
    apply elem_of_children_preorder. exists k, c. split; [done | apply elem_of_preorder_self].
  - by apply (nested_ok_mono h).
  - rewrite Forall_forall in Hsc. rewrite Forall_forall in Hbelow.
    apply Forall_forall. intros e He.
    destruct (Hframe (elem_ref e)) as [-> _]; [|by apply Hsc].
    by apply Hbelow, list_elem_of_fmap_2.
Qed.

Lemma obj_set_values_split {A : Type} (key : string) (v : A) (obj : JsObj A) :
  ∃ o1 old o2, obj_values (obj_set key v obj) = o1 ++ v :: o2
    ∧ obj_values obj = o1 ++ old ++ o2.
Proof.
  unfold obj_values. induction obj as [|[k x] obj IH]; cbn [obj_set].
  - by exists [], [], [].
  - destruct (String.eqb k key); rewrite !fmap_cons; cbn [snd].
    + by exists [], [x], (obj.*2).
    + destruct IH as (o1 & old & o2 & -> & ->). by exists (x :: o1), old, o2.
Qed.

Lemma NoDup_replace_middle (a old new b : list loc) :
  NoDup (a ++ old ++ b) → NoDup new → (∀ x, x ∈ new → (x ∉ a) ∧ (x ∉ b)) →
  NoDup (a ++ new ++ b).
Proof.
  rewrite !NoDup_app. intros (Ha & Hab & _ & _ & Hb) Hnew Hfresh. split_and!; try done.
  - intros x Hx [Hn|Hxb]%elem_of_app.
    + by destruct (Hfresh x Hn).
    + apply (Hab x Hx), elem_of_app. by right.
  - intros x Hx. by destruct (Hfresh x Hx).
Qed.

Lemma settle_built (o : ProviderOutcome) (g : OutlineGroup) (m : OutlineModel) (h : Heap) :
  group_children g = [] → group_ref g < next h →
  get_parent (group_ref g) h = Some TheModel →
  built_model m h →
  built_model (settle o g m h).1 (settle o g m h).2
  ∧ next h ≤ next (settle o g m h).2
  ∧ (∀ l, l < next h →
       get_score l (settle o g m h).2 = get_score l h
       ∧ get_parent l (settle o g m h).2 = get_parent l h)
  ∧ model_children (settle o g m h).1 = model_children m.
Proof.
  intros Hempty Href Hparent [Hgroups Hnd].
  pose proof (onSettled_built o g h Hempty Href Hparent) as Hbuilt.
  destruct (onSettled_group o g h) as (_ & _ & _ & _ & Hext).
  unfold settle. destruct (onSettled o g h) as [g' h']. cbn [fst snd] in *.
  destruct Hext as (new & Hnew & _ & _ & Hle & Hrefs & _ & Hframe & _).
  rewrite Hempty, app_nil_l in Hnew. subst new.
  split_and!; [|done|done|done].
  unfold built_model, group_elements in *. cbn [_groups].
  destruct (obj_set_values_split (group_id g') g' (_groups m)) as (o1 & old & o2 & -> & Hold).
  rewrite Hold in Hgroups, Hnd. rewrite !Forall_app in Hgroups.
  destruct Hgroups as (H1 & _ & H2).
  assert (∀ gs, Forall (λ g0, built_group g0 h) gs → Forall (λ g0, built_group g0 h') gs)
    as Hmono.
  { intros gs Hgs. eapply Forall_impl; [exact Hgs|]. intros g0 Hg0.
    by apply (built_group_mono g0 h). }
  split.
  - rewrite Forall_app, Forall_cons. split_and!; [by apply Hmono | done | by apply Hmono].
  - rewrite bind_app, bind_cons, !fmap_app. rewrite !bind_app, !fmap_app in Hnd.
    apply (NoDup_replace_middle _ _ _ _ Hnd).
    + by destruct Hbuilt as (_ & _ & _ & ? & _).
    + assert (∀ gs x, Forall (λ g0, built_group g0 h) gs → next h ≤ x →
                x ∉ elem_ref <$> (gs ≫= (λ g0, children_preorder (group_children g0))))
        as Hbelow.
      { intros gs x Hgs Hx (e & -> & He)%list_elem_of_fmap.
        apply list_elem_of_bind in He as (g0 & He & Hg0).
        rewrite Forall_forall in Hgs. destruct (Hgs g0 Hg0) as (_ & _ & Hb & _).
        rewrite Forall_forall in Hb. specialize (Hb e He). lia. }
      intros x Hx. rewrite Forall_forall in Hrefs. specialize (Hrefs x Hx).
      split; apply Hbelow; (done || lia).
Qed.

Lemma settleAll_built (outcomes : list ProviderOutcome) (groups : list OutlineGroup)
    (order : list nat) (m : OutlineModel) (h : Heap) :
  Forall (λ g, group_children g = [] ∧ group_ref g < next h
               ∧ get_parent (group_ref g) h = Some TheModel) groups →
  built_model m h →
  built_model (settleAll outcomes groups order m h).1 (settleAll outcomes groups order m h).2
  ∧ model_children (settleAll outcomes groups order m h).1 = model_children m.
Proof.
  revert m h. induction order as [|i order IH]; intros m h Hgroups Hm; [done|].
  cbn [settleAll]. destruct (outcomes !! i) as [o|] eqn:Ho; [|by apply IH].
  destruct (groups !! i) as [g|] eqn:Hg; [|by apply IH].
  pose proof (proj1 (Forall_forall _ _) Hgroups g (list_elem_of_lookup_2 _ _ _ Hg))
    as (He & Hr & Hp).
  destruct (settle_built o g m h He Hr Hp Hm) as (Hm1 & Hle & Hframe & Hch).
  destruct (settle o g m h) as [m1 h1]. cbn [fst snd] in *.
  rewrite <-Hch. apply IH; [|done].
  eapply Forall_impl; [exact Hgroups|]. intros g0 (? & ? & ?). split_and!; [done | lia |].
  by destruct (Hframe (group_ref g0)) as [_ ->].
Qed.

Lemma makeGroups_fresh (m : OutlineModel) (n index : nat) (h : Heap) :
  next h ≤ next (makeGroups m index n h).2
  ∧ (∀ l, l < next h →
       get_parent l (makeGroups m index n h).2 = get_parent l h)
  ∧ Forall (λ g, group_children g = []
               ∧ group_ref g < next (makeGroups m index n h).2
               ∧ get_parent (group_ref g) (makeGroups m index n h).2 = Some TheModel)
      (makeGroups m index n h).1.
Proof.
  revert index h. induction n as [|n IH]; intros index h; simpl; [by split_and!|].
  unfold new_OutlineGroup. set (h1 := mkHeap (S (next h)) _ _).
  destruct (IH (S index) h1) as (Hle & Hframe & Hgroups).
  destruct (makeGroups m (S index) n h1) as [groups h']. cbn [fst snd] in *.
  assert (next h1 = S (next h)) as Hnext by done. split_and!.
  - lia.
  - intros l Hl. rewrite Hframe by lia. unfold get_parent, h1; simpl.
    apply lookup_insert_ne. lia.
  - constructor; [|done]. cbn [group_children group_ref]. split_and!; [done | lia |].
    rewrite Hframe by lia. unfold get_parent, h1; simpl. apply lookup_insert_eq.
Qed.

(** A fetch cycle is the continuation of the join on a built model
    that presents nothing yet. *)
Lemma fetchCycle_joined (outcomes : list ProviderOutcome) (order : list nat) (h : Heap) :
  ∃ m h1, built_model m h1 ∧ model_children m = []
    ∧ fetchCycle outcomes order h = joined m h1.
Proof.
  unfold fetchCycle.
  pose proof (makeGroups_fresh fresh_model (length outcomes) 0 h) as (_ & _ & Hgroups).
  destruct (makeGroups fresh_model 0 (length outcomes) h) as [groups h0].
  cbn [fst snd] in *.
  destruct (settleAll_built outcomes groups order fresh_model h0 Hgroups) as [Hm Hch].
  { split; [constructor | apply NoDup_nil_2]. }
  destruct (settleAll outcomes groups order fresh_model h0) as [m h1].
  by exists m, h1.
Qed.

Lemma adopt_heap (group_children : JsObj OutlineElement) (children : JsObj ModelChild)
    (h : Heap) :
  next (adopt group_children children h).2 = next h
  ∧ scores (adopt group_children children h).2 = scores h
  ∧ ∀ l, get_parent l (adopt group_children children h).2
         = if bool_decide (l ∈ elem_ref <$> obj_values group_children)
           then Some TheModel else get_parent l h.
Proof.
  revert children h. induction group_children as [|[k c] gcs IH]; intros cs h.
  { simpl. by split_and!. }
  cbn [adopt].
  destruct (IH (obj_set (elem_id c) (ChildElement c) cs) (set_parent (elem_ref c) TheModel h))
    as (-> & -> & Hparents).
  split_and!; [done | done |]. intros l. rewrite Hparents.
  change (obj_values ((k, c) :: gcs)) with (c :: obj_values gcs). rewrite fmap_cons.
  destruct (decide (l = elem_ref c)) as [->|Hne].
  - rewrite (bool_decide_eq_true_2 (_ ∈ _ :: _)) by left.
    case_bool_decide; [done|]. unfold get_parent, set_parent; simpl. apply lookup_insert_eq.
  - assert (get_parent l (set_parent (elem_ref c) TheModel h) = get_parent l h) as ->.
    { unfold get_parent, set_parent; simpl. by apply lookup_insert_ne. }
    case_bool_decide as H1; case_bool_decide as H2; try done.
    + exfalso. apply H2. by right.
    + apply elem_of_cons in H2 as [?|?]; done.
Qed.

Lemma joined_heap (m : OutlineModel) (h : Heap) :
  _groups (joined m h).1 = _groups m
  ∧ scores (joined m h).2 = scores h
  ∧ (size (_groups m) ≠ 1 → (joined m h).2 = h)
  ∧ (∀ g l, g ∈ obj_values (_groups m) → size (_groups m) = 1 →
       get_parent l (joined m h).2
       = if bool_decide (l ∈ elem_ref <$> obj_values (group_children g))
         then Some TheModel else get_parent l h).
Proof.
  unfold joined, size. destruct (_groups m) as [|[k g] [|kv gs]] eqn:Hgroups;
    cbn [length Nat.eqb negb first fst snd _groups].
  - by split_and!.
  - destruct (adopt_heap (group_children g) (model_children m) h) as (_ & Hsc & Hparents).
    destruct (adopt (group_children g) (model_children m) h) as [children h'].
    cbn [fst snd _groups] in *. split_and!; try done.
    intros g0 l Hg0 _. apply list_elem_of_singleton in Hg0 as ->. apply Hparents.
  - split_and!; try done.
Qed.

(** The id of an element of a built tree continues the id of every
    element above it. *)
Lemma keyed_prefix (e : OutlineElement) :
  Forall (λ d, keyed (elem_id d) (elem_children d)) (elem_preorder e) →
  Forall (λ d, ∃ suffix, elem_id d = elem_id e +:+ suffix) (elem_preorder e).
Proof.
  induction e as [l id symbol children IH] using OutlineElement_ind.
  rewrite elem_preorder_unfold. cbn [elem_children elem_id].
  rewrite !Forall_cons. intros [[_ Hkeyed] Hbelow]. split.
  { exists "". by rewrite string_app_nil_r. }
  cbn [elem_children elem_id] in Hkeyed.
  rewrite Forall_forall in IH. rewrite Forall_forall in Hkeyed.
  rewrite Forall_forall in Hbelow. apply Forall_forall.
  intros d (k & top & Htop & Hd)%elem_of_children_preorder.
  destruct (Hkeyed _ Htop) as [_ [s1 Hs1]]. cbn [snd] in Hs1.
  assert (Forall (λ d, keyed (elem_id d) (elem_children d)) (elem_preorder top)) as Htree.
  { apply Forall_forall. intros x Hx. apply Hbelow, elem_of_children_preorder.
    by exists k, top. }
  pose proof (IH _ Htop Htree) as Hpre. rewrite Forall_forall in Hpre.
  destruct (Hpre d Hd) as [s2 ->]. cbn [snd]. rewrite Hs1, string_app_assoc. by eexists.
Qed.

Lemma built_group_prefix (g : OutlineGroup) (h : Heap) (e : OutlineElement) :
  built_group g h → e ∈ children_preorder (group_children g) →
  ∃ suffix, elem_id e = group_id g +:+ suffix.
Proof.
  intros (_ & _ & _ & _ & [_ Hkeyed] & _ & Hok & _).
  intros (k & top & Htop & He)%elem_of_children_preorder.
  rewrite Forall_forall in Hkeyed. destruct (Hkeyed _ Htop) as [_ [s1 Hs1]]. cbn [snd] in Hs1.
  assert (Forall (λ d, keyed (elem_id d) (elem_children d)) (elem_preorder top)) as Htree.
  { unfold nested_ok in Hok. rewrite Forall_forall in Hok. apply Forall_forall.
    intros x Hx. apply Hok, elem_of_children_preorder. by exists k, top. }
  pose proof (keyed_prefix top Htree) as Hpre. rewrite Forall_forall in Hpre.
  destruct (Hpre e He) as [s2 ->]. rewrite Hs1, string_app_assoc. by eexists.
Qed.

(** X9. After a fetch cycle, in whatever order the promises settled, the
    elements of the groups are pairwise distinct objects. *)
Theorem fetchCycle_elements_distinct (outcomes : list ProviderOutcome) (order : list nat)
    (h : Heap) :
  NoDup (elem_ref <$> group_elements (fetchCycle outcomes order h).1).
Proof.
  destruct (fetchCycle_joined outcomes order h) as (m & h1 & [_ Hnd] & _ & ->).
  unfold group_elements in *. by rewrite (proj1 (joined_heap m h1)).
Qed.

(** X10. After a fetch cycle every group and every element holds its
    children under their ids, no two children of one container have the
    same key, the id of a child continues the id of its container, and
    the id of every element continues the id of its group. *)
Theorem fetchCycle_ids (outcomes : list ProviderOutcome) (order : list nat) (h : Heap) :
  Forall (λ g,
      keyed (group_id g) (group_children g)
      ∧ Forall (λ e, keyed (elem_id e) (elem_children e)
                     ∧ ∃ suffix, elem_id e = group_id g +:+ suffix)
          (children_preorder (group_children g)))
    (obj_values (_groups (fetchCycle outcomes order h).1)).
Proof.
  destruct (fetchCycle_joined outcomes order h) as (m & h1 & [Hgroups _] & _ & ->).
  rewrite (proj1 (joined_heap m h1)). eapply Forall_impl; [exact Hgroups|].
  intros g Hg. pose proof Hg as (_ & _ & _ & _ & Hkeyed & _ & Hok & _).
  split; [done|]. unfold nested_ok in Hok. rewrite Forall_forall in Hok.
  apply Forall_forall. intros e He. split; [by apply Hok|].
  by apply (built_group_prefix g h1).
Qed.

(** X11. After a fetch cycle the [parent] of every group is the model, the
    [parent] of an element below another element is that element, and
    the [parent] of an element directly below a group is the group, or
    the model when the cycle ended with one group. *)
Theorem fetchCycle_parents (outcomes : list ProviderOutcome) (order : list nat) (h : Heap) :
  Forall (λ g,
      get_parent (group_ref g) (fetchCycle outcomes order h).2 = Some TheModel
      ∧ Forall (λ kv,
            get_parent (elem_ref kv.2) (fetchCycle outcomes order h).2
            = Some (if Nat.eqb (size (_groups (fetchCycle outcomes order h).1)) 1
                    then TheModel else Obj (group_ref g)))
          (group_children g)
      ∧ Forall (λ e, linked (fetchCycle outcomes order h).2 (elem_ref e) (elem_children e))
          (children_preorder (group_children g)))
    (obj_values (_groups (fetchCycle outcomes order h).1)).
Proof.
  destruct (fetchCycle_joined outcomes order h) as (m & h1 & [Hgroups _] & _ & ->).
  destruct (joined_heap m h1) as (-> & _ & Hne & Heq).
  rewrite Forall_forall in Hgroups. apply Forall_forall. intros g Hg.
  destruct (Hgroups g Hg) as (_ & Hparent & Hrefs & _ & _ & Hlinked & Hok & _).
  unfold nested_ok in Hok. unfold linked in *.
  rewrite Forall_forall in Hrefs. rewrite Forall_forall in Hlinked.
  rewrite Forall_forall in Hok.
  destruct (decide (size (_groups m) = 1)) as [H1|H1].
  - rewrite (proj2 (Nat.eqb_eq _ _) H1).
    assert (∀ l p, get_parent l h1 = Some (Obj p) → group_ref g < p →
              l ∉ elem_ref <$> obj_values (group_children g)) as Hnot.
    { intros l p Hl Hp (t & -> & Ht)%list_elem_of_fmap.
      unfold obj_values in Ht. apply list_elem_of_fmap in Ht as ([k t'] & -> & Ht).
      specialize (Hlinked _ Ht). cbn [snd] in *. rewrite Hlinked in Hl.
      injection Hl as <-. lia. }
    split_and!.
    + rewrite (Heq g _ Hg H1). rewrite bool_decide_eq_false_2; [done|].
      intros (t & Ht & Hin)%list_elem_of_fmap.
      unfold obj_values in Hin. apply list_elem_of_fmap in Hin as ([k t'] & -> & Hin).
      assert (group_ref g < elem_ref (k, t').2) as Hlt.
      { apply Hrefs, elem_of_children_preorder. exists k, t'.
        split; [done | apply elem_of_preorder_self]. }
      lia.
    + apply Forall_forall. intros [k c] Hc. cbn [snd].
      rewrite (Heq g _ Hg H1). rewrite bool_decide_eq_true_2; [done|].
      apply list_elem_of_fmap_2. unfold obj_values. apply list_elem_of_fmap.
      by exists (k, c).
    + apply Forall_forall. intros e He. destruct (Hok e He) as [_ Hchildren].
      rewrite Forall_forall in Hchildren. apply Forall_forall. intros [k c] Hc.
      specialize (Hchildren _ Hc). cbn [snd] in *.
      rewrite (Heq g _ Hg H1). rewrite bool_decide_eq_false_2; [done|].
      apply (Hnot _ (elem_ref e)); [done|]. by destruct (Hrefs e He).
  - rewrite (Hne H1). rewrite (proj2 (Nat.eqb_neq _ _) H1). split_and!.
    + done.
    + by apply Forall_forall.
    + apply Forall_forall. intros e He. by destruct (Hok e He).
Qed.

(** X12. After a fetch cycle and before any search every element has the
    score [(0, [])] of its constructor: nothing is filtered. *)
Theorem fetchCycle_scores (outcomes : list ProviderOutcome) (order : list nat) (h : Heap) :
  Forall (λ e, get_score (elem_ref e) (fetchCycle outcomes order h).2 = Some (0%Z, []))
    (group_elements (fetchCycle outcomes order h).1).
Proof.
  destruct (fetchCycle_joined outcomes order h) as (m & h1 & [Hgroups _] & _ & ->).
  destruct (joined_heap m h1) as (Hg & Hsc & _). unfold group_elements, get_score.
  rewrite Hg, Hsc. rewrite Forall_forall in Hgroups. apply Forall_forall.
  intros e (g & He & Hg0)%list_elem_of_bind.
  destruct (Hgroups g Hg0) as (_ & _ & _ & _ & _ & _ & _ & Hscores).
  rewrite Forall_forall in Hscores. by apply Hscores.
Qed.

(** X13. A search on the model a fetch cycle leaves never fails on the score
    of the best match so far. *)
Theorem fetchCycle_updateMatches (outcomes : list ProviderOutcome) (order : list nat)
    (h : Heap) (pattern : string) :
  ∃ top h',
    updateMatches pattern (fetchCycle outcomes order h).1 (fetchCycle outcomes order h).2
    = Ok (top, h').
Proof.
  destruct (fetchCycle_joined outcomes order h) as (m & h1 & [_ Hnd] & _ & Heq).
  assert (NoDup (elem_ref <$> group_elements (fetchCycle outcomes order h).1)) as Hnd'.
  { rewrite Heq. unfold group_elements in *. by rewrite (proj1 (joined_heap m h1)). }
  destruct (updateMatches_best pattern _ (fetchCycle outcomes order h).2 Hnd')
    as (h' & Hrun & _).
  by eexists _, h'.
Qed.

(** ** The way down to the enclosing element *)

Lemma _getItemEnclosingPosition_descent (position : Position)
    (cs : JsObj OutlineElement) :
  Forall (λ kv, ∃ path, descent position (elem_children kv.2) path
            ∧ _getItemEnclosingPosition position (elem_children kv.2) = last path) cs →
  ∃ path, descent position cs path ∧ _getItemEnclosingPosition position cs = last path.
Proof.
  induction cs as [|[k c] cs IH]; intros Hall.
  { exists []. split; [constructor | done]. }
  apply Forall_cons in Hall as [(inner & Hinner & Hlast) Hall]. cbn [snd] in *.
  rewrite _getItemEnclosingPosition_cons.
  destruct (encloses position c) eqn:Hc; cbn [negb].
  - exists (c :: inner). split.
    + split_and!; [|done|done]. exists [], k, cs. split; [done | constructor].
    + rewrite Hlast, last_cons. by destruct (last inner).
  - destruct (IH Hall) as ([|e path] & Hpath & ->).
    + exists []. split; [|done]. cbn [descent] in *. unfold obj_values.
      rewrite fmap_cons. by constructor.
    + exists (e :: path). split; [|done].
      destruct Hpath as ((before & key & after & -> & Hbefore) & He & Hpath).
      split_and!; [|done|done]. exists ((k, c) :: before), key, after.
      split; [done|]. unfold obj_values. rewrite fmap_cons. by constructor.
Qed.

(** X14. A group's [getItemEnclosingPosition(p)] goes down from the children
    of the group: at every level it takes the first child whose range
    contains [p], it stops where no child contains [p], and it returns
    the last element it took; every element on the way contains [p]. *)
Theorem group_getItemEnclosingPosition_descent (position : Position) (g : OutlineGroup) :
  ∃ path, descent position (group_children g) path
    ∧ Forall (λ e, encloses position e = true) path
    ∧ group_getItemEnclosingPosition position g = last path.
Proof.
  assert (∀ e, ∃ path, descent position (elem_children e) path
            ∧ _getItemEnclosingPosition position (elem_children e) = last path) as Hall.
  { intros e. induction e as [l id symbol children IH] using OutlineElement_ind.
    by apply _getItemEnclosingPosition_descent. }
  destruct (_getItemEnclosingPosition_descent position (group_children g))
    as (path & Hpath & Hlast).
  { apply Forall_forall. intros kv _. apply Hall. }
  exists path. split_and!; [done | | done].
  clear Hlast. revert Hpath. generalize (group_children g).
  induction path as [|e path IH]; intros cs Hpath; [constructor|].
  destruct Hpath as (_ & He & Hpath). constructor; [done | by apply (IH (elem_children e))].
Qed.

(** ** The keys of a fetch cycle are not array indices *)

Lemma obj_set_Forall {A : Type} (P : string * A → Prop) (key : string) (v : A)
    (obj : JsObj A) :
  P (key, v) → Forall P obj → Forall P (obj_set key v obj).
Proof.
  intros Hkey. induction obj as [|[k x] obj IH]; cbn [obj_set].
  - intros _. by constructor.
  - rewrite Forall_cons. intros [Hk Hobj].
    destruct (String.eqb k key); constructor; auto.
Qed.

Lemma model_id_not_index (suffix : string) : all_digits (model_id +:+ suffix) = false.
Proof. by rewrite all_digits_app. Qed.

Lemma settleAll_keys (outcomes : list ProviderOutcome) (groups : list OutlineGroup)
    (order : list nat) (m : OutlineModel) (h : Heap) :
  Forall (λ g, all_digits (group_id g) = false) groups →
  Forall (λ kv, all_digits kv.1 = false ∧ all_digits (group_id kv.2) = false) (_groups m) →
  Forall (λ kv, all_digits kv.1 = false ∧ all_digits (group_id kv.2) = false)
    (_groups (settleAll outcomes groups order m h).1).
Proof.
  intros Hgroups. revert m h. induction order as [|i order IH]; intros m h Hm; [done|].
  cbn [settleAll]. destruct (outcomes !! i) as [o|]; [|by apply IH].
  destruct (groups !! i) as [g|] eqn:Hg; [|by apply IH].
  unfold settle. destruct (onSettled_group o g h) as (_ & Hid & _).
  destruct (onSettled o g h) as [g' h']. cbn [fst] in Hid. apply IH. cbn [_groups].
  apply obj_set_Forall; [|done]. cbn [fst snd]. rewrite Hid.
  rewrite Forall_forall in Hgroups. split; by apply Hgroups, (list_elem_of_lookup_2 _ i).
Qed.

Lemma adopt_keys (P : string → Prop) (group_children : JsObj OutlineElement)
    (children : JsObj ModelChild) (h : Heap) :
  Forall (λ kv, P (elem_id kv.2)) group_children →
  Forall (λ kv, P kv.1) children →
  Forall (λ kv, P kv.1) (adopt group_children children h).1.
Proof.
  revert children h. induction group_children as [|[k c] gcs IH]; intros cs h; [done|].
  rewrite Forall_cons. intros [Hc Hgcs] Hcs. cbn [adopt]. apply IH; [done|].
  by apply (obj_set_Forall (λ kv, P kv.1)).
Qed.

(** X15. No key of a fetch cycle is an array index: the keys of
    [_groups], of the [children] of the model, of every group and of
    every element all have a character that is not a digit, so every
    [for (key in ...)] of the program visits them in the order in which
    they were assigned. *)
Theorem fetchCycle_keys_not_indices (outcomes : list ProviderOutcome) (order : list nat)
    (h : Heap) :
  Forall (λ key, all_digits key = false)
    (obj_keys (_groups (fetchCycle outcomes order h).1))
  ∧ Forall (λ key, all_digits key = false)
      (obj_keys (model_children (fetchCycle outcomes order h).1))
  ∧ Forall (λ g,
        Forall (λ key, all_digits key = false) (obj_keys (group_children g))
        ∧ Forall (λ e, Forall (λ key, all_digits key = false) (obj_keys (elem_children e)))
            (children_preorder (group_children g)))
      (obj_values (_groups (fetchCycle outcomes order h).1)).
Proof.
  assert (∀ pid cs, all_digits pid = false → keyed pid cs →
            Forall (λ kv, all_digits (elem_id kv.2) = false) cs
            ∧ Forall (λ key, all_digits key = false) (obj_keys cs)) as Hkeyed.
  { intros pid cs Hpid [_ Hcs]. rewrite Forall_forall in Hcs.
    split; [|unfold obj_keys; rewrite Forall_fmap]; apply Forall_forall;
      intros kv Hkv; destruct (Hcs kv Hkv) as [Hkey [suffix Hid]]; simpl;
      [|rewrite Hkey]; by rewrite Hid, all_digits_app, Hpid. }
  unfold fetchCycle.
  pose proof (makeGroups_fresh fresh_model (length outcomes) 0 h) as (_ & _ & Hfresh).
  pose proof (λ j, makeGroups_lookup fresh_model (length outcomes) 0 h j eq_refl) as Hlookup.
  pose proof (makeGroups_length fresh_model (length outcomes) 0 h) as Hlen.
  destruct (makeGroups fresh_model 0 (length outcomes) h) as [groups h0].
  cbn [fst snd] in *.
  assert (Forall (λ g, all_digits (group_id g) = false) groups) as Hids.
  { apply Forall_lookup. intros j g Hg.
    assert (j < length outcomes) as Hj.
    { pose proof (lookup_lt_Some _ _ _ Hg). lia. }
    destruct (Hlookup j Hj) as (g' & Hg' & _ & Hid & _).
    simplify_eq. rewrite Hid. apply model_id_not_index. }
  pose proof (settleAll_keys outcomes groups order fresh_model h0 Hids (Forall_nil_2 _))
    as Hkeys.
  destruct (settleAll_built outcomes groups order fresh_model h0 Hfresh) as [[Hm _] Hch].
  { split; [constructor | apply NoDup_nil_2]. }
  destruct (settleAll outcomes groups order fresh_model h0) as [m h1].
  cbn [fst snd model_children fresh_model] in *.
  assert (Forall (λ g, all_digits (group_id g) = false ∧ built_group g h1)
            (obj_values (_groups m))) as Hbuilt.
  { unfold obj_values in *. rewrite Forall_fmap in Hm. rewrite Forall_fmap.
    rewrite Forall_forall in Hkeys. rewrite Forall_forall in Hm.
    apply Forall_forall. intros kv Hkv. simpl.
    split; [by apply Hkeys | by apply Hm]. }
  assert (Forall (λ key, all_digits key = false) (obj_keys (_groups m))) as Hgkeys.
  { unfold obj_keys. rewrite Forall_fmap. eapply Forall_impl; [exact Hkeys|].
    by intros kv [? _]. }
  rewrite Forall_forall in Hbuilt.
  split_and!.
  - by rewrite joined_groups.
  - unfold joined. destruct (negb _); cbn [fst model_children].
    + unfold obj_keys in *. rewrite <-list_fmap_compose.
      rewrite Forall_fmap in Hgkeys |- *. eapply Forall_impl; [exact Hgkeys|].
      by intros [k g].
    + destruct (first (_groups m)) as [g|] eqn:Hfirst; [|cbn [fst]; by rewrite Hch].
      destruct (Hbuilt g (first_values _ _ Hfirst))
        as (Hid & _ & _ & _ & _ & Hg & _).
      pose proof (adopt_keys (λ key, all_digits key = false) (group_children g)
                    (model_children m) h1) as Hadopt.
      destruct (adopt (group_children g) (model_children m) h1) as [cs h2].
      cbn [fst model_children] in *. unfold obj_keys. rewrite Forall_fmap.
      apply Hadopt; [by apply (Hkeyed (group_id g)) | by rewrite Hch].
  - rewrite joined_groups. apply Forall_forall. intros g Hg.
    destruct (Hbuilt g Hg) as [Hid Hgroup].
    pose proof Hgroup as (_ & _ & _ & _ & Hgk & _ & Hok & _).
    split; [by apply (Hkeyed (group_id g))|].
    unfold nested_ok in Hok. rewrite Forall_forall in Hok. apply Forall_forall.
    intros e He. destruct (Hok e He) as [Hek _].
    destruct (built_group_prefix g h1 e Hgroup He) as [suffix Hsuffix].
    apply (Hkeyed (elem_id e)); [|done]. by rewrite Hsuffix, all_digits_app, Hid.
Qed.

End Outline.

(** * A worked instance

    Ranges are intervals of offsets, a position is an offset, and the
    scorer accepts the names the pattern is a prefix of, with the length
    of the pattern as match-value. *)

Definition interval : Type := (nat * nat)%type.

Definition interval_contains (r : interval) (p : nat) : bool :=
  (r.1 <=? p) && (p <=? r.2).

Definition prefix_score (pattern word : string) : option FuzzyScore :=
  if String.prefix pattern word then Some (Z.of_nat (String.length pattern), [])
  else None.

Definition symbol (name : string) (range : interval)
    (children : option (list (SymbolInformation interval)))
    : SymbolInformation interval :=
  mkSymbolInformation interval name None range children.

(** One provider returns [Foo] and [Bar], and [Baz] inside [Bar]. *)
Definition sample_symbols : list (SymbolInformation interval) :=
  [ symbol "Foo" (0, 10) None;
    symbol "Bar" (11, 20) (Some [symbol "Baz" (12, 15) None]) ].

Definition sample_cycle : OutlineModel interval * Heap :=
  fetchCycle interval [Resolved interval (Some sample_symbols)] [0] empty_heap.

Definition sample_group : OutlineGroup interval :=
  mkOutlineGroup interval 0 "rootprovider_0" 0
    [ ("rootprovider_0Foo",
       mkOutlineElement interval 1 "rootprovider_0Foo" (symbol "Foo" (0, 10) None) []);
      ("rootprovider_0Bar",
       mkOutlineElement interval 2 "rootprovider_0Bar"
         (symbol "Bar" (11, 20) (Some [symbol "Baz" (12, 15) None]))
         [ ("rootprovider_0BarBaz",
            mkOutlineElement interval 3 "rootprovider_0BarBaz"
              (symbol "Baz" (12, 15) None) []) ]) ].

Definition sample_Baz : OutlineElement interval :=
  mkOutlineElement interval 3 "rootprovider_0BarBaz" (symbol "Baz" (12, 15) None) [].

Example sample_cycle_groups : _groups interval sample_cycle.1 = [("rootprovider_0", sample_group)].
Proof. vm_compute. reflexivity. Qed.

Example sample_cycle_children :
  obj_keys (model_children interval sample_cycle.1) = ["rootprovider_0Foo"; "rootprovider_0Bar"].
Proof. vm_compute. reflexivity. Qed.

Example sample_updateMatches :
  ∃ h, updateMatches interval prefix_score "Baz" sample_cycle.1 sample_cycle.2
       = Ok (Some sample_Baz, h)
     ∧ get_score 1 h = None
     ∧ get_score 2 h = Some (0%Z, [])
     ∧ get_score 3 h = Some (3%Z, []).
Proof. eexists. vm_compute. done. Qed.

Example sample_getItemEnclosingPosition :
  getItemEnclosingPosition interval nat interval_contains 13 sample_cycle.1 = Some sample_Baz.
Proof. vm_compute. reflexivity. Qed.

(** The sample cycle satisfies the hypothesis of [fetchCycle_children],
    which gives the single registered group. *)
Lemma fetchCycle_children_witness :
  [0] ≡ₚ seq 0 (length [Resolved interval (Some sample_symbols)])
  ∧ length (_groups interval sample_cycle.1)
    = length [Resolved interval (Some sample_symbols)].
Proof.
  split; [done|].
  apply (fetchCycle_children interval [Resolved interval (Some sample_symbols)] [0]
           empty_heap).
  done.
Defined.

(** The objects of the sample group are distinct, and
    [group_updateMatches_propagates] applies to it: the search for [Baz]
    returns, and leaves [Baz] with its own score. *)
Lemma group_updateMatches_propagates_witness :
  NoDup (elem_ref interval <$> children_preorder interval (group_children interval sample_group))
  ∧ ∃ top h',
      group_updateMatches interval prefix_score "Baz" sample_group None sample_cycle.2
      = Ok (top, h')
      ∧ get_score (elem_ref interval sample_Baz) h' = Some (3%Z, []).
Proof.
  assert (NoDup (elem_ref interval <$>
            children_preorder interval (group_children interval sample_group))) as Hnd.
  { apply (bool_decide_unpack _). vm_compute. exact I. }
  split; [exact Hnd|].
  destruct (group_updateMatches_propagates interval prefix_score "Baz" sample_group
              sample_cycle.2 Hnd) as (top & h' & Hrun & _ & _ & Hown & _).
  exists top, h'. split; [exact Hrun|].
  apply Hown; [|reflexivity].
  apply list_elem_of_In. vm_compute. tauto.
Defined.

(** [updateMatches_first_wins] applies to the sample group. *)
Lemma updateMatches_first_wins_witness :
  NoDup (elem_ref interval <$> children_preorder interval (group_children interval sample_group))
  ∧ ∃ top h',
      group_updateMatches interval prefix_score "Ba" sample_group None sample_cycle.2
      = Ok (top, h').
Proof.
  assert (NoDup (elem_ref interval <$>
            children_preorder interval (group_children interval sample_group))) as Hnd.
  { apply (bool_decide_unpack _). vm_compute. exact I. }
  split; [exact Hnd|].
  destruct (updateMatches_first_wins interval prefix_score "Ba" sample_group
              sample_cycle.2 Hnd) as (_ & _ & _ & top & h' & Hrun & _).
  by exists top, h'.
Defined.

(** With the pattern [Ba], [Bar] and [Baz] have the same match-value:
    [Bar], which is visited first, is returned. *)
Example sample_tie :
  ∃ h bar, updateMatches interval prefix_score "Ba" sample_cycle.1 sample_cycle.2
           = Ok (Some bar, h)
         ∧ elem_id interval bar = "rootprovider_0Bar".
Proof. eexists _, _. vm_compute. done. Qed.

(** An element whose range contains the position, with a child whose
    range does not contain it and a grandchild whose range does. *)
Definition split_inner : OutlineElement interval :=
  mkOutlineElement interval 3 "rootprovider_0outermiddleinner"
    (symbol "inner" (0, 10) None) [].

Definition split_middle : OutlineElement interval :=
  mkOutlineElement interval 2 "rootprovider_0outermiddle"
    (symbol "middle" (20, 30) None)
    [("rootprovider_0outermiddleinner", split_inner)].

Definition split_outer : OutlineElement interval :=
  mkOutlineElement interval 1 "rootprovider_0outer"
    (symbol "outer" (0, 10) None)
    [("rootprovider_0outermiddle", split_middle)].

Definition split_group : OutlineGroup interval :=
  mkOutlineGroup interval 0 "rootprovider_0" 0 [("rootprovider_0outer", split_outer)].

(** C4 as stated fails: at position 5 the outer element is returned
    although one of its descendants contains the position. *)
Lemma getItemEnclosingPosition_descendant_counterexample :
  group_getItemEnclosingPosition interval nat interval_contains 5 split_group
  = Some split_outer
  ∧ split_inner ∈ descendants interval split_outer
  ∧ encloses interval nat interval_contains 5 split_inner = true.
Proof.
  split_and!; [reflexivity | | reflexivity].
  apply list_elem_of_In. vm_compute. tauto.
Qed.

(** A fetch cycle is started, [refresh()] is called before its promise
    settles, and the promise of the first cycle settles late, before the
    one of the second cycle: what the first provider call returned is not
    in the model. *)
Definition late_symbols : list (SymbolInformation interval) :=
  [symbol "Old" (0, 5) None].

Definition refresh_race : World interval :=
  run interval (construct interval 1 empty_heap)
    [ Refresh interval 1;
      Settles interval 0 0 (Resolved interval (Some late_symbols));
      Settles interval 1 0 (Resolved interval (Some sample_symbols)) ].

Example refresh_race_children :
  obj_keys (model_children interval (w_model interval refresh_race))
  = ["rootprovider_0Foo"; "rootprovider_0Bar"]
  ∧ obj_keys (_groups interval (w_model interval refresh_race)) = ["rootprovider_0"]
  ∧ recorded interval (w_model interval refresh_race) = [1; 2; 3; 4; 2; 3; 4].
Proof. vm_compute. done. Qed.

(** The callbacks of the first request still hold its group, the object
    at address 0: were they to run after the refresh, the model would
    hold that group and present [Old]. *)
Example late_callback_unguarded :
  obj_keys (model_children interval (w_model interval
     (deliver interval 0 0 (Resolved interval (Some late_symbols))
        (run interval (construct interval 1 empty_heap) [Refresh interval 1]))))
  = ["rootprovider_0Old"]
  ∧ group_ref interval <$> obj_values (_groups interval (w_model interval
      (deliver interval 0 0 (Resolved interval (Some late_symbols))
         (run interval (construct interval 1 empty_heap) [Refresh interval 1]))))
    = [0].
Proof. vm_compute. done. Qed.

(** A provider that fails and a provider that returns nothing leave the
    same model. *)
Example failed_provider_sample :
  fetchCycle interval [Rejected interval; Resolved interval (Some sample_symbols)] [1; 0]
    empty_heap
  = fetchCycle interval [Resolved interval None; Resolved interval (Some sample_symbols)]
      [1; 0] empty_heap
  ∧ obj_keys (model_children interval
      (fetchCycle interval [Rejected interval; Resolved interval (Some sample_symbols)]
         [1; 0] empty_heap).1)
    = ["rootprovider_1"; "rootprovider_0"].
Proof. vm_compute. done. Qed.

(** Ids: the candidate and its first two numbered variants are taken. *)
Example findId_sample :
  findId "Foo" "root" [("rootFoo", 0); ("rootFoo1", 1); ("rootFoo3", 3)] = "rootFoo2".
Proof. vm_compute. reflexivity. Qed.

Example getItemById_sample :
  getItemById interval "rootprovider_0BarBaz" sample_cycle.1
  = Some (IsElement interval sample_Baz)
  ∧ getItemById interval "rootprovider_0Baz" sample_cycle.1 = None.
Proof. vm_compute. done. Qed.

(** Two providers whose symbols both contain the position: the group
    registered first, the one whose promise settled first, answers. *)
Example first_group_sample :
  ∃ r, getItemEnclosingPosition interval nat interval_contains 3
         (fetchCycle interval
            [Resolved interval (Some sample_symbols);
             Resolved interval (Some late_symbols)] [1; 0] empty_heap).1 = Some r
     ∧ elem_id interval r = "rootprovider_1Old".
Proof. eexists. vm_compute. done. Qed.


(** ** Instances of the further properties *)

(** Three symbols named [f] in one group. *)
Definition overloads : list (SymbolInformation interval) :=
  [ symbol "f" (0, 1) None; symbol "f" (2, 3) None; symbol "f" (4, 5) None ].

(** [same_name_numbered] applies to the three overloads: their keys are
    [rootprovider_0f], [rootprovider_0f1] and [rootprovider_0f2]. *)
Lemma same_name_numbered_witness :
  all_digits "rootprovider_0" = false
  ∧ Forall (λ info, info_name interval info = "f") overloads
  ∧ obj_keys (makeOutlineElements interval overloads 0 "rootprovider_0" [] empty_heap).1
    = candidateId ("rootprovider_0" +:+ "f") <$> seq 0 (length overloads).
Proof.
  assert (Forall (λ info, info_name interval info = "f") overloads) as Hall.
  { repeat constructor. }
  split_and!; [reflexivity | exact Hall |].
  exact (same_name_numbered interval "f" overloads 0 "rootprovider_0" empty_heap
           eq_refl Hall).
Defined.

Example overloads_keys :
  obj_keys (makeOutlineElements interval overloads 0 "rootprovider_0" [] empty_heap).1
  = ["rootprovider_0f"; "rootprovider_0f1"; "rootprovider_0f2"].
Proof. vm_compute. reflexivity. Qed.

(** A symbol [a] with the child [b], followed by a symbol [ab]. *)
Definition clash_inner : SymbolInformation interval := symbol "b" (1, 2) None.

Definition clash_outer : SymbolInformation interval :=
  symbol "a" (0, 10) (Some [clash_inner]).

Definition clash_sibling : SymbolInformation interval := symbol "ab" (11, 20) None.

(** [nested_and_sibling_share_id] applies to them: the element of [b]
    and the element of [ab] have the id [rootprovider_0ab]. *)
Lemma nested_and_sibling_share_id_witness :
  all_digits "rootprovider_0" = false
  ∧ info_children interval clash_outer = Some [clash_inner]
  ∧ info_name interval clash_inner ≠ ""
  ∧ info_name interval clash_sibling
    = info_name interval clash_outer +:+ info_name interval clash_inner
  ∧ ∃ c e2,
      elem_symbol interval c = clash_inner
      ∧ elem_symbol interval e2 = clash_sibling
      ∧ elem_ref interval c ≠ elem_ref interval e2
      ∧ elem_id interval c = elem_id interval e2.
Proof.
  split_and!; [reflexivity | reflexivity | discriminate | reflexivity |].
  destruct (nested_and_sibling_share_id interval clash_outer clash_inner clash_sibling
              0 0 "rootprovider_0" empty_heap)
    as (e1 & c & e2 & _ & _ & Hc & He2 & Hrefs & Hids & _);
    [reflexivity | reflexivity | discriminate | reflexivity |].
  exists c, e2. split_and!; [exact Hc | exact He2 | exact Hrefs | exact Hids].
Defined.

(** [updateMatches_touches_scores_only] applies to the search for [Baz]
    in the sample model. *)
Lemma updateMatches_touches_scores_only_witness :
  ∃ top h',
    updateMatches interval prefix_score "Baz" sample_cycle.1 sample_cycle.2 = Ok (top, h')
    ∧ next h' = next sample_cycle.2
    ∧ parents h' = parents sample_cycle.2
    ∧ ∀ l, l ∉ elem_ref interval <$> group_elements interval sample_cycle.1 →
           get_score l h' = get_score l sample_cycle.2.
Proof.
  eexists _, _. split; [vm_compute; reflexivity|].
  eapply (updateMatches_touches_scores_only interval prefix_score "Baz" sample_cycle.1
            sample_cycle.2).
  vm_compute. reflexivity.
Defined.

(** An element that is not in the sample group and has no score. *)
Definition stale_top : OutlineElement interval :=
  mkOutlineElement interval 9 "rootprovider_1Qux" (symbol "Qux" (30, 40) None) [].

(** [group_updateMatches_stale_topMatch] applies to the sample group
    with that element as the best match so far. *)
Lemma group_updateMatches_stale_topMatch_witness :
  get_score (elem_ref interval stale_top) sample_cycle.2 = None
  ∧ (elem_ref interval stale_top
      ∉ elem_ref interval <$> children_preorder interval (group_children interval sample_group))
  ∧ group_updateMatches interval prefix_score "Baz" sample_group (Some stale_top)
      sample_cycle.2 = TypeError.
Proof.
  assert (elem_ref interval stale_top
            ∉ elem_ref interval <$>
                children_preorder interval (group_children interval sample_group)) as Hnot.
  { apply (bool_decide_unpack _). vm_compute. exact I. }
  split_and!; [reflexivity | exact Hnot |].
  apply (group_updateMatches_stale_topMatch interval prefix_score "Baz" sample_group
           stale_top sample_cycle.2 eq_refl Hnot).
  exists sample_Baz. split; [|discriminate].
  apply list_elem_of_In. vm_compute. tauto.
Defined.

(** [updateMatches_erases_previous] applies to the sample model: the
    search for [Baz] after the search for [Foo] is the search for [Baz]
    alone. *)
Lemma updateMatches_erases_previous_witness :
  NoDup (elem_ref interval <$> group_elements interval sample_cycle.1)
  ∧ ∃ top' h1 top h2,
      updateMatches interval prefix_score "Foo" sample_cycle.1 sample_cycle.2 = Ok (top', h1)
      ∧ updateMatches interval prefix_score "Baz" sample_cycle.1 h1 = Ok (top, h2)
      ∧ updateMatches interval prefix_score "Baz" sample_cycle.1 sample_cycle.2
        = Ok (top, h2).
Proof.
  assert (NoDup (elem_ref interval <$> group_elements interval sample_cycle.1)) as Hnd.
  { apply (bool_decide_unpack _). vm_compute. exact I. }
  split; [exact Hnd|].
  exact (updateMatches_erases_previous interval prefix_score "Foo" "Baz" sample_cycle.1
           sample_cycle.2 Hnd).
Defined.

(** [updateMatches_best_of_all_groups] applies to the sample model. *)
Lemma updateMatches_best_of_all_groups_witness :
  NoDup (elem_ref interval <$> group_elements interval sample_cycle.1)
  ∧ ∃ top h',
      updateMatches interval prefix_score "Ba" sample_cycle.1 sample_cycle.2 = Ok (top, h')
      ∧ ∀ e, e ∈ group_elements interval sample_cycle.1 →
             get_score (elem_ref interval e) h' = final_score interval prefix_score "Ba" e.
Proof.
  assert (NoDup (elem_ref interval <$> group_elements interval sample_cycle.1)) as Hnd.
  { apply (bool_decide_unpack _). vm_compute. exact I. }
  split; [exact Hnd|].
  destruct (updateMatches_best_of_all_groups interval prefix_score "Ba" sample_cycle.1
              sample_cycle.2 Hnd) as (top & h' & Hrun & _ & _ & _ & Hscores).
  exists top, h'. split; [exact Hrun | exact Hscores].
Defined.

(** [_makeOutlineElement_appends] applies to the sample group: a second
    symbol [Foo] is added after its children, under the id
    [rootprovider_0Foo1]. *)
Lemma _makeOutlineElement_appends_witness :
  all_digits "rootprovider_0" = false
  ∧ ∃ res,
      (_makeOutlineElement interval (symbol "Foo" (21, 30) None) 0 "rootprovider_0"
         (group_children interval sample_group) sample_cycle.2).1
      = group_children interval sample_group ++ [(elem_id interval res, res)]
      ∧ elem_id interval res = "rootprovider_0Foo1".
Proof.
  split; [reflexivity|].
  destruct (_makeOutlineElement_appends interval (symbol "Foo" (21, 30) None) 0
              "rootprovider_0" (group_children interval sample_group) sample_cycle.2
              eq_refl) as (res & Hres & Hid & _).
  exists res. split; [exact Hres|].
  rewrite Hid. vm_compute. reflexivity.
Defined.

(** [onSettled_symbols] applies to the group of the first provider as
    it is created. *)
Lemma onSettled_symbols_witness :
  all_digits (group_id interval (mkOutlineGroup interval 0 "rootprovider_0" 0 [])) = false
  ∧ elem_symbol interval <$> children_preorder interval
      (group_children interval
         (onSettled interval (Resolved interval (Some sample_symbols))
            (mkOutlineGroup interval 0 "rootprovider_0" 0 []) empty_heap).1)
    = (elem_symbol interval <$> children_preorder interval [])
      ++ infos_preorder interval sample_symbols.
Proof.
  split; [reflexivity|].
  exact (onSettled_symbols interval sample_symbols
           (mkOutlineGroup interval 0 "rootprovider_0" 0 []) empty_heap eq_refl).
Defined.

(** The elements the program builds from the symbol [a] with its child
    [b] followed by the symbol [ab], and the model of a cycle with one
    provider that returns these symbols. *)
Definition clash_nested : OutlineElement interval :=
  mkOutlineElement interval 2 "rootprovider_0ab" clash_inner [].

Definition clash_first : OutlineElement interval :=
  mkOutlineElement interval 1 "rootprovider_0a" clash_outer
    [("rootprovider_0ab", clash_nested)].

Definition clash_second : OutlineElement interval :=
  mkOutlineElement interval 3 "rootprovider_0ab" clash_sibling [].

Definition clash_cycle : OutlineModel interval * Heap :=
  fetchCycle interval [Resolved interval (Some [clash_outer; clash_sibling])] [0]
    empty_heap.

(** C9 as stated fails: the element of [ab] has been inserted under its
    id, into the group and then into the [children] of the model, and the
    lookup of that id returns the element of [b], another object. *)
Lemma getElementById_round_trip_counterexample :
  model_children interval clash_cycle.1
  = [ ("rootprovider_0a", ChildElement interval clash_first);
      ("rootprovider_0ab", ChildElement interval clash_second) ]
  ∧ getItemById interval (elem_id interval clash_second) clash_cycle.1
    = Some (IsElement interval clash_nested)
  ∧ getElementById interval (elem_id interval clash_second)
      (insert_child interval clash_second
         (IsGroup interval
            (mkOutlineGroup interval 0 "rootprovider_0" 0
               [("rootprovider_0a", clash_first)])))
    = Some (IsElement interval clash_nested)
  ∧ IsElement interval clash_nested ≠ IsElement interval clash_second.
Proof.
  split_and!; [vm_compute; reflexivity .. | discriminate].
Defined.
